(* ===== verification/_CoqProject ===== *)
-Q . S2P
Prelude.v
Grid.v
Render.v
Queue.v
PathViewer.v
Solver.v
SolverInv.v
Shortest.v
App.v
AppInv.v
Lifecycle.v
View.v
Reference.v
Scenarios.v
