(* ===== verification/Prelude.v ===== *)
(** * A verification library for sColin16/maze-solve (src/main.js)

    The program is a browser grid-maze visualiser.  One [Maze] object
    (src/main.js, class Maze) holds a [size] x [size] tile array [map], a
    parallel distance field [distances] (JS numbers, [Infinity] for
    "unreached") and a boolean array [explored].  A [MazeSolver] (class
    MazeSolver) owns a FIFO [Queue] of [Node]s (x, y, distance) and runs a
    breadth-first search one tile per [step()]; [skip()] drains it and
    [solveLoop()] is the 1 ms timer tick.  When the goal (size-1, size-1)
    has a finite distance, [PathViewer.draw()] walks the distance field
    back to (0, 0).  [setup()] builds the maze once and hands the same
    object to every other class; the UI classes ([ControlsHandler],
    [BlockPlacer], [SettingsHandler], [BlockSelector]) turn DOM events
    into calls of these operations.

    Files, in dependency order:
    - [Prelude] (this file): the JS values the code computes with
      ([jsnum]: a finite natural, [Infinity] or [NaN], with JS [+], [<] and
      [=== Infinity]); how a call ends ([outcome]: returns, throws with
      the state at the throw point, or does not stop within the fuel);
      JS two-dimensional arrays as [list (list A)] read with [rd2]
      (notation [g @[x, y]]) and written with [wr2]; the shape predicate
      [square]; the cells of a board in loop order ([cells]) with the
      counting lemma behind every bound; the hint database [grid] and
      the shared lemmas.
    - [Grid], Module [Maze]: class Maze.  Tiles ([tile]: 0, 1, 2 and
      [undefined]), the record [maze], [create2DArray], [getTile],
      [clearEnds], [resetDistances], [setUpMaze], the constructor
      [newMaze], [solved], [inBounds].  Math.random is a function from
      draw numbers to rationals; the operations thread the number of
      draws made so far, in the order create2DArray calls it.
    - [Render], Module [Render]: the drawing methods of class Maze
      ([setFill], [drawTile], [resetBuffer], [draw]) as the lists of
      p5.js calls they make ([cmd]), and the tile geometry ([CANVASSIZE],
      [width] = CANVASSIZE / size as [setUpMaze] sets it); [resetBuffer]
      draws one square per cell, all inside the canvas.
    - [Queue], Module [Queue]: class Queue and class Node.  The Class
      [FifoQueue] with its laws [FifoLaws] states what the solver relies
      on; the JS array queue (push at the tail, shift at the head,
      [undefined] when empty) is an instance.
    - [PathViewer], Module [PathViewer]: class PathViewer.  [draw] is the
      [while (true)] walk with [size * size] iterations of fuel, returning
      the painted cells and whether it returned, threw (an undefined
      [bestCoord]) or was still running.  [bestCoord] is a JS [var]: it
      is carried from one iteration to the next, so only the goal can
      throw and a later stuck cell makes the loop spin.
    - [Solver], Module [Solver]: class MazeSolver.  The state [solver]
      (the shared maze, the queue, the [solving] flag and the log of what
      is painted), [getNeighbors], [testTileFree], [step], [canStep],
      [skip], [solveLoop], [play], [pause], [reset].  [step] throws where
      the JS code throws (popping an empty queue); its [for] loop carries
      the function-scoped [var cost] from one neighbour to the next.
    - [SolverInv], Module [SolverInv]: the breadth-first-search invariant
      [bfs_inv] (shapes; explored = finalized or queued; a queue without
      duplicates; every finalized or queued cell but the origin has a
      finalized neighbour whose distance plus the cell's cost is its
      distance), established by [reset] and preserved by [step];
      termination of [skip]; correctness of the path drawn once solved;
      after [reset] each step paints a new cell, exactly the finalized
      ones.
    - [Shortest], Module [Shortest]: what the distances mean.  Walks on
      the board ([walk]), the closure of the explored region
      ([reach_inv]) and the order of the queue ([order_inv]: layered
      distances, committed ones below queued ones, no walk shorter than
      a recorded distance), both kept by [step]; from them: every
      committed distance is the length of a shortest walk when the board
      has no Slow tile, an empty queue without a solution means the
      finish is unreachable, [skip] solves exactly the reachable mazes,
      and the path [PathViewer.draw] paints is a shortest walk.
    - [App], Module [App]: the page.  The record [app] (the solver and
      through it the one shared maze, the active block, the Math.random
      position), one handler per DOM event ([ch_play], [ch_pause],
      [ch_step], [ch_skip], [ch_restart] of ControlsHandler; [setBlock],
      [getInfo], [handleBlockDrawing], [drawBlock], [redrawMaze] and
      [blockToTile] of BlockPlacer;
      [resetMaze] of SettingsHandler; [activate] of BlockSelector), the
      dispatcher [handle] for the event type [ui_event] (the interval's
      tick included), [setup], and the inductive [reachable] set of page
      states.  [getInfo] and [drawTile] are inverse: the pixels mapped
      to a tile are the square drawn for it, and the preview [drawBlock]
      draws is the square under the mouse.
    - [AppInv], Module [AppInv]: the page invariant [app_inv] (the
      solver's three invariants, no Slow tile, a known block, empty
      ends), proved of every reachable state by rule induction; no
      handler throws; painting is locked once the search has started; a
      tick on a solved page paints a correct path, which is a shortest
      one; every distance shown is a shortest one; the "no solution"
      error is right; a running solver pauses within [measure + 1] ticks
      ([ticks] iterates the interval); every cell of a reachable page
      holds a tile code 0 or 1, a whole or infinite distance and a flag.
    - [Lifecycle], Module [Lifecycle]: the spec's state machine of the
      solver (Idle, Running, Paused, Solved, Unsolvable, section 4.3) as
      the relation [spec_step], the phase [phase_of] read off a solver,
      and the refinement theorem: every event of a reachable page moves
      the phase along a transition of [spec_step].
    - [View], Module [View]: the maze buffer [mazeBuffer] as state (its
      fill and the rectangles drawn on it, [pen]), what [setup()],
      [setBlock()] and [resetMaze()] draw on it ([view_handle]), and the
      pages paired with their buffers ([vreachable]).  [resetBuffer]
      paints every pixel of a tile in the tile's colour, and on every
      reachable page the buffer shows the map except on the start and
      finish, where [setBlock] paints a block [clearEnds] has removed (a
      wall painted there shows brown on an empty tile); [resetMaze]
      repaints the whole buffer from the new map.  The pixel model keeps
      the fill of the last rectangle over a pixel: the 1-px outlines and
      the A/B labels are not part of it.
    - [Reference], Module [Reference]: a reference search over the
      whole board, layer by layer ([reach], [ref_dist]), with no queue;
      the layers are the cells walks of at most [L] moves reach and stop
      growing within [size * size] layers; a drained search leaves
      exactly the reference distances.
    - [Scenarios], Module [Scenarios]: concrete mazes and pages, and the
      general theorems applied at them (one witness per theorem with
      hypotheses).

    Bounds and fuel.  JS numbers are doubles; the distances the code
    produces are sums of the costs 1 and 2 along at most size * size
    cells, far below 2^53, so they are modelled as [nat] without
    rounding; on the pages the events reach every distance is below
    size * size ([Reference.page_distance_bound]).  Sizes are integers ([Z]) and [wallFreq] and Math.random
    are rationals ([Q]); the form's parseFloat can give other numbers,
    see below.  The page-level theorems assume only what the page
    delivers ([App.page_event]): mouse events on the canvas, the
    selector's two blocks, a positive size from the form.  The
    PathViewer walk visits pairwise distinct cells while the distances
    strictly decrease, so [size * size] iterations are enough for it to
    reach the origin ([PathViewer.draw_correct]).  The drain loop of
    [skip] runs on the fuel [skip_bound] = [2 * unexplored + |queue| + 1],
    which drops at every step ([SolverInv.skip_terminates]); the same
    measure bounds the ticks a running page needs to pause
    ([AppInv.running_page_stops]).  The reference search looks at
    [size * size + 1] layers: the layers are lists of distinct cells of
    the board and grow until they stop, so they stop within [size * size]
    ([Reference.reach_fix]).  Pixel positions are exact rationals; JS
    divides in doubles, which can move a pixel at a tile border.

    Not modelled: the pixels of the visible canvas (the drawing calls
    on it are modelled as call lists, the solver's painting as the log
    of visited and path cells, and only the maze buffer as state); the
    text labels A and B beyond the calls that write them; the CSS
    classes of the buttons; non-integer sizes from parseFloat (sizes
    are integers here); writes out of range, which the page never makes
    (the mouse is on the canvas, [App.getInfo_in_range]) and which JS
    would turn into array extensions or TypeErrors. *)

From stdpp Require Export base list option sets list_numbers.
From Stdlib Require Export ZArith Lia.

Declare Scope grid_scope.
Delimit Scope grid_scope with grid.
Open Scope Z_scope.

(** ** JS numbers of the distance field *)

(** The values the code stores in [distances] or computes from them:
    naturals (sums of costs), [Infinity] (the "unreached" mark) and [NaN]
    ([node.distance + undefined]).  A missing array element reads as
    [undefined], which every operation of the code treats like [NaN]. *)
Inductive jsnum := Fin (n : nat) | Inf | NaN.

#[export] Instance jsnum_eq_dec : EqDecision jsnum.
Proof. solve_decision. Defined.

(** JS [a + b] on these values; [c] is [None] for [undefined]. *)
Definition js_add (a : jsnum) (c : option nat) : jsnum :=
  match a, c with
  | Fin n, Some k => Fin (n + k)
  | Inf, Some _ => Inf
  | _, _ => NaN
  end.

(** JS [a < b]. *)
Definition js_lt (a b : jsnum) : bool :=
  match a, b with
  | Fin n, Fin m => Nat.ltb n m
  | Fin _, Inf => true
  | _, _ => false
  end.

(** JS [a === Infinity]. *)
Definition is_inf (a : jsnum) : bool := if decide (a = Inf) then true else false.

Notation "a <js b" := (js_lt a b) (at level 70) : grid_scope.

(** ** Exceptions *)

(** How a call of the code ends: normally, by throwing (JS has no
    rollback: the state carries every assignment made before the throw),
    or not at all (a loop that does not stop within the model's fuel). *)
Inductive outcome (S : Type) := Ok (s : S) | Throw (s : S) | Hang.
Arguments Ok {S}.
Arguments Throw {S}.
Arguments Hang {S}.

(** Sequencing: a throw or a hang skips the rest of the call. *)
Definition and_then {S T} (o : outcome S) (k : S → outcome T) (h : S → T) : outcome T :=
  match o with
  | Ok s => k s
  | Throw s => Throw (h s)
  | Hang => Hang
  end.

(** ** JS two-dimensional arrays *)

(** [g[x][y]]: [None] when an index is missing (JS: [undefined], or a
    TypeError for the outer index; the code always checks [inBounds]
    before such a read, see [rd2_square]). *)
Definition rd2 {A} (g : list (list A)) (x y : Z) : option A :=
  if (0 <=? x) && (0 <=? y) then g !! Z.to_nat x ≫= (λ row, row !! Z.to_nat y)
  else None.

(** [g[x][y] = v] for in-range indices (the code writes only there, see
    the invariants of [SolverInv]). *)
Definition wr2 {A} (g : list (list A)) (x y : Z) (v : A) : list (list A) :=
  if (0 <=? x) && (0 <=? y) then alter (λ row, <[Z.to_nat y := v]> row) (Z.to_nat x) g
  else g.

Notation "g @[ x , y ]" := (rd2 g x y) (at level 1, format "g @[ x ,  y ]") : grid_scope.
Open Scope grid_scope.

(** An [n] x [n] array. *)
Definition square {A} (n : Z) (g : list (list A)) : Prop :=
  length g = Z.to_nat n ∧ Forall (λ row, length row = Z.to_nat n) g.

Definition in_range (n x y : Z) : Prop := 0 <= x < n ∧ 0 <= y < n.

#[export] Instance in_range_dec n x y : Decision (in_range n x y).
Proof. unfold in_range. solve_decision. Defined.

(** All cells of an [n] x [n] grid, in the order of the two nested
    [for] loops of [create2DArray] and [resetBuffer]. *)
Definition cells (n : Z) : list (Z * Z) :=
  mjoin ((λ i, pair i <$> seqZ 0 n) <$> seqZ 0 n).

Create HintDb grid.
Create Rewrite HintDb grid.

Ltac invc H := inversion H; subst; clear H.

Section Arrays.
Context {A : Type}.
Implicit Types (g : list (list A)) (v : A).

Lemma rd2_square n g x y :
  square n g → in_range n x y → ∃ v, g @[x, y] = Some v.
Proof.
  intros [Hl Hrows] [Hx Hy]. unfold rd2.
  rewrite (proj2 (Z.leb_le 0 x)), (proj2 (Z.leb_le 0 y)) by lia. simpl.
  destruct (lookup_lt_is_Some_2 g (Z.to_nat x)) as [row Hrow]; [lia|].
  pose proof (Forall_lookup_1 _ _ _ _ Hrows Hrow) as Hlen; simpl in Hlen.
  destruct (lookup_lt_is_Some_2 row (Z.to_nat y)) as [v Hv]; [lia|].
  exists v. rewrite Hrow. exact Hv.
Qed.

Lemma rd2_in_range n g x y v :
  square n g → g @[x, y] = Some v → in_range n x y.
Proof.
  intros [Hl Hrows]. unfold rd2, in_range.
  destruct (0 <=? x) eqn:Hx, (0 <=? y) eqn:Hy; simpl; try discriminate.
  apply Z.leb_le in Hx, Hy.
  destruct (g !! Z.to_nat x) as [row|] eqn:Hrow; simpl; [|discriminate].
  intros Hv. pose proof (Forall_lookup_1 _ _ _ _ Hrows Hrow) as Hlen; simpl in Hlen.
  apply lookup_lt_Some in Hrow, Hv. lia.
Qed.

Lemma rd2_wr2_same n g x y v :
  square n g → in_range n x y → (wr2 g x y v) @[x, y] = Some v.
Proof.
  intros Hsq Hr. destruct (rd2_square n g x y Hsq Hr) as [w Hw].
  revert Hw. unfold rd2, wr2.
  destruct (0 <=? x), (0 <=? y); simpl; try discriminate.
  rewrite list_lookup_alter_eq.
  destruct (g !! Z.to_nat x) as [row|]; simpl; [|discriminate].
  intros Hw. apply list_lookup_insert_eq. eapply lookup_lt_Some; eauto.
Qed.

Lemma rd2_wr2_other g x y x' y' v :
  (x, y) ≠ (x', y') → (wr2 g x y v) @[x', y'] = g @[x', y'].
Proof.
  intros Hne. unfold rd2, wr2.
  destruct (0 <=? x) eqn:Hx, (0 <=? y) eqn:Hy; simpl; try done.
  destruct (0 <=? x') eqn:Hx', (0 <=? y') eqn:Hy'; simpl; try done.
  apply Z.leb_le in Hx, Hy, Hx', Hy'.
  destruct (decide (x = x')) as [->|Hxx].
  - rewrite list_lookup_alter_eq.
    destruct (g !! Z.to_nat x') as [row|]; simpl; [|done].
    apply list_lookup_insert_ne. intros E. apply Hne. f_equal. lia.
  - rewrite list_lookup_alter_ne; [done|lia].
Qed.

Lemma rd2_wr2 n g x y x' y' v :
  square n g → in_range n x y →
  (wr2 g x y v) @[x', y'] = if decide ((x, y) = (x', y')) then Some v else g @[x', y'].
Proof.
  intros Hsq Hr. case_decide as E.
  - invc E. by apply rd2_wr2_same with n.
  - by apply rd2_wr2_other.
Qed.

Lemma square_wr2 n g x y v : square n g → square n (wr2 g x y v).
Proof.
  intros [Hl Hrows]. unfold wr2.
  destruct (0 <=? x), (0 <=? y); simpl; try (split; done).
  split; [by rewrite length_alter|].
  apply Forall_lookup_2. intros i row.
  destruct (decide (i = Z.to_nat x)) as [->|Hne].
  - rewrite list_lookup_alter_eq.
    destruct (g !! Z.to_nat x) as [r|] eqn:Hr; simpl; [|discriminate].
    intros [= <-]. rewrite length_insert.
    exact (Forall_lookup_1 _ _ _ _ Hrows Hr).
  - rewrite list_lookup_alter_ne by done.
    intros Hi. exact (Forall_lookup_1 _ _ _ _ Hrows Hi).
Qed.
End Arrays.

#[export] Hint Resolve square_wr2 : grid.
#[export] Hint Rewrite @rd2_wr2_other using congruence : grid.

(** A list of distinct cells of an [n] x [n] grid has at most [n * n]
    elements: the counting argument behind every fuel bound. *)
Lemma elem_cells n x y : (x, y) ∈ cells n ↔ in_range n x y.
Proof.
  unfold cells, in_range. rewrite list_elem_of_join. split.
  - intros (l & Hr & Hl). apply list_elem_of_fmap in Hl as (x' & -> & Hx).
    apply list_elem_of_fmap in Hr as (y' & [= -> ->] & Hy). rewrite elem_of_seqZ in Hx, Hy. lia.
  - intros Hxy. exists (pair x <$> seqZ 0 n).
    split; apply list_elem_of_fmap; [exists y|exists x]; rewrite elem_of_seqZ; split; try done; lia.
Qed.

Lemma in_range_cells n x y : in_range n x y → In (x, y) (cells n).
Proof. intros Hr. apply list_elem_of_In, elem_cells, Hr. Qed.

Lemma length_cells n : length (cells n) = (Z.to_nat n * Z.to_nat n)%nat.
Proof.
  unfold cells. rewrite length_join, <- list_fmap_compose.
  rewrite (const_fmap _ _ (Z.to_nat n)), sum_list_replicate, length_seqZ; [done|].
  intros i x _. simpl. by rewrite length_fmap, length_seqZ.
Qed.

Lemma NoDup_pairs (l k : list Z) : NoDup l → NoDup k → NoDup (mjoin ((λ i, pair i <$> k) <$> l)).
Proof.
  intros Hl Hk. induction Hl as [|x l Hx Hl IH]; [constructor|]. simpl. apply NoDup_app. split_and!.
  - apply NoDup_fmap_2_strong; [|done]. by intros ?? _ _ [= ->].
  - intros [a b] H1 H2. apply list_elem_of_fmap in H1 as (? & [= <- <-] & _).
    apply list_elem_of_join in H2 as (l' & Hin & Hl'). apply list_elem_of_fmap in Hl' as (x' & -> & Hx').
    apply list_elem_of_fmap in Hin as (? & [= -> _] & _). contradiction.
  - exact IH.
Qed.

Lemma NoDup_cells n : NoDup (cells n).
Proof. apply NoDup_pairs; apply NoDup_seqZ. Qed.

Lemma nodup_cells_length n (l : list (Z * Z)) :
  NoDup l → Forall (λ c, in_range n c.1 c.2) l → (length l ≤ Z.to_nat n * Z.to_nat n)%nat.
Proof.
  intros Hnd Hall. rewrite <- length_cells.
  apply List.NoDup_incl_length; [by apply NoDup_ListNoDup|]. intros [x y] Hin.
  apply in_range_cells. rewrite Forall_forall in Hall. apply (Hall (x, y)). by apply list_elem_of_In.
Qed.

(** A property of every cell of a concrete grid is checked cell by cell. *)
Lemma forall_cells n (P : Z → Z → Prop) :
  Forall (λ c, P c.1 c.2) (cells n) → ∀ x y, in_range n x y → P x y.
Proof.
  rewrite Forall_forall. intros Hall x y Hr.
  apply (Hall (x, y)). apply list_elem_of_In. by apply in_range_cells.
Qed.
