(* ===== verification/Grid.v ===== *)
(** Class [Maze] of src/main.js (lines 146-255): the tile array, the
    distance field and the explored marks, their construction
    ([create2DArray], [getTile], [setUpMaze], [resetDistances]), the
    clearing of the two ends, and the queries [solved] and [inBounds].
    Drawing methods ([setFill], [resetBuffer], [drawTile], [draw]) are
    not modelled. *)

From S2P Require Import Prelude.
From Stdlib Require Import QArith.
Open Scope Z_scope.
Open Scope grid_scope.

Module Maze.

(** The values the code stores in [maze.map]: [0] (empty), [1] (wall),
    [2] (slow, cost 2; no UI produces it) and [undefined] (what
    [BlockPlacer.blockToTile] returns for an unknown block id). *)
Inductive tile := Empty | Wall | Slow | Undef.

#[export] Instance tile_eq_dec : EqDecision tile.
Proof. solve_decision. Defined.

(** The fields of a [Maze] that the solver and the path viewer use.
    [width] (pixels per tile) and [mazeBuffer] only serve drawing. *)
Record maze := mkMaze {
  size : Z;
  wallFreq : Q;
  map : list (list tile);
  distances : list (list jsnum);
  explored : list (list bool)
}.

(** [create2DArray(size, callback, ...args)]: [size] rows of [size]
    calls of the callback, row by row.  The callback threads a state
    [St] (the position in the Math.random stream for [getTile], nothing
    for the constant callbacks). *)
Fixpoint build_row {St A} (cb : St → A * St) (j : nat) (s : St) : list A * St :=
  match j with
  | O => ([], s)
  | S j' =>
      let '(a, s1) := cb s in
      let '(r, s2) := build_row cb j' s1 in
      (a :: r, s2)
  end.

Fixpoint build_rows {St A} (cb : St → A * St) (i n : nat) (s : St) : list (list A) * St :=
  match i with
  | O => ([], s)
  | S i' =>
      let '(r, s1) := build_row cb n s in
      let '(rs, s2) := build_rows cb i' n s1 in
      (r :: rs, s2)
  end.

Definition create2DArray {St A} (size : Z) (cb : St → A * St) (s : St) : list (list A) * St :=
  build_rows cb (Z.to_nat size) (Z.to_nat size) s.

(** [getTile(wallFreq)]: draw [Math.random()] (the [k]-th value of the
    stream [random]) and return a wall when it is below [wallFreq]. *)
Definition getTile (random : nat → Q) (wallFreq : Q) (k : nat) : tile * nat :=
  (if Qlt_le_dec (random k) wallFreq then Wall else Empty, S k).

(** [clearEnds(map)]: [map[0][0] = 0; map[size-1][size-1] = 0] with
    [size = map.length]; an empty array makes [map[0]] undefined and the
    assignment throws. *)
Definition clearEnds (m : list (list tile)) : option (list (list tile)) :=
  let size := Z.of_nat (length m) in
  match m with
  | [] => None
  | _ => Some (wr2 (wr2 m 0 0 Empty) (size - 1) (size - 1) Empty)
  end.

(** [resetDistances()]: fresh [Infinity] and [false] arrays, then
    [explored[0][0] = true], which throws on an empty array after both
    fields have been replaced. *)
Definition resetDistances (m : maze) : outcome maze :=
  let d := (create2DArray (size m) (λ u : unit, (Inf, u)) tt).1 in
  let e := (create2DArray (size m) (λ u : unit, (false, u)) tt).1 in
  match e with
  | [] => Throw (mkMaze (size m) (wallFreq m) (map m) d e)
  | _ => Ok (mkMaze (size m) (wallFreq m) (map m) d (wr2 e 0 0 true))
  end.

(** [setUpMaze(size, wallFreq)], with the Math.random stream [random]
    read from position [k]; returns the position after the last draw.
    [size], [wallFreq] and [map] are assigned before [resetDistances]
    runs, so they stay assigned when it throws. *)
Definition setUpMaze (random : nat → Q) (size : Z) (wallFreq : Q) (m : maze) (k : nat)
    : outcome (maze * nat) :=
  let '(tiles, k') := create2DArray size (getTile random wallFreq) k in
  and_then (resetDistances (mkMaze size wallFreq tiles (distances m) (explored m)))
    (λ m1, match clearEnds (map m1) with
           | Some tiles' => Ok (mkMaze (Maze.size m1) (Maze.wallFreq m1) tiles' (distances m1) (explored m1), k')
           | None => Throw (m1, k')
           end)
    (λ m1, (m1, k')).

(** [new Maze(size, wallFreq, buffer)]. *)
Definition newMaze (random : nat → Q) (size : Z) (wallFreq : Q) (k : nat) : outcome (maze * nat) :=
  setUpMaze random size wallFreq (mkMaze 0 0 [] [] []) k.

(** Reads as the code performs them: a missing element is [undefined]. *)
Definition dist_at (m : maze) (x y : Z) : jsnum := default NaN ((distances m) @[x, y]).

(** [solved()]: [distances[size-1][size-1] !== Infinity] with
    [size = map.length]. *)
Definition solved (m : maze) : bool :=
  let n := Z.of_nat (length (map m)) in
  negb (is_inf (dist_at m (n - 1) (n - 1))).

(** [inBounds(x, y)]. *)
Definition inBounds (m : maze) (x y : Z) : bool :=
  (0 <=? x) && (x <? size m) && (0 <=? y) && (y <? size m).

(** The three arrays are [size] x [size]. *)
Definition maze_shape (m : maze) : Prop :=
  0 < size m ∧ square (size m) (map m) ∧ square (size m) (distances m)
  ∧ square (size m) (explored m).

(** The state [resetDistances] leaves: every distance [Infinity], every
    cell unexplored except the origin. *)
Definition reset_fields (n : Z) (d : list (list jsnum)) (e : list (list bool)) : Prop :=
  square n d ∧ square n e ∧
  ∀ x y, in_range n x y → d @[x, y] = Some Inf ∧ e @[x, y] = Some (bool_decide ((x, y) = (0, 0))).

Definition is_end (n x y : Z) : Prop := (x, y) = (0, 0) ∨ (x, y) = (n - 1, n - 1).


(** The maze [setUpMaze] builds, cell by cell. *)
Definition fresh_maze (random : nat → Q) (size : Z) (w : Q) (k : nat) (m : maze) : Prop :=
  maze_shape m ∧ Maze.size m = size ∧ Maze.wallFreq m = w ∧
  reset_fields size (distances m) (explored m) ∧
  ∀ x y, in_range size x y →
    (map m) @[x, y] = Some (if decide (is_end size x y) then Empty
                            else (getTile random w (k + Z.to_nat x * Z.to_nat size + Z.to_nat y)).1).

(** ** create2DArray *)

Section Create.
Context {St A : Type} (cb : St → A * St).
Let next (s : St) : St := (cb s).2.

Lemma build_row_state j s : (build_row cb j s).2 = Nat.iter j next s.
Proof.
  revert s. induction j as [|j IH]; intros s; [done|]. simpl.
  assert (Hn : next s = (cb s).2) by done.
  destruct (cb s) as [a s1]. specialize (IH s1).
  destruct (build_row cb j s1) as [r s2]. simpl in *.
  by rewrite IH, <- Hn, Nat.iter_swap.
Qed.

Lemma build_row_lookup j s t :
  (t < j)%nat → (build_row cb j s).1 !! t = Some (cb (Nat.iter t next s)).1.
Proof.
  revert s t. induction j as [|j IH]; intros s t Ht; [lia|]. simpl.
  assert (Hn : next s = (cb s).2) by done.
  destruct (cb s) as [a s1] eqn:E.
  pose proof (IH s1) as IH1. destruct (build_row cb j s1) as [r s2]. simpl in *.
  destruct t as [|t]; simpl; [by rewrite E|].
  by rewrite IH1, <- Hn, Nat.iter_swap by lia.
Qed.

Lemma build_row_length j s : length (build_row cb j s).1 = j.
Proof.
  revert s. induction j as [|j IH]; intros s; [done|]. simpl.
  destruct (cb s) as [a s1]. specialize (IH s1).
  destruct (build_row cb j s1) as [r s2]. simpl in *. by rewrite IH.
Qed.

Lemma build_rows_spec i n s :
  length (build_rows cb i n s).1 = i ∧
  (build_rows cb i n s).2 = Nat.iter (i * n) next s ∧
  ∀ r, (r < i)%nat → (build_rows cb i n s).1 !! r = Some (build_row cb n (Nat.iter (r * n) next s)).1.
Proof.
  revert s. induction i as [|i IH]; intros s; [split_and!; [done|done|lia]|]. simpl.
  pose proof (build_row_state n s) as Hst.
  destruct (build_row cb n s) as [row s1] eqn:E. simpl in Hst. subst s1.
  destruct (IH (Nat.iter n next s)) as (Hl & Hs & Hr).
  destruct (build_rows cb i n _) as [rs s2]. simpl in *.
  split_and!; [by rewrite Hl| |].
  - by rewrite Hs, <- Nat.iter_add, Nat.add_comm.
  - intros [|r] Hlt; simpl; [by rewrite E|].
    rewrite Hr by lia. by rewrite <- Nat.iter_add, (Nat.add_comm (r * n)).
Qed.

Lemma create2DArray_square size s : square size (create2DArray size cb s).1.
Proof.
  unfold create2DArray. destruct (build_rows_spec (Z.to_nat size) (Z.to_nat size) s) as (Hl & _ & Hr).
  split; [done|]. apply Forall_lookup_2. intros r row Hrow.
  pose proof (lookup_lt_Some _ _ _ Hrow) as Hlt. rewrite Hl in Hlt.
  rewrite Hr in Hrow by done. invc Hrow. apply build_row_length.
Qed.

Lemma create2DArray_state size s :
  (create2DArray size cb s).2 = Nat.iter (Z.to_nat size * Z.to_nat size) next s.
Proof. apply build_rows_spec. Qed.

Lemma create2DArray_rd2 size s x y :
  in_range size x y →
  (create2DArray size cb s).1 @[x, y] =
    Some (cb (Nat.iter (Z.to_nat x * Z.to_nat size + Z.to_nat y) next s)).1.
Proof.
  intros [Hx Hy]. unfold rd2, create2DArray.
  rewrite (proj2 (Z.leb_le 0 x)), (proj2 (Z.leb_le 0 y)) by lia. simpl.
  destruct (build_rows_spec (Z.to_nat size) (Z.to_nat size) s) as (_ & _ & Hr).
  rewrite Hr by lia. simpl. rewrite build_row_lookup by lia.
  by rewrite <- Nat.iter_add, Nat.add_comm.
Qed.
End Create.

Lemma getTile_iter random w t k : Nat.iter t (λ k, (getTile random w k).2) k = (k + t)%nat.
Proof. induction t as [|t IH]; [simpl; lia|]. rewrite Nat.iter_succ, IH. simpl. lia. Qed.

Lemma const_iter {X} (c : X) t : Nat.iter t (λ u : unit, ((λ u : unit, (c, u)) u).2) tt = tt.
Proof. by destruct (Nat.iter _ _ _). Qed.

#[export] Hint Resolve create2DArray_square : grid.

Lemma inBounds_spec m x y : inBounds m x y = true ↔ in_range (size m) x y.
Proof.
  unfold inBounds, in_range.
  rewrite !andb_true_iff, !Z.leb_le, !Z.ltb_lt. tauto.
Qed.

Lemma create2DArray_const_rd2 {X} size (c : X) x y :
  in_range size x y → (create2DArray size (λ u : unit, (c, u)) tt).1 @[x, y] = Some c.
Proof. intros Hr. by rewrite create2DArray_rd2. Qed.

Lemma create2DArray_nonempty {St X} size (cb : St → X * St) s :
  0 < size → (create2DArray size cb s).1 ≠ [].
Proof.
  intros Hs E. pose proof (proj1 (create2DArray_square cb size s)) as Hl.
  rewrite E in Hl. simpl in Hl. lia.
Qed.

(** ** resetDistances, clearEnds, setUpMaze *)

Lemma resetDistances_spec m :
  0 < size m →
  ∃ m', resetDistances m = Ok m' ∧ size m' = size m ∧ wallFreq m' = wallFreq m ∧
        map m' = map m ∧ reset_fields (size m) (distances m') (explored m').
Proof.
  intros Hs. unfold resetDistances.
  pose proof (create2DArray_nonempty (size m) (λ u : unit, (false, u)) tt Hs) as Hne.
  pose proof (create2DArray_square (λ u : unit, (false, u)) (size m) tt) as Hsq.
  destruct (create2DArray (size m) (λ u : unit, (false, u)) tt).1 as [|row rows] eqn:E;
    [done|].
  eexists; split_and!; [done..|]. rewrite <- E.
  split_and!; eauto with grid. intros x y Hr.
  simpl.   rewrite create2DArray_const_rd2 by done.
  rewrite (rd2_wr2 (size m)); [|apply create2DArray_square|split; lia].
  split; [done|]. case_decide as Hxy; [by rewrite bool_decide_eq_true_2|].
  rewrite create2DArray_const_rd2 by done. by rewrite bool_decide_eq_false_2.
Qed.

Lemma resetDistances_error m :
  size m <= 0 → resetDistances m = Throw (mkMaze (size m) (wallFreq m) (map m) [] []).
Proof.
  intros Hs. unfold resetDistances, create2DArray.
  by replace (Z.to_nat (size m)) with 0%nat by lia.
Qed.

Lemma clearEnds_spec n g :
  square n g → 0 < n →
  ∃ g', clearEnds g = Some g' ∧ square n g' ∧
        ∀ x y, g' @[x, y] = if decide (is_end n x y) then Some Empty else g @[x, y].
Proof.
  intros Hsq Hn. pose proof (proj1 Hsq) as Hl. unfold clearEnds.
  rewrite Hl, Z2Nat.id by lia.
  destruct g as [|row rows]; [simpl in Hl; lia|].
  eexists; split_and!; [done|auto with grid|]. intros x y.
  rewrite (rd2_wr2 n); [|auto with grid|split; lia].
  rewrite (rd2_wr2 n); [|done|split; lia].
  unfold is_end. repeat case_decide; try done; intuition congruence.
Qed.

Lemma setUpMaze_tiles random size w k :
  square size (create2DArray size (getTile random w) k).1 ∧
  (create2DArray size (getTile random w) k).2 = (k + Z.to_nat size * Z.to_nat size)%nat ∧
  ∀ x y, in_range size x y →
    (create2DArray size (getTile random w) k).1 @[x, y] =
      Some (getTile random w (k + Z.to_nat x * Z.to_nat size + Z.to_nat y)).1.
Proof.
  split_and!; [apply create2DArray_square| |].
  - by rewrite create2DArray_state, getTile_iter.
  - intros x y Hr. by rewrite create2DArray_rd2, getTile_iter, Nat.add_assoc.
Qed.

Lemma setUpMaze_ok random size w m k :
  0 < size →
  ∃ m', setUpMaze random size w m k = Ok (m', (k + Z.to_nat size * Z.to_nat size)%nat) ∧
        fresh_maze random size w k m'.
Proof.
  intros Hs. unfold setUpMaze.
  destruct (setUpMaze_tiles random size w k) as (Hsq & Hk & Hrd).
  destruct (create2DArray size (getTile random w) k) as [tiles k'] eqn:Ec. simpl in *. subst k'.
  destruct (resetDistances_spec (mkMaze size w tiles (distances m) (explored m)) Hs)
    as (m1 & -> & Hsz & Hw & Hmap & Hreset). simpl in *.
  rewrite Hmap. destruct (clearEnds_spec size tiles Hsq Hs) as (g' & -> & Hsq' & Hg'). simpl.
  eexists; split; [done|].
  destruct Hreset as (Hd & He & Hcells).
  unfold fresh_maze, maze_shape. simpl. rewrite Hsz, Hw.
  split_and!; try done.
  intros x y Hr. rewrite Hg'. case_decide; [done|]. by apply Hrd.
Qed.

(** [C20] setUpMaze on a positive size builds a [size] x [size] maze:
    every cell but the two ends is a wall exactly when its Math.random
    draw (row-major order) is below [wallFreq], both ends are empty, all
    distances are Infinity and only the origin is explored; it consumes
    [size * size] draws. *)
Theorem setUpMaze_spec random size w m k :
  0 < size →
  ∃ m', setUpMaze random size w m k = Ok (m', (k + Z.to_nat size * Z.to_nat size)%nat) ∧
        fresh_maze random size w k m'.
Proof. apply setUpMaze_ok. Qed.

(** [C21] setUpMaze on a size that is zero or negative throws a
    TypeError ([explored[0][0] = true] on an empty array) and leaves a
    maze with that size and empty tile, distance and explored arrays; no
    random number is drawn. *)
Theorem setUpMaze_error random size w m k :
  size <= 0 → setUpMaze random size w m k = Throw (mkMaze size w [] [] [], k).
Proof.
  intros Hs. unfold setUpMaze, create2DArray.
  replace (Z.to_nat size) with 0%nat by lia. simpl.
  rewrite resetDistances_error by (simpl; lia). done.
Qed.

End Maze.
