(* ===== verification/Render.v ===== *)
(** What the page draws (src/main.js): the maze buffer of class Maze
    ([setFill], [drawTile], [resetBuffer], [draw], lines 202-240) and
    the tile geometry ([CANVASSIZE], [width] as [setUpMaze] sets it).  A
    drawing operation is the list of p5.js calls it makes, in order; the
    pixels themselves are p5's ([View] gives the buffer a state).  The
    theorems: [resetBuffer] draws exactly one square per cell, in the
    order of its loops, all inside the canvas; a pixel falls on the tile
    whose square contains it. *)

From S2P Require Import Prelude Grid.
From stdpp Require Import list_numbers.
From Stdlib Require Import QArith Qround String.
Open Scope Z_scope.
Open Scope grid_scope.

Module Render.
Import Maze.

(** [CANVASSIZE]: the canvas and the maze buffer are 400 x 400 pixels. *)
Definition CANVASSIZE : Q := 400.

(** [this.width = CANVASSIZE/size], the width in pixels of a tile. *)
Definition width (m : Maze.maze) : Q := (CANVASSIZE / inject_Z (size m))%Q.

(** The p5.js calls the drawing code makes. *)
Inductive cmd :=
| Fill (r g b : Z)          (* fill(r, g, b) *)
| FillGray (v : Z)          (* fill(v) *)
| StrokeWeight (w : Z)      (* strokeWeight(w) *)
| Rect (x y w h : Q)        (* rect(x, y, w, h) *)
| Text (s : string) (x y : Q)
| Image (x y : Q).          (* image(mazeBuffer, x, y) *)

(** [Maze.setFill(tile)]: green, brown or blue for the codes 0, 1 and
    2; no call for any other value. *)
Definition setFill (t : option tile) : list cmd :=
  match t with
  | Some Empty => [Fill 68 226 91]
  | Some Wall => [Fill 80 41 0]
  | Some Slow => [Fill 40 53 147]
  | _ => []
  end.

(** [Maze.drawTile(x, y, tile)]. *)
Definition drawTile (m : Maze.maze) (x y : Z) (t : option tile) : list cmd :=
  setFill t ++ [Rect (inject_Z x * width m) (inject_Z y * width m) (width m) (width m)].

(** [Maze.resetBuffer()]: every tile, row by row, then the labels A and
    B of the ends on mazes of at most 30 x 30. *)
Definition resetBuffer (m : Maze.maze) : list cmd :=
  [StrokeWeight 1] ++
  mjoin ((λ i, mjoin ((λ j, drawTile m i j ((map m) @[i, j])) <$> seqZ 0 (size m))) <$> seqZ 0 (size m)) ++
  (if size m <=? 30 then
     [FillGray 0; Text "A" (width m / 2) (width m / 2);
      Text "B" (CANVASSIZE - width m / 2) (CANVASSIZE - width m / 2)]
   else []).

(** [Maze.draw()]: copy the buffer onto the canvas. *)
Definition draw (m : Maze.maze) : list cmd := [Image 0 0].

(** The rectangles of a list of calls. *)
Definition rects (cs : list cmd) : list (Q * Q * Q * Q) :=
  omap (λ c, match c with Rect x y w h => Some (x, y, w, h) | _ => None end) cs.

(** The square of the tile (x, y) and the pixels a rectangle covers
    ([rect] is inclusive on its top-left edges). *)
Definition tile_rect (m : Maze.maze) (x y : Z) : Q * Q * Q * Q :=
  ((inject_Z x * width m)%Q, (inject_Z y * width m)%Q, width m, width m).

Definition inside (r : Q * Q * Q * Q) (px py : Q) : Prop :=
  let '(x, y, w, h) := r in (x <= px < x + w)%Q ∧ (y <= py < y + h)%Q.

(** ** Rational arithmetic of the tile geometry *)

Lemma tile_rect_size m m' : size m' = size m → tile_rect m' = tile_rect m.
Proof. intros E. unfold tile_rect, width. by rewrite E. Qed.

Lemma width_pos m : 0 < size m → (0 < width m)%Q.
Proof.
  intros Hs. unfold width. apply Qlt_shift_div_l.
  - change 0%Q with (inject_Z 0). by rewrite <- Zlt_Qlt.
  - rewrite Qmult_0_l. reflexivity.
Qed.

Lemma width_size m : 0 < size m → (inject_Z (size m) * width m == CANVASSIZE)%Q.
Proof.
  intros Hs. unfold width. rewrite Qmult_div_r; [reflexivity|].
  intros E. unfold Qeq in E. simpl in E. lia.
Qed.

(** [Math.floor q = z] exactly when [z <= q < z + 1]. *)
Lemma Qfloor_spec q z : Qfloor q = z ↔ (inject_Z z <= q)%Q ∧ (q < inject_Z (z + 1))%Q.
Proof.
  split.
  - intros <-. split; [apply Qfloor_le|apply Qlt_floor].
  - intros [H1 H2]. apply Z.le_antisymm.
    + assert (Qfloor q < z + 1); [|lia].
      rewrite Zlt_Qlt. eapply Qle_lt_trans; [apply Qfloor_le|exact H2].
    + rewrite <- (Qfloor_Z z). by apply Qfloor_resp_le.
Qed.

(** The tile [x] is drawn on the pixels [x * width <= p < x * width + width]. *)
Lemma floor_div_tile (w p : Q) (x : Z) :
  (0 < w)%Q → Qfloor (p / w) = x ↔ (inject_Z x * w <= p)%Q ∧ (p < inject_Z x * w + w)%Q.
Proof.
  intros Hw. rewrite Qfloor_spec, inject_Z_plus.
  assert (Hpw : (p / w * w == p)%Q)
    by (field; intros E; rewrite E in Hw; apply (Qlt_irrefl 0 Hw)).
  assert (Hx1 : ((inject_Z x + inject_Z 1) * w == inject_Z x * w + w)%Q) by ring.
  split; intros [H1 H2]; split.
  - apply (Qmult_le_r _ _ w Hw) in H1. by rewrite Hpw in H1.
  - apply (Qmult_lt_r _ _ w Hw) in H2. by rewrite Hpw, Hx1 in H2.
  - by apply Qle_shift_div_l.
  - apply Qlt_shift_div_r; [done|]. by rewrite Hx1.
Qed.

(** A tile of the board lies inside the canvas. *)
Lemma tile_in_canvas m x :
  0 < size m → 0 <= x < size m →
  (0 <= inject_Z x * width m)%Q ∧ (inject_Z x * width m + width m <= CANVASSIZE)%Q.
Proof.
  intros Hs Hx. pose proof (width_pos m Hs) as Hw. split.
  - apply Qmult_le_0_compat; [|by apply Qlt_le_weak].
    change 0%Q with (inject_Z 0). rewrite <- Zle_Qle. lia.
  - rewrite <- (width_size m Hs).
    assert (E : (inject_Z x * width m + width m == inject_Z (x + 1) * width m)%Q)
      by (rewrite inject_Z_plus; ring).
    rewrite E.
    apply Qmult_le_r; [done|]. rewrite <- Zle_Qle. lia.
Qed.

(** A pixel of the canvas falls on a tile of the board. *)
Lemma floor_on_board m p :
  0 < size m → (0 <= p)%Q → (p < CANVASSIZE)%Q → 0 <= Qfloor (p / width m)%Q < size m.
Proof.
  intros Hn H0 H1. pose proof (width_pos m Hn) as Hw. split.
  - change 0 with (Qfloor 0). apply Qfloor_resp_le.
    apply Qle_shift_div_l; [exact Hw|]. by rewrite Qmult_0_l.
  - rewrite Zlt_Qlt. eapply Qle_lt_trans; [apply Qfloor_le|].
    apply Qlt_shift_div_r; [exact Hw|]. by rewrite (width_size m Hn).
Qed.

(** The pixel (px, py) falls on the tile (x, y) exactly when it lies in
    the tile's square. *)
Lemma floor_inside m px py x y :
  0 < size m →
  Qfloor (px / width m)%Q = x ∧ Qfloor (py / width m)%Q = y ↔ inside (tile_rect m x y) px py.
Proof.
  intros Hn. pose proof (width_pos m Hn) as Hw. unfold inside, tile_rect.
  rewrite !(floor_div_tile (width m) _ _ Hw). done.
Qed.

(** ** The calls of [resetBuffer] *)

(** The labels [resetBuffer] writes after the tiles. *)
Definition labels (m : Maze.maze) : list cmd :=
  if size m <=? 30 then
    [FillGray 0; Text "A" (width m / 2) (width m / 2);
     Text "B" (CANVASSIZE - width m / 2) (CANVASSIZE - width m / 2)]
  else [].

Lemma join_fmap_join {A B} (f : A → list B) (ls : list (list A)) :
  mjoin (f <$> mjoin ls) = mjoin ((λ l, mjoin (f <$> l)) <$> ls).
Proof. induction ls as [|l ls IH]; [done|]. simpl. by rewrite fmap_app, join_app, IH. Qed.

(** The two loops of [resetBuffer] draw the tiles of [cells] in order. *)
Lemma resetBuffer_cells m :
  resetBuffer m =
    [StrokeWeight 1] ++ mjoin ((λ c, drawTile m c.1 c.2 ((map m) @[c.1, c.2])) <$> cells (size m)) ++ labels m.
Proof.
  unfold resetBuffer, cells, labels. f_equal. f_equal.
  rewrite join_fmap_join, <- list_fmap_compose. f_equal. apply list_fmap_ext. intros i x _. simpl.
  by rewrite <- list_fmap_compose.
Qed.

Lemma rects_app l1 l2 : rects (l1 ++ l2) = rects l1 ++ rects l2.
Proof. apply omap_app. Qed.

Lemma rects_join ls : rects (mjoin ls) = mjoin (rects <$> ls).
Proof. induction ls as [|l ls IH]; [done|]. simpl. by rewrite rects_app, IH. Qed.

Lemma join_singletons {A B} (f : A → list B) (g : A → B) (l : list A) :
  (∀ x, f x = [g x]) → mjoin (f <$> l) = g <$> l.
Proof. intros Hf. induction l as [|x l IH]; [done|]. change (f x ++ mjoin (f <$> l) = g x :: (g <$> l)). by rewrite Hf, IH. Qed.

Lemma rects_drawTile m x y t : rects (drawTile m x y t) = [tile_rect m x y].
Proof. by destruct t as [[]|]. Qed.

(** The rectangles [resetBuffer] draws, one per cell. *)
Lemma rects_resetBuffer m :
  rects (resetBuffer m) = (λ c, tile_rect m c.1 c.2) <$> cells (size m).
Proof.
  rewrite resetBuffer_cells, !rects_app, rects_join.
  replace (rects (labels m)) with (@nil (Q * Q * Q * Q)) by (unfold labels; by destruct (size m <=? 30)).
  rewrite app_nil_r, <- list_fmap_compose. simpl. apply join_singletons. intros c. apply rects_drawTile.
Qed.

Lemma elem_rects_resetBuffer m r :
  r ∈ rects (resetBuffer m) ↔ ∃ x y, in_range (size m) x y ∧ r = tile_rect m x y.
Proof.
  rewrite rects_resetBuffer, list_elem_of_fmap. split.
  - intros ([x y] & -> & Hc). apply elem_cells in Hc. eauto.
  - intros (x & y & Hxy & ->). exists (x, y). split; [done|]. by apply elem_cells.
Qed.

(** [C30] [resetBuffer()] draws one square per cell of the board and no
    other rectangle: the rectangles it draws are exactly the squares of
    side [width] at ([x * width], [y * width]) for the cells (x, y). *)
Theorem resetBuffer_one_square_per_cell m r :
  r ∈ rects (resetBuffer m) ↔ ∃ x y, in_range (size m) x y ∧ r = tile_rect m x y.
Proof. apply elem_rects_resetBuffer. Qed.

(** [C31] Every rectangle [resetBuffer()] draws lies inside the 400 x 400
    buffer. *)
Theorem resetBuffer_in_canvas m x y w h :
  0 < size m → (x, y, w, h) ∈ rects (resetBuffer m) →
  (0 <= x)%Q ∧ (x + w <= CANVASSIZE)%Q ∧ (0 <= y)%Q ∧ (y + h <= CANVASSIZE)%Q.
Proof.
  intros Hs Hr. apply elem_rects_resetBuffer in Hr as (x' & y' & [Hx Hy] & E).
  unfold tile_rect in E. simplify_eq.
  destruct (tile_in_canvas m x' Hs Hx), (tile_in_canvas m y' Hs Hy). done.
Qed.

End Render.
