(* ===== verification/Queue.v ===== *)
(** Classes [Queue] and [Node] of src/main.js (lines 261-288).  The
    interface [FifoQueue] (operations) with [FifoLaws] (their contract)
    states what the breadth-first search relies on: elements leave in the
    order they entered.  The JS queue, an array with [push] at the tail
    and [shift] at the head, is an instance of it. *)

From S2P Require Import Prelude Grid.
Open Scope Z_scope.

Module Queue.

(** The operations of a first-in first-out queue, with the abstract view
    [q_elems] (front first). *)
Class FifoQueue (Q : Type → Type) := {
  q_new {A} : list A → Q A;
  q_push {A} : A → Q A → Q A;
  q_pop {A} : Q A → option A * Q A;
  q_isEmpty {A} : Q A → bool;
  q_elems {A} : Q A → list A
}.

(** The contract: [push] appends at the back, [pop] removes the front
    (and returns [undefined], leaving the queue as it is, when empty). *)
Class FifoLaws (Q : Type → Type) `{FifoQueue Q} := {
  q_new_elems {A} (l : list A) : q_elems (q_new l) = l;
  q_push_elems {A} (x : A) q : q_elems (q_push x q) = q_elems q ++ [x];
  q_pop_cons {A} (q : Q A) x l :
    q_elems q = x :: l → (q_pop q).1 = Some x ∧ q_elems (q_pop q).2 = l;
  q_pop_nil {A} (q : Q A) : q_elems q = [] → (q_pop q).1 = None ∧ q_elems (q_pop q).2 = [];
  q_isEmpty_spec {A} (q : Q A) : q_isEmpty q = true ↔ q_elems q = []
}.

(** [class Queue]: the array [this.elements]. *)
Record queue (A : Type) := mkQueue { elements : list A }.
Arguments mkQueue {A}.
Arguments elements {A}.

(** [constructor(...elements)]. *)
Definition new {A} (l : list A) : queue A := mkQueue l.

(** [push(element)]: [this.elements.push(element)]. *)
Definition push {A} (x : A) (q : queue A) : queue A := mkQueue (elements q ++ [x]).

(** [pop()]: [this.elements.shift()]. *)
Definition pop {A} (q : queue A) : option A * queue A :=
  match elements q with
  | [] => (None, q)
  | x :: l => (Some x, mkQueue l)
  end.

(** [isEmpty()]: [this.elements.length === 0]. *)
Definition isEmpty {A} (q : queue A) : bool := Nat.eqb (length (elements q)) 0.

#[export] Instance queue_fifo : FifoQueue queue :=
  {| q_new := @new; q_push := @push; q_pop := @pop; q_isEmpty := @isEmpty;
     q_elems := @elements |}.

(** [class Node]: a cell and the distance it was discovered with. *)
Record node := mkNode { nx : Z; ny : Z; ndistance : jsnum }.

(** Pop everything, front first ([fuel] pops at most). *)
Fixpoint drain {Q} `{FifoQueue Q} {A} (fuel : nat) (q : Q A) : list A :=
  match fuel with
  | O => []
  | S f => match q_pop q with
           | (Some x, q') => x :: drain f q'
           | (None, _) => []
           end
  end.

#[export] Instance queue_fifo_laws : FifoLaws queue.
Proof.
  split; intros A; simpl.
  - done.
  - done.
  - intros [l] x l' E. simpl in E. by subst l.
  - intros [l] E. simpl in E. by subst l.
  - intros [l]. unfold isEmpty. simpl. destruct l; simpl; split; done.
Qed.

Section Fifo.
Context `{FifoLaws Q} {A : Type}.

Lemma drain_elems (q : Q A) fuel :
  (length (q_elems q) ≤ fuel)%nat → drain fuel q = q_elems q.
Proof.
  revert q. induction fuel as [|f IH]; intros q Hlen; simpl.
  - destruct (q_elems q); simpl in *; [done|lia].
  - destruct (q_elems q) as [|x l] eqn:E.
    + destruct (q_pop_nil q E) as [Hp _]. by destruct (q_pop q) as [[]]; simpl in *.
    + destruct (q_pop_cons q x l E) as [Hp Hq].
      destruct (q_pop q) as [o q']; simpl in *. subst o.
      rewrite IH; [by rewrite Hq|]. rewrite Hq. simpl in Hlen. lia.
Qed.

Lemma elems_pushes (xs : list A) (q : Q A) :
  q_elems (foldl (λ q x, q_push x q) q xs) = q_elems q ++ xs.
Proof.
  revert q. induction xs as [|x xs IH]; intros q; simpl; [by rewrite app_nil_r|].
  rewrite IH, q_push_elems. by rewrite <- app_assoc.
Qed.
End Fifo.

End Queue.
