(* ===== verification/PathViewer.v ===== *)
(** Class [PathViewer] of src/main.js (lines 470-509): the walk from the
    goal back to the origin over the distance field.  [draw_loop] is the
    [while (true)] loop with fuel; [draw] runs it with [size * size]
    iterations, which the theorems show is enough.  The contract the
    walk needs from the solver is [descending]: every finalized cell but
    the origin has an in-bounds neighbour with a smaller distance. *)

From S2P Require Import Prelude Grid.
Open Scope Z_scope.
Open Scope grid_scope.

Module PathViewer.
Import Maze.

(** [potentialNext]: +x, -x, +y, -y. *)
Definition neighbours (x y : Z) : list (Z * Z) := [(x + 1, y); (x - 1, y); (x, y + 1); (x, y - 1)].

(** The [for] loop over [potentialNext]: keep the first neighbour whose
    distance is strictly below the best so far. *)
Fixpoint pickBest (m : maze) (bestDistance : jsnum) (bestCoord : option (Z * Z))
    (ps : list (Z * Z)) : jsnum * option (Z * Z) :=
  match ps with
  | [] => (bestDistance, bestCoord)
  | (nextX, nextY) :: ps' =>
      if inBounds m nextX nextY && (dist_at m nextX nextY <js bestDistance)
      then pickBest m (dist_at m nextX nextY) (Some (nextX, nextY)) ps'
      else pickBest m bestDistance bestCoord ps'
  end.

(** How the loop ends: [return] at the origin, a TypeError on
    [bestCoord.x] while [bestCoord] is still [undefined], or still
    running when the fuel is spent. *)
Inductive status := Returned | Threw | Running.

(** The [while (true)] loop from cell (x, y): the cells it paints yellow
    and how it ends.  [var bestCoord;] is function-scoped: the
    declaration does not reset it, so an iteration where no neighbour
    qualifies keeps the [bestCoord] of the previous one ([undefined]
    only in the first). *)
Fixpoint draw_loop (fuel : nat) (m : maze) (x y : Z) (bestCoord : option (Z * Z))
    : list (Z * Z) * status :=
  match fuel with
  | O => ([], Running)
  | S f =>
      if (x =? 0) && (y =? 0) then ([(x, y)], Returned)
      else match (pickBest m Inf bestCoord (neighbours x y)).2 with
           | None => ([(x, y)], Threw)
           | Some (x', y') => let '(p, st) := draw_loop f m x' y' (Some (x', y')) in ((x, y) :: p, st)
           end
  end.

(** [draw()]: start at (size-1, size-1) with [bestCoord] undefined. *)
Definition draw (m : maze) : list (Z * Z) * status :=
  draw_loop (Z.to_nat (size m) * Z.to_nat (size m)) m (size m - 1) (size m - 1) None.

(** The contract with the solver. *)
Definition descending (m : maze) : Prop :=
  ∀ x y k, in_range (size m) x y → dist_at m x y = Fin k → (x, y) ≠ (0, 0) →
    ∃ x' y' k', (x', y') ∈ neighbours x y ∧ in_range (size m) x' y' ∧
                dist_at m x' y' = Fin k' ∧ (k' < k)%nat.

(** A walk from [a]: each cell is an in-bounds neighbour of the previous
    one with a strictly smaller distance. *)
Fixpoint chain (m : maze) (a : Z * Z) (p : list (Z * Z)) : Prop :=
  match p with
  | [] => True
  | b :: p' =>
      b ∈ neighbours a.1 a.2 ∧ in_range (size m) b.1 b.2 ∧
      (dist_at m b.1 b.2 <js dist_at m a.1 a.2) = true ∧ chain m b p'
  end.

(** What the loop keeps: either nothing yet (Infinity, and the
    [bestCoord] it started with) or an in-bounds candidate of [S] and its
    finite distance. *)
Definition best_ok (m : maze) (S : list (Z * Z)) (c0 : option (Z * Z)) (b : jsnum) (c : option (Z * Z)) : Prop :=
  (b = Inf ∧ c = c0) ∨
  (∃ x y k, c = Some (x, y) ∧ b = Fin k ∧ (x, y) ∈ S ∧ in_range (size m) x y ∧
            dist_at m x y = Fin k).


(** ** Selecting the best neighbour *)

Lemma js_lt_trans a b c : (a <js b) = true → (b <js c) = true → (a <js c) = true.
Proof.
  destruct a, b, c; simpl; try done. rewrite !Nat.ltb_lt. lia.
Qed.

Lemma js_lt_irrefl a : (a <js a) = false.
Proof. destruct a; simpl; try done. apply Nat.ltb_irrefl. Qed.

Section Pick.
Context (m : maze).

Lemma pickBest_ok S c0 b c ps :
  best_ok m S c0 b c → ps ⊆ S →
  best_ok m S c0 (pickBest m b c ps).1 (pickBest m b c ps).2 ∧
  ((pickBest m b c ps).1 = b ∨ ((pickBest m b c ps).1 <js b) = true) ∧
  ∀ x y, (x, y) ∈ ps → in_range (size m) x y →
         (dist_at m x y <js (pickBest m b c ps).1) = false.
Proof.
  revert b c. induction ps as [|[x y] ps IH]; intros b c Hok Hsub; simpl.
  { split_and!; [done|by left|intros ?? Hin; by apply elem_of_nil in Hin]. }
  assert (Hps : ps ⊆ S) by (intros q Hq; apply Hsub; by right).
  destruct (inBounds m x y && (dist_at m x y <js b)) eqn:E.
  - apply andb_true_iff in E as [Hin Hlt]. apply inBounds_spec in Hin.
    destruct (IH (dist_at m x y) (Some (x, y))) as (Hok' & Hdec & Hmin); [|done|].
    { right. destruct (dist_at m x y) as [k| |] eqn:Ed;
        [|destruct Hok as [[-> _]|(?&?&?&?&->&?)]; done|done].
      exists x, y, k. split_and!; try done. apply Hsub. by left. }
    split_and!; [done| |].
    + right. destruct Hdec as [-> | Hd]; [done|]. by eapply js_lt_trans.
    + intros x' y' Hx' Hr. apply elem_of_cons in Hx' as [[= -> ->]|Hx'].
      * destruct Hdec as [-> | Hd]; [apply js_lt_irrefl|].
        destruct (dist_at m x y <js (pickBest _ _ _ _).1) eqn:Hc'; [|done].
        pose proof (js_lt_trans _ _ _ Hc' Hd) as Hself. by rewrite js_lt_irrefl in Hself.
      * by apply Hmin.
  - destruct (IH b c) as (Hok' & Hdec & Hmin); [done|done|].
    split_and!; [done|done|].
    intros x' y' Hx' Hr. apply elem_of_cons in Hx' as [[= -> ->]|Hx']; [|by apply Hmin].
    apply andb_false_iff in E as [E|E]; [apply not_true_iff_false in E; by rewrite inBounds_spec in E|].
    destruct Hdec as [-> | Hd]; [done|].
    destruct (dist_at m x y <js (pickBest _ _ _ _).1) eqn:Hc; [|done].
    pose proof (js_lt_trans _ _ _ Hc Hd). congruence.
Qed.
End Pick.

(** When some in-bounds neighbour is below [Fin k], the loop picks one
    that is below [Fin k] too. *)
Lemma pickBest_descends m x y k x0 y0 k0 c0 :
  (x0, y0) ∈ neighbours x y → in_range (size m) x0 y0 → dist_at m x0 y0 = Fin k0 → (k0 < k)%nat →
  ∃ x' y', (pickBest m Inf c0 (neighbours x y)).2 = Some (x', y') ∧
           (x', y') ∈ neighbours x y ∧ in_range (size m) x' y' ∧
           (dist_at m x' y' <js Fin k) = true.
Proof.
  intros Hn Hr Hd Hlt.
  destruct (pickBest_ok m (neighbours x y) c0 Inf c0 (neighbours x y)) as (Hok & _ & Hmin);
    [by left|done|].
  specialize (Hmin x0 y0 Hn Hr). rewrite Hd in Hmin.
  destruct Hok as [[Hb _]|(x' & y' & j & Hc & Hb & Hin & Hr' & Hd')]; rewrite Hb in Hmin; [done|].
  exists x', y'. split_and!; try done. rewrite Hd'. simpl in *.
  apply Nat.ltb_ge in Hmin. apply Nat.ltb_lt. lia.
Qed.

Lemma chain_below m a p : chain m a p → ∀ b, b ∈ p → (dist_at m b.1 b.2 <js dist_at m a.1 a.2) = true.
Proof.
  revert a. induction p as [|c p IH]; intros a Hc b Hb; [by apply elem_of_nil in Hb|].
  destruct Hc as (_ & _ & Hlt & Hc). apply elem_of_cons in Hb as [->|Hb]; [done|].
  eapply js_lt_trans; [by apply (IH c)|done].
Qed.

Lemma chain_nodup m a p : chain m a p → NoDup (a :: p).
Proof.
  revert a. induction p as [|c p IH]; intros a Hc; [constructor; [apply not_elem_of_nil|constructor]|].
  constructor; [|apply IH, Hc].
  intros Ha. pose proof (chain_below m a (c :: p) Hc a Ha) as Hself.
  by rewrite js_lt_irrefl in Hself.
Qed.

Lemma chain_in_range m a p : chain m a p → Forall (λ c, in_range (size m) c.1 c.2) p.
Proof.
  revert a. induction p as [|c p IH]; intros a Hc; constructor; [apply Hc|apply (IH c), Hc].
Qed.

(** The loop from a finalized cell never throws, paints a walk from that
    cell, ends at the origin when it returns, and paints [fuel] cells
    other than the origin when it is cut off. *)
Lemma draw_loop_spec m fuel x y k c0 :
  descending m → in_range (size m) x y → dist_at m x y = Fin k →
  (draw_loop fuel m x y c0).2 ≠ Threw ∧
  match (draw_loop fuel m x y c0).1 with
  | [] => fuel = 0%nat
  | a :: p => a = (x, y) ∧ chain m a p
  end ∧
  ((draw_loop fuel m x y c0).2 = Returned → list.last (draw_loop fuel m x y c0).1 = Some (0, 0)) ∧
  ((draw_loop fuel m x y c0).2 = Running →
     length (draw_loop fuel m x y c0).1 = fuel ∧ (0, 0) ∉ (draw_loop fuel m x y c0).1).
Proof.
  intros Hdesc. revert x y k c0. induction fuel as [|f IH]; intros x y k c0 Hr Hd; cbn [draw_loop].
  { split_and!; try done. intros _. split; [done|apply not_elem_of_nil]. }
  destruct ((x =? 0) && (y =? 0)) eqn:Ho.
  { apply andb_true_iff in Ho as [Hx Hy]. apply Z.eqb_eq in Hx, Hy. subst. simpl.
    split_and!; done. }
  assert (Hne : (x, y) ≠ (0, 0)).
  { intros [= -> ->]. by rewrite !Z.eqb_refl in Ho. }
  destruct (Hdesc x y k Hr Hd Hne) as (x0 & y0 & k0 & Hn & Hr0 & Hd0 & Hlt).
  destruct (pickBest_descends m x y k x0 y0 k0 c0 Hn Hr0 Hd0 Hlt) as (x' & y' & -> & Hn' & Hr' & Hlt').
  destruct (dist_at m x' y') as [j| |] eqn:Hd'; try done.
  destruct (IH x' y' j (Some (x', y')) Hr' Hd') as (Hnt & Hshape & Hret & Hrun).
  destruct (draw_loop f m x' y' _) as [p st]. simpl in *.
  split_and!; [done|done| | |].
  - destruct p as [|a p]; [done|]. destruct Hshape as [-> Hc].
    simpl. rewrite Hd, Hd'. by split_and!.
  - intros ->. specialize (Hret eq_refl). destruct p as [|a p]; [done|]. done.
  - intros ->. destruct (Hrun eq_refl) as [Hl Hno]. split; [by rewrite Hl|].
    intros Hin. apply elem_of_cons in Hin as [Hin|Hin]; [congruence|done].
Qed.

(** With [size * size] iterations the loop cannot be cut off: the walk
    visits distinct cells other than the origin before it returns. *)
Lemma draw_returns_path m k :
  0 < size m → descending m → dist_at m (size m - 1) (size m - 1) = Fin k →
  ∃ p, draw m = ((size m - 1, size m - 1) :: p, Returned) ∧
       chain m (size m - 1, size m - 1) p ∧
       list.last ((size m - 1, size m - 1) :: p) = Some (0, 0).
Proof.
  intros Hs Hdesc Hd. unfold draw.
  assert (Hr : in_range (size m) (size m - 1) (size m - 1)) by (split; lia).
  destruct (draw_loop_spec m (Z.to_nat (size m) * Z.to_nat (size m)) _ _ k None Hdesc Hr Hd)
    as (Hnt & Hshape & Hret & Hrun).
  destruct (draw_loop _ m _ _ _) as [[|a p] st]; simpl in *; [nia|].
  destruct Hshape as [-> Hc].
  destruct st; [|done|].
  - exists p. split_and!; [done|done|by apply Hret].
  - exfalso. destruct (Hrun eq_refl) as [Hl Hno].
    assert (Hnd : NoDup ((0, 0) :: (size m - 1, size m - 1) :: p)).
    { constructor; [done|]. by eapply chain_nodup. }
    apply (nodup_cells_length (size m)) in Hnd.
    + simpl in Hnd, Hl. lia.
    + repeat constructor; simpl; try lia. by eapply chain_in_range.
Qed.

(** [C5] Path reconstruction is correct: on a maze whose goal has a
    finite distance and whose distance field satisfies the solver's
    contract [descending], [draw()] returns normally after painting a walk
    that starts at the goal, moves to an in-bounds neighbour with a
    strictly smaller distance at every step, and ends at the origin; the
    [size * size] iterations of the model are enough. *)
Theorem draw_correct m k :
  0 < size m → descending m → dist_at m (size m - 1) (size m - 1) = Fin k →
  ∃ p, draw m = ((size m - 1, size m - 1) :: p, Returned) ∧
       chain m (size m - 1, size m - 1) p ∧
       list.last ((size m - 1, size m - 1) :: p) = Some (0, 0).
Proof. apply draw_returns_path. Qed.

(** With a [bestCoord] already set, no iteration can find it undefined. *)
Lemma pickBest_some m b c ps : (pickBest m b (Some c) ps).2 ≠ None.
Proof.
  revert b c. induction ps as [|[x y] ps IH]; intros b c; simpl; [done|].
  by destruct (_ && _).
Qed.

Lemma draw_loop_no_throw fuel m x y c : (draw_loop fuel m x y (Some c)).2 ≠ Threw.
Proof.
  revert x y c. induction fuel as [|f IH]; intros x y c; cbn [draw_loop]; [done|].
  destruct (_ && _); [done|]. pose proof (pickBest_some m Inf c (neighbours x y)) as Hs.
  destruct (pickBest _ _ _ _) as [b [[x' y']|]]; [|done]. simpl.
  specialize (IH x' y' (x', y')). destruct (draw_loop _ _ _ _ _). done.
Qed.

(** Nothing picked from Infinity with [bestCoord] undefined: no in-bounds
    neighbour has a distance below Infinity. *)
Lemma pickBest_none m ps :
  (pickBest m Inf None ps).2 = None →
  Forall (λ c, inBounds m c.1 c.2 = false ∨ (dist_at m c.1 c.2 <js Inf) = false) ps.
Proof.
  intros Hn. destruct (pickBest_ok m ps None Inf None ps) as (Hok & Hdec & Hmin); [by left|done|].
  destruct Hok as [[Hb _]|(? & ? & ? & Hc & _)]; [|congruence].
  apply Forall_forall. intros [x y] Hin. destruct (inBounds m x y) eqn:E; [right|by left].
  rewrite <- Hb. apply Hmin; [done|]. by apply inBounds_spec.
Qed.

(** [C33] [draw()] throws only on the goal: because [bestCoord] is a
    function-scoped [var], the TypeError on [bestCoord.x] happens only
    in the first iteration, when no in-bounds neighbour of the goal has
    a distance below Infinity; a cell without a smaller neighbour later
    on keeps the previous [bestCoord] and the loop spins on it. *)
Theorem draw_throws_only_at_goal m p :
  draw m = (p, Threw) →
  p = [(size m - 1, size m - 1)] ∧
  Forall (λ c, inBounds m c.1 c.2 = false ∨ (dist_at m c.1 c.2 <js Inf) = false)
    (neighbours (size m - 1) (size m - 1)).
Proof.
  unfold draw. destruct (Z.to_nat (size m) * Z.to_nat (size m))%nat as [|f]; [done|]. cbn [draw_loop].
  destruct (_ && _); [done|].
  destruct (pickBest m Inf None _) as [b [[x' y']|]] eqn:Hp; simpl.
  - pose proof (draw_loop_no_throw f m x' y' (x', y')) as Hnt.
    destruct (draw_loop _ _ _ _ _) as [q st]. simpl in Hnt. by intros [= _ ->].
  - intros [= <-]. split; [done|]. apply pickBest_none. by rewrite Hp.
Qed.

End PathViewer.
