(* ===== verification/Solver.v ===== *)
(** Class [MazeSolver] of src/main.js (lines 293-410): the breadth-first
    search, one tile per [step()], with [skip()] (drain), [solveLoop()]
    (the timer tick), [play()], [pause()] and [reset()].  The state
    [solver] holds the maze the solver shares with the path viewer and
    the UI, the queue, the [solving] flag and the log of what the solver
    and the path viewer paint on the canvas. *)

From S2P Require Import Prelude Grid Queue PathViewer.
Open Scope Z_scope.
Open Scope grid_scope.

Module Solver.
Import Maze Queue.

(** What is painted: a cell darkened by [step()], a cell of the path
    painted yellow by [PathViewer.draw()], and the console error of an
    unsolvable maze. *)
Inductive event := Visited (x y : Z) | PathCell (x y : Z) | NoSolution.

Record solver := mkSolver {
  maze : Maze.maze;
  queue : Queue.queue node;
  solving : bool;
  canvas : list event
}.

Definition set_maze (m : Maze.maze) (s : solver) : solver :=
  mkSolver m (queue s) (solving s) (canvas s).

(** [resetQueue()]: [new Queue(new Node(0, 0, 0))]. *)
Definition resetQueue (s : solver) : solver :=
  mkSolver (maze s) (Queue.new [mkNode 0 0 (Fin 0)]) (solving s) (canvas s).

(** [constructor(maze, pathViewer)]. *)
Definition newSolver (m : Maze.maze) : solver :=
  resetQueue (mkSolver m (Queue.new []) false []).

(** [reset()]: [maze.resetDistances()], then [resetQueue()]. *)
Definition reset (s : solver) : outcome solver :=
  and_then (resetDistances (maze s)) (λ m, Ok (resetQueue (set_maze m s))) (λ m, set_maze m s).

(** [testTileFree(x, y)]: [map[x][y] !== 1 && explored[x][y] === false]. *)
Definition testTileFree (m : Maze.maze) (x y : Z) : bool :=
  bool_decide ((map m) @[x, y] ≠ Some Wall) && bool_decide ((explored m) @[x, y] = Some false).

(** [getNeighbors(x, y)]: the in-bounds free cells among +x, -x, +y, -y. *)
Definition getNeighbors (m : Maze.maze) (x y : Z) : list (Z * Z) :=
  List.filter (λ p, inBounds m p.1 p.2 && testTileFree m p.1 p.2) (PathViewer.neighbours x y).

(** The assignments of [cost] in the [for] loop of [step()]: 1 for
    [map[x][y] === 0], 2 for [=== 2], and no assignment otherwise. *)
Definition tileCost (t : option tile) : option nat :=
  match t with
  | Some Empty => Some 1%nat
  | Some Slow => Some 2%nat
  | _ => None
  end.

(** One iteration of the [for] loop of [step()]: [cost] is a
    function-scoped [var], so a tile with neither code keeps the cost of
    the previous iteration ([undefined] before the first); then
    [explored[x][y] = true] and push [new Node(x, y, node.distance +
    cost)]. *)
Definition visit (d : jsnum) (st : Maze.maze * Queue.queue node * option nat) (p : Z * Z)
    : Maze.maze * Queue.queue node * option nat :=
  let '(m, q, cost) := st in
  let '(x, y) := p in
  let cost' := match tileCost ((map m) @[x, y]) with Some c => Some c | None => cost end in
  (mkMaze (size m) (wallFreq m) (map m) (distances m) (wr2 (explored m) x y true),
   Queue.push (mkNode x y (js_add d cost')) q, cost').

(** [step()]: pop the head node (popping an empty queue yields
    [undefined] and [node.x] throws), commit its distance, paint it, and
    enqueue its free neighbours. *)
Definition step (s : solver) : outcome solver :=
  match Queue.pop (queue s) with
  | (None, _) => Throw s
  | (Some nd, q) =>
      let m := maze s in
      let m1 := mkMaze (size m) (wallFreq m) (map m)
                  (wr2 (distances m) (nx nd) (ny nd) (ndistance nd)) (explored m) in
      let '(m2, q2, _) := foldl (visit (ndistance nd)) (m1, q, None) (getNeighbors m1 (nx nd) (ny nd)) in
      Ok (mkSolver m2 q2 (solving s) (canvas s ++ [Visited (nx nd) (ny nd)]))
  end.

(** [canStep()]. *)
Definition canStep (s : solver) : bool := negb (solved (maze s)) && negb (Queue.isEmpty (queue s)).

(** [this.pathViewer.draw()]: paints the cells of the walk; a TypeError
    in it propagates to the caller. *)
Definition drawPath (s : solver) : outcome solver :=
  let '(p, st) := PathViewer.draw (maze s) in
  let s' := mkSolver (maze s) (queue s) (solving s) (canvas s ++ ((λ c, PathCell c.1 c.2) <$> p)) in
  match st with
  | PathViewer.Returned => Ok s'
  | PathViewer.Threw => Throw s'
  | PathViewer.Running => Hang
  end.

(** [play()] and [pause()]. *)
Definition play (s : solver) : solver := mkSolver (maze s) (queue s) true (canvas s).
Definition pause (s : solver) : solver := mkSolver (maze s) (queue s) false (canvas s).

(** [solveLoop()]: one timer tick.  When [draw()] throws, [pause()] is
    not reached. *)
Definition solveLoop (s : solver) : outcome solver :=
  if solving s then
    if solved (maze s) then and_then (drawPath s) (λ s', Ok (pause s')) id
    else if Queue.isEmpty (queue s) then
      Ok (pause (mkSolver (maze s) (queue s) (solving s) (canvas s ++ [NoSolution])))
    else step s
  else Ok s.

(** The [while (this.canStep()) this.step()] loop of [skip()], with fuel. *)
Fixpoint skip_loop (fuel : nat) (s : solver) : outcome solver :=
  match fuel with
  | O => Hang
  | S f => if canStep s then and_then (step s) (skip_loop f) id else Ok s
  end.

(** The number of unexplored cells: each step marks as many cells as it
    enqueues, so [2 * unexplored + |queue|] drops at every step. *)
Definition unexplored (m : Maze.maze) : nat :=
  sum_list ((λ row, length (List.filter negb row)) <$> explored m).

Definition skip_bound (s : solver) : nat :=
  S (2 * unexplored (maze s) + length (elements (queue s))).

(** [skip()]: drain, then draw the path if the goal was reached. *)
Definition skip (s : solver) : outcome solver :=
  and_then (skip_loop (skip_bound s) s)
    (λ s', if solved (maze s') then drawPath s' else Ok s') id.

End Solver.
