(* ===== verification/SolverInv.v ===== *)
(** The breadth-first-search invariant of [MazeSolver] (src/main.js,
    lines 293-410) and its consequences: [reset()] establishes it,
    [step()] preserves it and never throws on a non-empty queue, the
    distance field it describes satisfies the path viewer's contract
    [descending], and [skip()] terminates within [skip_bound]. *)

From S2P Require Import Prelude Grid Queue PathViewer Solver.
Open Scope Z_scope.
Open Scope grid_scope.

Module SolverInv.
Import Maze Queue PathViewer Solver.

(** Runs of [step()] that return normally, the way [skip()],
    [solveLoop()] and the Step button call it (only when the queue is not
    empty). *)
Inductive steps : solver → solver → Prop :=
| steps_refl s : steps s s
| steps_step s s' s'' : Queue.isEmpty (queue s) = false → step s = Ok s' → steps s' s'' → steps s s''.

(** The measure that [step()] decreases. *)
Definition measure (s : solver) : nat := (2 * unexplored (maze s) + length (elements (queue s)))%nat.

(** The number of [false] marks of an explored array. *)
Definition count_false (e : list (list bool)) : nat :=
  sum_list ((λ row, length (List.filter negb row)) <$> e).

(** The cell of a node. *)
Definition pos (nd : node) : Z * Z := (nx nd, ny nd).

(** A cell is finalized once [step()] has committed its distance. *)
Definition finalized (m : Maze.maze) (x y : Z) : Prop := dist_at m x y ≠ Inf.

(** The explored marks after the [for] loop of [step()] set them on [ps]. *)
Definition mark (e : list (list bool)) (ps : list (Z * Z)) : list (list bool) :=
  foldl (λ e p, wr2 e p.1 p.2 true) e ps.

(** The nodes the [for] loop of [step()] pushes for [ps]. *)
Definition new_nodes (m : Maze.maze) (d : jsnum) (ps : list (Z * Z)) : list node :=
  (λ p, mkNode p.1 p.2 (js_add d (tileCost ((map m) @[p.1, p.2])))) <$> ps.

(** The maze and the queue after [step()] pops [nd] (see [step_cons]). *)
Definition step_maze (m : Maze.maze) (nd : node) : Maze.maze :=
  mkMaze (size m) (wallFreq m) (map m) (wr2 (distances m) (nx nd) (ny nd) (ndistance nd))
    (mark (explored m) (getNeighbors m (nx nd) (ny nd))).

Definition step_queue (m : Maze.maze) (nd : node) (rest : list node) : list node :=
  rest ++ new_nodes m (ndistance nd) (getNeighbors m (nx nd) (ny nd)).

(** Distance [k] at (x, y) is explained by a finalized neighbour: its
    distance plus the cost of entering (x, y). *)
Definition has_parent (m : Maze.maze) (x y : Z) (k : nat) : Prop :=
  ∃ x' y' k' c, (x', y') ∈ neighbours x y ∧ in_range (size m) x' y' ∧
    dist_at m x' y' = Fin k' ∧ tileCost ((map m) @[x, y]) = Some c ∧ k = (k' + c)%nat.

Definition justified (m : Maze.maze) (x y : Z) (k : nat) : Prop :=
  ((x, y) = (0, 0) ∧ k = 0%nat) ∨ has_parent m x y k.

(** Same size and same tiles: nothing but painting and [setUpMaze]
    changes the tiles. *)
Definition same_tiles (s s' : solver) : Prop :=
  size (maze s') = size (maze s) ∧ map (maze s') = map (maze s).

(** The invariant of a solver between two calls. *)
Record bfs_inv (s : solver) : Prop := {
  inv_shape : maze_shape (maze s);
  inv_defined : ∀ x y, in_range (size (maze s)) x y → (map (maze s)) @[x, y] ≠ Some Undef;
  inv_explored : ∀ x y, in_range (size (maze s)) x y →
    ((explored (maze s)) @[x, y] = Some true ↔
       finalized (maze s) x y ∨ (x, y) ∈ pos <$> elements (queue s));
  inv_nodup : NoDup (pos <$> elements (queue s));
  inv_queued : ∀ nd, nd ∈ elements (queue s) →
    in_range (size (maze s)) (nx nd) (ny nd) ∧ ¬ finalized (maze s) (nx nd) (ny nd) ∧
    ∃ k, ndistance nd = Fin k ∧ justified (maze s) (nx nd) (ny nd) k;
  inv_final : ∀ x y, in_range (size (maze s)) x y → finalized (maze s) x y →
    ∃ k, dist_at (maze s) x y = Fin k ∧ justified (maze s) x y k
}.

(** ** Neighbours *)

Lemma neighbours_nodup x y : NoDup (neighbours x y).
Proof.
  unfold neighbours. repeat constructor; rewrite ?elem_of_cons, ?elem_of_nil;
    intros H; repeat destruct H as [H|H]; simplify_eq; lia.
Qed.

Lemma neighbours_not_self x y : (x, y) ∉ neighbours x y.
Proof.
  unfold neighbours. rewrite !elem_of_cons, elem_of_nil.
  intros H; repeat destruct H as [H|H]; simplify_eq; lia.
Qed.

Lemma getNeighbors_spec m x y p :
  p ∈ getNeighbors m x y ↔
    p ∈ neighbours x y ∧ in_range (size m) p.1 p.2 ∧
    (map m) @[p.1, p.2] ≠ Some Wall ∧ (explored m) @[p.1, p.2] = Some false.
Proof.
  unfold getNeighbors, testTileFree.
  rewrite !list_elem_of_In, List.filter_In, !andb_true_iff, inBounds_spec, !bool_decide_eq_true.
  tauto.
Qed.

Lemma getNeighbors_nodup m x y : NoDup (getNeighbors m x y).
Proof.
  apply NoDup_ListNoDup, List.NoDup_filter, NoDup_ListNoDup, neighbours_nodup.
Qed.

(** ** The [for] loop of [step()] in closed form *)

Lemma mark_square n e ps : square n e → square n (mark e ps).
Proof. revert e. induction ps as [|p ps IH]; intros e He; simpl; auto with grid. Qed.

Lemma mark_rd2 n e ps x y :
  square n e → Forall (λ p, in_range n p.1 p.2) ps →
  (mark e ps) @[x, y] = if decide ((x, y) ∈ ps) then Some true else e @[x, y].
Proof.
  revert e. induction ps as [|[a b] ps IH]; intros e He Hps.
  { case_decide as Hin; [by apply elem_of_nil in Hin|done]. }
  inversion Hps as [|? ? Hab Hps']; subst.
  change (mark e ((a, b) :: ps)) with (mark (wr2 e a b true) ps).
  rewrite (IH _ (square_wr2 n e a b true He) Hps'), (rd2_wr2 n e a b) by done.
  repeat case_decide; simplify_eq; try done; set_solver.
Qed.

Lemma visit_cost d m q c a b k :
  tileCost ((map m) @[a, b]) = Some k →
  visit d (m, q, c) (a, b) =
    (mkMaze (size m) (wallFreq m) (map m) (distances m) (wr2 (explored m) a b true),
     Queue.push (mkNode a b (js_add d (Some k))) q, Some k).
Proof. intros Hk. unfold visit. by rewrite Hk. Qed.

Lemma visit_fold d m q c ps :
  Forall (λ p, is_Some (tileCost ((map m) @[p.1, p.2]))) ps →
  ∃ c', foldl (visit d) (m, q, c) ps =
    (mkMaze (size m) (wallFreq m) (map m) (distances m) (mark (explored m) ps),
     mkQueue (elements q ++ new_nodes m d ps), c').
Proof.
  revert m q c. induction ps as [|[a b] ps IH]; intros m q c Hd.
  - exists c. destruct m, q. simpl. by rewrite app_nil_r.
  - apply Forall_cons in Hd as [[k Hk] Hd]. simpl in Hk. cbn [foldl]. rewrite (visit_cost d m q c a b k Hk).
    edestruct IH as [c' ->]; [exact Hd|].
    exists c'. simpl. rewrite Hk, <- app_assoc. done.
Qed.

(** [step()] keeps the board whatever the tiles. *)
Lemma visit_fold_board d m q c ps :
  size (foldl (visit d) (m, q, c) ps).1.1 = size m ∧ map (foldl (visit d) (m, q, c) ps).1.1 = map m.
Proof.
  revert m q c. induction ps as [|[a b] ps IH]; intros m q c; [done|].
  cbn [foldl]. destruct (visit d (m, q, c) (a, b)) as [[m' q'] c'] eqn:Hv.
  destruct (IH m' q' c') as [-> ->]. unfold visit in Hv.
  destruct (tileCost _); by injection Hv as <- <- <-.
Qed.

(** [step()] on a queue whose head is [nd]: the cells it enqueues are
    free tiles of the board, so each assigns [cost]. *)
Lemma step_cons s nd rest :
  bfs_inv s → elements (queue s) = nd :: rest →
  step s = Ok (mkSolver (step_maze (maze s) nd) (mkQueue (step_queue (maze s) nd rest))
                (solving s) (canvas s ++ [Visited (nx nd) (ny nd)])).
Proof.
  intros Hinv Hq. unfold step, Queue.pop. rewrite Hq. cbv zeta.
  edestruct visit_fold as [c' ->]; [|done].
  apply Forall_forall. intros p Hp. apply getNeighbors_spec in Hp as (_ & Hr & Hw & _). simpl in Hr, Hw |- *.
  destruct (rd2_square _ _ _ _ (proj1 (proj2 (inv_shape s Hinv))) Hr) as [t Ht].
  pose proof (inv_defined s Hinv _ _ Hr) as Hu. rewrite Ht in Hw, Hu |- *.
  destruct t; try congruence; eexists; done.
Qed.

Lemma neighbours_sym a b x y : (a, b) ∈ neighbours x y → (x, y) ∈ neighbours a b.
Proof.
  unfold neighbours. rewrite !elem_of_cons, !elem_of_nil.
  intros H; repeat destruct H as [H|H]; simplify_eq;
    repeat (first [left; f_equal; lia | right]).
Qed.

Lemma pos_new_nodes m d ps : pos <$> new_nodes m d ps = ps.
Proof.
  unfold new_nodes. rewrite <- list_fmap_compose. rewrite <- (list_fmap_id ps) at 2.
  apply list_fmap_ext. by intros i [a b] _.
Qed.

Lemma tileCost_free t : t ≠ Wall → t ≠ Undef → ∃ c, tileCost (Some t) = Some c ∧ (1 ≤ c)%nat.
Proof. destruct t; intros; try done; eexists; split; try done; lia. Qed.

Lemma justified_parent_lt m x y k :
  justified m x y k → (x, y) ≠ (0, 0) →
  ∃ x' y' k', (x', y') ∈ neighbours x y ∧ in_range (size m) x' y' ∧ dist_at m x' y' = Fin k' ∧ (k' < k)%nat.
Proof.
  intros [[-> ->]|(x' & y' & k' & c & Hn & Hr & Hd & Hc & ->)] Hne; [done|].
  exists x', y', k'. split_and!; try done.
  destruct ((map m) @[x, y]) as [[]|]; simpl in Hc; simplify_eq; lia.
Qed.

(** Justifications survive any change that keeps the map, the size and
    the distances of finalized cells. *)
Lemma justified_mono m m' x y k :
  size m' = size m → map m' = map m →
  (∀ a b, finalized m a b → dist_at m' a b = dist_at m a b) →
  justified m x y k → justified m' x y k.
Proof.
  intros Hs Hm Hd [H|(x' & y' & k' & c & Hn & Hr & Hdk & Hc & ->)]; [by left|right].
  exists x', y', k', c. rewrite Hs, Hm, Hd; [done|]. unfold finalized. by rewrite Hdk.
Qed.

(** ** [step()] preserves the invariant *)

Section Step.
Context (s : solver) (nd : node) (rest : list node).
Hypothesis Hinv : bfs_inv s.
Hypothesis Hq : elements (queue s) = nd :: rest.

Local Abbreviation m := (maze s).
Local Abbreviation ns := (getNeighbors (maze s) (nx nd) (ny nd)).

Lemma head_facts :
  in_range (size m) (nx nd) (ny nd) ∧ ¬ finalized m (nx nd) (ny nd) ∧
  ∃ k, ndistance nd = Fin k ∧ justified m (nx nd) (ny nd) k.
Proof. apply (inv_queued s Hinv). rewrite Hq. by left. Qed.

Lemma ns_in_range : Forall (λ p, in_range (size m) p.1 p.2) ns.
Proof. apply Forall_forall. intros p Hp. apply getNeighbors_spec in Hp. apply Hp. Qed.

Lemma ns_fresh p : p ∈ ns → ¬ finalized m p.1 p.2 ∧ p ∉ pos <$> elements (queue s).
Proof.
  intros Hp. apply getNeighbors_spec in Hp as (_ & Hr & _ & He).
  pose proof (proj2 (inv_explored s Hinv p.1 p.2 Hr)) as Hiff.
  destruct p as [a b]. simpl in *. rewrite He in Hiff.
  split; intros H; [|]; discriminate Hiff; tauto.
Qed.

Lemma dist_after x y :
  dist_at (step_maze m nd) x y =
    if decide ((nx nd, ny nd) = (x, y)) then ndistance nd else dist_at m x y.
Proof.
  unfold dist_at, step_maze. simpl.
  rewrite (rd2_wr2 (size m)); [|apply (inv_shape s Hinv)|apply head_facts].
  by case_decide.
Qed.

Lemma explored_after x y :
  (explored (step_maze m nd)) @[x, y] =
    if decide ((x, y) ∈ ns) then Some true else (explored m) @[x, y].
Proof. apply (mark_rd2 (size m)); [apply (inv_shape s Hinv)|apply ns_in_range]. Qed.

Lemma finalized_after x y :
  finalized (step_maze m nd) x y ↔ (nx nd, ny nd) = (x, y) ∨ finalized m x y.
Proof.
  unfold finalized. rewrite dist_after.
  destruct head_facts as (_ & _ & k & Hk & _).
  case_decide; [rewrite Hk; split; [by left|done]|]. naive_solver.
Qed.

Lemma justified_after x y k : justified m x y k → justified (step_maze m nd) x y k.
Proof.
  apply justified_mono; [done|done|]. intros a b Hf. rewrite dist_after.
  case_decide as E; [|done]. exfalso. destruct head_facts as (_ & Hnf & _).
  inversion E; subst. by apply Hnf.
Qed.

Lemma pos_step_queue : pos <$> step_queue m nd rest = (pos <$> rest) ++ ns.
Proof. unfold step_queue. by rewrite fmap_app, pos_new_nodes. Qed.

Lemma after_explored x y :
  in_range (size m) x y →
  ((explored (step_maze m nd)) @[x, y] = Some true ↔
     finalized (step_maze m nd) x y ∨ (x, y) ∈ pos <$> step_queue m nd rest).
Proof.
  intros Hr. rewrite explored_after, finalized_after, pos_step_queue, elem_of_app.
  pose proof (inv_explored s Hinv x y Hr) as He. rewrite Hq in He. simpl in He.
  rewrite elem_of_cons in He. unfold pos at 1 in He. case_decide; naive_solver.
Qed.

Lemma after_nodup : NoDup (pos <$> step_queue m nd rest).
Proof.
  rewrite pos_step_queue. pose proof (inv_nodup s Hinv) as Hnd. rewrite Hq in Hnd.
  apply NoDup_cons in Hnd as [_ Hnd].
  apply NoDup_app. split_and!; [done| |apply getNeighbors_nodup].
  intros p Hp Hns. apply (proj2 (ns_fresh p Hns)). rewrite Hq. by right.
Qed.

Lemma after_queued_rest nd' :
  nd' ∈ rest →
  in_range (size m) (nx nd') (ny nd') ∧ ¬ finalized (step_maze m nd) (nx nd') (ny nd') ∧
  ∃ k, ndistance nd' = Fin k ∧ justified (step_maze m nd) (nx nd') (ny nd') k.
Proof.
  intros Hin. destruct (inv_queued s Hinv nd') as (Hr & Hnf & k & Hk & Hj); [rewrite Hq; by right|].
  split_and!; [done| |eauto using justified_after].
  rewrite finalized_after. intros [E|E]; [|done].
  pose proof (inv_nodup s Hinv) as Hnd. rewrite Hq in Hnd. apply NoDup_cons in Hnd as [Hno _].
  apply Hno. change (pos nd) with (nx nd, ny nd). rewrite E. by apply (list_elem_of_fmap_2 pos).
Qed.

Lemma after_queued_new p :
  p ∈ ns →
  in_range (size m) p.1 p.2 ∧ ¬ finalized (step_maze m nd) p.1 p.2 ∧
  ∃ k, js_add (ndistance nd) (tileCost ((map m) @[p.1, p.2])) = Fin k ∧
       justified (step_maze m nd) p.1 p.2 k.
Proof.
  intros Hp. destruct (ns_fresh p Hp) as [Hnf _].
  apply getNeighbors_spec in Hp as (Hn & Hr & Hw & _).
  destruct head_facts as (Hr0 & _ & k & Hk & _).
  destruct (rd2_square _ _ _ _ (proj1 (proj2 (inv_shape s Hinv))) Hr) as [t Ht].
  destruct (tileCost_free t) as (c & Hc & _); [congruence|by apply (inv_defined s Hinv) in Hr; congruence|].
  split_and!; [done| |].
  - rewrite finalized_after. intros [E|E]; [|done].
    apply (neighbours_not_self (nx nd) (ny nd)). by rewrite E; destruct p.
  - rewrite Hk, Ht, Hc. eexists; split; [done|]. right.
    exists (nx nd), (ny nd), k, c. split_and!; try done.
    + destruct p; by apply neighbours_sym.
    + by rewrite dist_after, decide_True.
    + simpl. by rewrite Ht.
Qed.

Lemma after_final x y :
  in_range (size m) x y → finalized (step_maze m nd) x y →
  ∃ k, dist_at (step_maze m nd) x y = Fin k ∧ justified (step_maze m nd) x y k.
Proof.
  intros Hr Hf. rewrite dist_after. apply finalized_after in Hf.
  case_decide as E.
  - destruct head_facts as (_ & _ & k & Hk & Hj). inversion E; subst.
    exists k. split; [done|]. by apply justified_after.
  - destruct Hf as [Hf|Hf]; [done|].
    destruct (inv_final s Hinv x y Hr Hf) as (k & Hk & Hj).
    exists k. split; [done|]. by apply justified_after.
Qed.
End Step.

Lemma step_inv s :
  bfs_inv s → Queue.isEmpty (queue s) = false → ∃ s', step s = Ok s' ∧ bfs_inv s'.
Proof.
  intros Hinv He. unfold Queue.isEmpty in He.
  destruct (elements (queue s)) as [|nd rest] eqn:Hq; [done|].
  eexists; split; [by apply step_cons|].
  destruct (inv_shape s Hinv) as (Hs & Hm & Hd & Hx).
  constructor; cbn [maze queue elements].
  - unfold step_maze. split_and!; simpl; eauto using mark_square with grid.
  - apply (inv_defined s Hinv).
  - exact (after_explored s nd rest Hinv Hq).
  - exact (after_nodup s nd rest Hinv Hq).
  - intros nd' Hin. unfold step_queue in Hin. apply elem_of_app in Hin as [Hin|Hin].
    + exact (after_queued_rest s nd rest Hinv Hq nd' Hin).
    + unfold new_nodes in Hin. apply list_elem_of_fmap in Hin as (p & -> & Hp).
      exact (after_queued_new s nd rest Hinv Hq p Hp).
  - exact (after_final s nd rest Hinv Hq).
Qed.

(** [C1] One [step()] of the breadth-first search preserves the
    invariant: on a solver satisfying [bfs_inv] with a non-empty queue,
    [step()] returns normally, and afterwards the arrays are still
    [size] x [size], explored cells are exactly the finalized and the
    queued ones, the queue has no duplicate cell, queued cells are
    unfinalized with a finite distance, and every finalized or queued cell
    but the origin owes its distance to a finalized neighbour plus the
    cost of entering it. *)
Theorem step_preserves_inv s :
  bfs_inv s → Queue.isEmpty (queue s) = false → ∃ s', step s = Ok s' ∧ bfs_inv s'.
Proof. apply step_inv. Qed.

(** ** Termination of [skip()] *)

Lemma filter_negb_insert (row : list bool) i :
  row !! i = Some false →
  (length (List.filter negb (<[i:=true]> row)) + 1 = length (List.filter negb row))%nat.
Proof.
  revert i. induction row as [|b row IH]; intros [|i] Hi; simpl in *; try done.
  - injection Hi as ->. simpl. lia.
  - specialize (IH i Hi). destruct b; simpl; lia.
Qed.

Lemma sum_list_alter {X} (f : X → nat) g (e : list X) i row :
  e !! i = Some row →
  (sum_list (f <$> alter g i e) + f row = sum_list (f <$> e) + f (g row))%nat.
Proof.
  revert i. induction e as [|r e IH]; intros [|i] Hi; try done.
  - injection Hi as ->. cbn. lia.
  - specialize (IH i Hi). cbn in *. lia.
Qed.

Lemma count_false_wr2 e x y :
  e @[x, y] = Some false → (count_false (wr2 e x y true) + 1 = count_false e)%nat.
Proof.
  unfold rd2, wr2, count_false.
  destruct ((0 <=? x) && (0 <=? y)); [|done].
  destruct (e !! Z.to_nat x) as [row|] eqn:Hrow; simpl; [|done]. intros Hy.
  pose proof (sum_list_alter (λ row, length (List.filter negb row)) (λ row, <[Z.to_nat y:=true]> row)
                e (Z.to_nat x) row Hrow) as Hs.
  pose proof (filter_negb_insert row (Z.to_nat y) Hy) as Hf. cbv beta in Hs. lia.
Qed.

Lemma count_false_mark n e ps :
  square n e → NoDup ps → Forall (λ p, in_range n p.1 p.2) ps →
  (∀ p, p ∈ ps → e @[p.1, p.2] = Some false) →
  (count_false (mark e ps) + length ps = count_false e)%nat.
Proof.
  revert e. induction ps as [|[a b] ps IH]; intros e He Hnd Hr Hf; simpl; [lia|].
  apply NoDup_cons in Hnd as [Hno Hnd]. inversion Hr as [|? ? Hab Hr']; subst.
  change (mark e ((a, b) :: ps)) with (mark (wr2 e a b true) ps).
  pose proof (count_false_wr2 e a b (Hf (a, b) (list_elem_of_here _ _))) as Hw.
  enough (count_false (mark (wr2 e a b true) ps) + length ps = count_false (wr2 e a b true))%nat
    by (simpl; lia).
  apply IH; auto with grid.
  intros [c d] Hp. rewrite rd2_wr2_other; [apply Hf; by right|].
  intros E. apply Hno. by rewrite E.
Qed.

Lemma step_measure s nd rest :
  bfs_inv s → elements (queue s) = nd :: rest →
  (measure (mkSolver (step_maze (maze s) nd) (mkQueue (step_queue (maze s) nd rest)) (solving s)
              (canvas s ++ [Visited (nx nd) (ny nd)])) < measure s)%nat.
Proof.
  intros Hinv Hq. unfold measure, unexplored. simpl. rewrite Hq.
  fold (count_false (mark (explored (maze s)) (getNeighbors (maze s) (nx nd) (ny nd)))).
  fold (count_false (explored (maze s))).
  unfold step_queue, new_nodes. rewrite length_app, length_fmap.
  pose proof (count_false_mark (size (maze s)) (explored (maze s)) (getNeighbors (maze s) (nx nd) (ny nd))
    ltac:(apply (inv_shape s Hinv)) (getNeighbors_nodup _ _ _) (ns_in_range s nd)
    ltac:(intros p Hp; apply getNeighbors_spec in Hp; apply Hp)).
  simpl. lia.
Qed.

Lemma skip_loop_spec fuel s :
  bfs_inv s → (measure s < fuel)%nat →
  ∃ s', skip_loop fuel s = Ok s' ∧ steps s s' ∧ canStep s' = false.
Proof.
  revert s. induction fuel as [|f IH]; intros s Hinv Hm; [lia|]. simpl.
  destruct (canStep s) eqn:Hc; [|exists s; split_and!; [done|constructor|done]].
  assert (He : Queue.isEmpty (queue s) = false) by (apply andb_true_iff in Hc as [_ H]; by apply negb_true_iff).
  pose proof He as He'. unfold Queue.isEmpty in He'.
  destruct (elements (queue s)) as [|nd rest] eqn:Hq; [done|].
  pose proof (step_measure s nd rest Hinv Hq) as Hlt.
  destruct (step_inv s Hinv He) as (s1 & Hs1 & Hinv1).
  pose proof Hs1 as Hs1'. rewrite (step_cons s nd rest Hinv Hq) in Hs1'. injection Hs1' as <-.
  rewrite Hs1. simpl.
  destruct (IH _ Hinv1) as (s' & -> & Hst & Hc'); [lia|].
  exists s'. split_and!; [done|econstructor; eauto|done].
Qed.

(** A maze as [resetDistances] leaves it, with the queue [resetQueue]
    seeds, satisfies the invariant. *)
Lemma fresh_inv m b c :
  0 < size m → square (size m) (map m) →
  (∀ x y, in_range (size m) x y → (map m) @[x, y] ≠ Some Undef) →
  reset_fields (size m) (distances m) (explored m) →
  bfs_inv (mkSolver m (Queue.new [mkNode 0 0 (Fin 0)]) b c).
Proof.
  intros Hs Hsq Hdef (Hd & He & Hcells).
  assert (Hr0 : in_range (size m) 0 0) by (split; lia).
  constructor; simpl.
  - by split_and!.
  - done.
  - intros x y Hr. destruct (Hcells x y Hr) as [Hdi Hei]. unfold finalized, dist_at.
    rewrite Hei, Hdi, list_elem_of_singleton. simpl. unfold pos. simpl.
    case_bool_decide; naive_solver.
  - constructor; [apply not_elem_of_nil|constructor].
  - intros nd Hnd. apply list_elem_of_singleton in Hnd as ->. simpl.
    split_and!; [done| |by exists 0%nat; split; [|left]].
    unfold finalized, dist_at. rewrite (proj1 (Hcells 0 0 Hr0)). simpl. tauto.
  - intros x y Hr Hf. exfalso. apply Hf. unfold dist_at. by rewrite (proj1 (Hcells x y Hr)).
Qed.

Lemma reset_inv s :
  0 < size (maze s) → square (size (maze s)) (map (maze s)) →
  (∀ x y, in_range (size (maze s)) x y → (map (maze s)) @[x, y] ≠ Some Undef) →
  ∃ s', reset s = Ok s' ∧ bfs_inv s' ∧ elements (queue s') = [mkNode 0 0 (Fin 0)] ∧
        size (maze s') = size (maze s) ∧ map (maze s') = map (maze s) ∧
        reset_fields (size (maze s)) (distances (maze s')) (explored (maze s')).
Proof.
  intros Hs Hsq Hdef. unfold reset.
  destruct (resetDistances_spec (maze s) Hs) as (m' & -> & Hsz & _ & Hmap & Hreset).
  eexists; split; [done|]. simpl. rewrite Hmap.
  split; [|by split_and!].
  apply fresh_inv; simpl; rewrite ?Hsz, ?Hmap; done.
Qed.

(** ** Nothing is finalized before the origin *)

(** Every finalized cell descends to the origin, so the origin is the
    first cell [step()] finalizes. *)
Lemma finalized_origin s x y :
  bfs_inv s → in_range (size (maze s)) x y → finalized (maze s) x y → finalized (maze s) 0 0.
Proof.
  intros Hinv Hr Hf.
  destruct (inv_final s Hinv x y Hr Hf) as (k & Hk & _).
  revert x y Hr Hf Hk. induction k as [k IH] using lt_wf_ind. intros x y Hr Hf Hk.
  destruct (decide ((x, y) = (0, 0))) as [E|Hne]; [by invc E|].
  destruct (inv_final s Hinv x y Hr Hf) as (k0 & Hk0 & Hj). rewrite Hk in Hk0. invc Hk0.
  destruct (justified_parent_lt _ _ _ _ Hj Hne) as (x' & y' & k' & _ & Hr' & Hd' & Hlt).
  apply (IH k' Hlt x' y'); [done| |done]. unfold finalized. by rewrite Hd'.
Qed.

(** Before the origin is finalized the queue holds only origin nodes. *)
Lemma unlocked_queue s nd :
  bfs_inv s → ¬ finalized (maze s) 0 0 → nd ∈ elements (queue s) → (nx nd, ny nd) = (0, 0).
Proof.
  intros Hinv Hnf Hnd.
  destruct (inv_queued s Hinv nd Hnd) as (_ & _ & k & _ & [[E _]|(x' & y' & k' & c & _ & Hr' & Hd' & _)]);
    [done|].
  exfalso. apply Hnf, (finalized_origin s x' y' Hinv Hr'). unfold finalized. by rewrite Hd'.
Qed.

(** Changing the tiles keeps the invariant while nothing is finalized,
    as long as the new tiles are defined and the array keeps its shape. *)
Lemma retile_inv s tiles :
  bfs_inv s → ¬ finalized (maze s) 0 0 → square (size (maze s)) tiles →
  (∀ x y, in_range (size (maze s)) x y → tiles @[x, y] ≠ Some Undef) →
  bfs_inv (mkSolver (mkMaze (size (maze s)) (wallFreq (maze s)) tiles (distances (maze s)) (explored (maze s)))
             (queue s) (solving s) (canvas s)).
Proof.
  intros Hinv Hnf Hsq Hdef.
  assert (Hnone : ∀ x y, in_range (size (maze s)) x y → ¬ finalized (maze s) x y).
  { intros x y Hr Hf. by apply Hnf, (finalized_origin s x y). }
  destruct (inv_shape s Hinv) as (Hs & _ & Hd & He).
  constructor; simpl.
  - by split_and!.
  - done.
  - apply (inv_explored s Hinv).
  - apply (inv_nodup s Hinv).
  - intros nd Hnd. destruct (inv_queued s Hinv nd Hnd) as (Hr & Hf & k & Hk & Hj).
    split_and!; [done|done|]. exists k. split; [done|].
    destruct Hj as [Hj|(x' & y' & k' & c & _ & Hr' & Hd' & _)]; [by left|].
    exfalso. apply (Hnone x' y' Hr'). unfold finalized. by rewrite Hd'.
  - intros x y Hr Hf. by destruct (Hnone x y Hr).
Qed.

(** [C15] [reset()] on a maze with a positive size and a [size] x [size]
    tile array without [undefined] tiles returns normally with every
    distance [Infinity], only the origin explored, the queue holding the
    single node (0, 0, 0), and the invariant established. *)
Theorem reset_establishes_inv s :
  0 < size (maze s) → square (size (maze s)) (map (maze s)) →
  (∀ x y, in_range (size (maze s)) x y → (map (maze s)) @[x, y] ≠ Some Undef) →
  ∃ s', reset s = Ok s' ∧ bfs_inv s' ∧ elements (queue s') = [mkNode 0 0 (Fin 0)] ∧
        size (maze s') = size (maze s) ∧ map (maze s') = map (maze s) ∧
        reset_fields (size (maze s)) (distances (maze s')) (explored (maze s')).
Proof. apply reset_inv. Qed.

Lemma steps_preserve_inv s s' : steps s s' → bfs_inv s → bfs_inv s'.
Proof.
  induction 1 as [|s s1 s2 He Hst _ IH]; intros Hinv; [done|].
  apply IH. destruct (step_inv s Hinv He) as (s1' & Hs1 & Hinv1).
  rewrite Hst in Hs1. by injection Hs1 as ->.
Qed.

(** The invariant gives the path viewer its contract. *)
(** ** [step()] keeps the tiles *)

Lemma step_same_tiles s s' : Queue.isEmpty (queue s) = false → step s = Ok s' → same_tiles s s'.
Proof.
  intros _ Hs. unfold step in Hs. destruct (Queue.pop (queue s)) as [[nd|] q]; [|done].
  cbv zeta in Hs. destruct (foldl _ _ _) as [[m2 q2] c] eqn:Hf. injection Hs as <-.
  match type of Hf with
  | foldl _ (?m1, _, _) ?ps = _ => destruct (visit_fold_board (ndistance nd) m1 q None ps) as [Hsz Hm]
  end.
  rewrite Hf in Hsz, Hm. split; done.
Qed.

Lemma steps_same_tiles s s' : steps s s' → same_tiles s s'.
Proof.
  induction 1 as [|s s1 s2 He Hs _ [IH1 IH2]]; [done|].
  destruct (step_same_tiles s s1 He Hs) as [H1 H2]. split; congruence.
Qed.

Lemma inv_descending s : bfs_inv s → descending (maze s).
Proof.
  intros Hinv x y k Hr Hk Hne.
  destruct (inv_final s Hinv x y Hr) as (k' & Hk' & Hj); [unfold finalized; by rewrite Hk|].
  rewrite Hk in Hk'. injection Hk' as <-. by apply justified_parent_lt.
Qed.

Lemma solved_goal_finite s :
  bfs_inv s → solved (maze s) = true →
  ∃ k, dist_at (maze s) (size (maze s) - 1) (size (maze s) - 1) = Fin k.
Proof.
  intros Hinv Hsol. destruct (inv_shape s Hinv) as (Hs & [Hl _] & _).
  unfold solved in Hsol. rewrite Hl, Z2Nat.id in Hsol by lia.
  destruct (inv_final s Hinv (size (maze s) - 1) (size (maze s) - 1)) as (k & Hk & _).
  - split; lia.
  - unfold finalized, is_inf in *. intros E. rewrite E in Hsol. by rewrite decide_True in Hsol.
  - by exists k.
Qed.

(** [C6] End-to-end path correctness: after [reset()] and any number of
    [step()]s, once [solved()] holds, [PathViewer.draw()] returns normally
    after painting a walk from the goal (size-1, size-1) to the origin
    along in-bounds neighbours with strictly decreasing distances. *)
Theorem solved_path_correct s0 s1 s :
  0 < size (maze s0) → square (size (maze s0)) (map (maze s0)) →
  (∀ x y, in_range (size (maze s0)) x y → (map (maze s0)) @[x, y] ≠ Some Undef) →
  reset s0 = Ok s1 → steps s1 s → solved (maze s) = true →
  ∃ p, draw (maze s) = ((size (maze s) - 1, size (maze s) - 1) :: p, Returned) ∧
       chain (maze s) (size (maze s) - 1, size (maze s) - 1) p ∧
       list.last ((size (maze s) - 1, size (maze s) - 1) :: p) = Some (0, 0).
Proof.
  intros Hs Hsq Hdef Hreset Hsteps Hsol.
  destruct (reset_inv s0 Hs Hsq Hdef) as (s1' & Hr & Hinv1 & _).
  rewrite Hreset in Hr. injection Hr as <-.
  pose proof (steps_preserve_inv _ _ Hsteps Hinv1) as Hinv.
  destruct (solved_goal_finite s Hinv Hsol) as [k Hk].
  apply (draw_returns_path _ k); [apply (inv_shape s Hinv)|by apply inv_descending|done].
Qed.

Lemma bfs_inv_canvas s b c : bfs_inv s → bfs_inv (mkSolver (maze s) (queue s) b c).
Proof. intros []. by constructor. Qed.

Lemma drawPath_solved s :
  bfs_inv s → solved (maze s) = true →
  ∃ p, drawPath s = Ok (mkSolver (maze s) (queue s) (solving s)
                          (canvas s ++ ((λ c, PathCell c.1 c.2) <$>
                                          ((size (maze s) - 1, size (maze s) - 1) :: p)))) ∧
       chain (maze s) (size (maze s) - 1, size (maze s) - 1) p ∧
       list.last ((size (maze s) - 1, size (maze s) - 1) :: p) = Some (0, 0).
Proof.
  intros Hinv Hsol. destruct (solved_goal_finite s Hinv Hsol) as [k Hk].
  destruct (draw_returns_path (maze s) k) as (p & Hd & Hc & Hl);
    [apply (inv_shape s Hinv)|by apply inv_descending|done|].
  exists p. unfold drawPath. by rewrite Hd.
Qed.

Lemma skip_ok s :
  bfs_inv s →
  ∃ s1 s', steps s s1 ∧ canStep s1 = false ∧ skip s = Ok s' ∧
           maze s' = maze s1 ∧ queue s' = queue s1 ∧ bfs_inv s'.
Proof.
  intros Hinv. unfold skip.
  destruct (skip_loop_spec (skip_bound s) s Hinv) as (s1 & -> & Hst & Hc); [unfold skip_bound, measure; lia|].
  pose proof (steps_preserve_inv _ _ Hst Hinv) as Hinv1. simpl.
  destruct (solved (maze s1)) eqn:Hsol.
  - destruct (drawPath_solved s1 Hinv1 Hsol) as (p & -> & _).
    eexists s1, _. split_and!; [done|done|done|done|done|]. by apply bfs_inv_canvas.
  - exists s1, s1. by split_and!.
Qed.

(** The cells [step()] paints along a run: each is a cell of the board
    that was not finalized before, and they are exactly the cells the run
    finalizes. *)
Lemma steps_visits s s' :
  bfs_inv s → steps s s' →
  ∃ L, canvas s' = canvas s ++ ((λ c, Visited c.1 c.2) <$> L) ∧ NoDup L ∧
       Forall (λ c, in_range (size (maze s)) c.1 c.2 ∧ ¬ finalized (maze s) c.1 c.2) L ∧
       ∀ x y, finalized (maze s') x y ↔ finalized (maze s) x y ∨ (x, y) ∈ L.
Proof.
  intros Hinv Hst. revert Hinv. induction Hst as [s|s s1 s2 He Hs Hst IH]; intros Hinv.
  { exists []. rewrite app_nil_r. split_and!; [done|constructor|constructor|]. set_solver. }
  unfold Queue.isEmpty in He. destruct (elements (queue s)) as [|nd rest] eqn:Hq; [done|].
  pose proof Hs as Hs'. rewrite (step_cons s nd rest Hinv Hq) in Hs'. injection Hs' as <-.
  destruct (step_inv s Hinv) as (s1' & Hs1 & Hinv1); [by unfold Queue.isEmpty; rewrite Hq|].
  rewrite (step_cons s nd rest Hinv Hq) in Hs1. injection Hs1 as <-.
  destruct (IH Hinv1) as (L & Hc & Hnd & Hall & Hfin). simpl in *.
  destruct (head_facts s nd rest Hinv Hq) as (Hr & Hnf & _).
  pose proof (finalized_after s nd rest Hinv Hq) as Haft.
  exists ((nx nd, ny nd) :: L). rewrite Forall_forall in Hall. split_and!.
  - rewrite Hc, <- app_assoc. done.
  - constructor; [|done]. intros Hin. destruct (Hall _ Hin) as [_ Hn]. apply Hn, Haft. by left.
  - constructor; [done|]. apply Forall_forall. intros c Hc'. destruct (Hall c Hc') as [Hr' Hn].
    split; [done|]. intros Hf. apply Hn, Haft. by right.
  - intros x y. rewrite Hfin, Haft. set_solver.
Qed.

(** [C32] After [reset()], every [step()] paints a new cell: the cells a
    run of steps paints are pairwise distinct, they are exactly the cells
    of the board whose distance is no longer Infinity, and there are at
    most [size * size] of them. *)
Theorem steps_visit_each_cell_once s0 s1 s :
  0 < size (maze s0) → square (size (maze s0)) (map (maze s0)) →
  (∀ x y, in_range (size (maze s0)) x y → (map (maze s0)) @[x, y] ≠ Some Undef) →
  reset s0 = Ok s1 → steps s1 s →
  ∃ L, canvas s = canvas s1 ++ ((λ c, Visited c.1 c.2) <$> L) ∧ NoDup L ∧
       (∀ x y, in_range (size (maze s)) x y → ((x, y) ∈ L ↔ dist_at (maze s) x y ≠ Inf)) ∧
       (length L ≤ Z.to_nat (size (maze s)) * Z.to_nat (size (maze s)))%nat.
Proof.
  intros Hs Hsq Hdef Hreset Hst.
  destruct (reset_inv s0 Hs Hsq Hdef) as (s1' & Hr & Hinv1 & _ & Hsz & _ & _ & _ & Hcells).
  rewrite Hreset in Hr. injection Hr as <-.
  destruct (steps_visits s1 s Hinv1 Hst) as (L & Hc & Hnd & Hall & Hfin).
  destruct (steps_same_tiles s1 s Hst) as [Hsz' _].
  exists L. split_and!; [done|done| |].
  - intros x y Hxy. rewrite Hsz', Hsz in Hxy. specialize (Hfin x y). unfold finalized in Hfin.
    rewrite Hfin. unfold dist_at. rewrite (proj1 (Hcells x y Hxy)). simpl. naive_solver.
  - rewrite Hsz'. apply nodup_cells_length; [done|]. eapply Forall_impl; [exact Hall|]. by intros c [? _].
Qed.

(** [C16] [skip()] terminates and never throws on a solver satisfying the
    invariant: the [while (canStep())] loop stops within [skip_bound]
    iterations on a state where [canStep()] is false, and the path drawing
    that follows returns normally. *)
Theorem skip_terminates s :
  bfs_inv s →
  ∃ s1 s', steps s s1 ∧ canStep s1 = false ∧ skip s = Ok s' ∧
           maze s' = maze s1 ∧ queue s' = queue s1 ∧ bfs_inv s'.
Proof. apply skip_ok. Qed.

(** [C22] Calling [skip()] on a solved maze is not a no-op: it leaves the
    maze and the queue alone but paints the whole path again (the spec
    says the second [skip()] emits nothing). *)
Theorem skip_when_solved_repaints s :
  bfs_inv s → solved (maze s) = true →
  ∃ p, skip s = Ok (mkSolver (maze s) (queue s) (solving s)
                      (canvas s ++ ((λ c, PathCell c.1 c.2) <$>
                                      ((size (maze s) - 1, size (maze s) - 1) :: p)))).
Proof.
  intros Hinv Hsol. unfold skip, skip_bound. simpl.
  unfold canStep. rewrite Hsol. simpl.
  destruct (drawPath_solved s Hinv Hsol) as (p & Hd & _).
  exists p. by rewrite Hsol, Hd.
Qed.

End SolverInv.
