(* ===== verification/Shortest.v ===== *)
(** What the distances of [MazeSolver] mean (src/main.js, lines
    312-350): walks on the board, the closure of the explored region
    under [step()], and the order of the queue.  Every committed distance
    is the cost of a walk from the start, so the search never
    underestimates; once the queue is empty every cell a walk reaches is
    finalized, so "no solution" means the finish is unreachable; without
    Slow tiles the queue is layered and every committed distance is the
    length of a shortest walk, and so is the path [PathViewer.draw()]
    paints. *)

From S2P Require Import Prelude Grid Queue PathViewer Solver SolverInv.
Open Scope Z_scope.
Open Scope grid_scope.

Module Shortest.
Import Maze Queue PathViewer Solver SolverInv.

(** A cell a walk may enter: on the board and not a wall (the tests of
    [inBounds] and [testTileFree] without the explored mark). *)
Definition free (m : Maze.maze) (c : Z * Z) : Prop :=
  in_range (size m) c.1 c.2 ∧ (map m) @[c.1, c.2] ≠ Some Wall.

(** [walk m c L]: a walk of [L] moves from the start (0, 0) to [c], each
    move to a free neighbour. *)
Inductive walk (m : Maze.maze) : Z * Z → nat → Prop :=
| walk_start : walk m (0, 0) 0
| walk_move c c' L : walk m c L → c' ∈ neighbours c.1 c.2 → free m c' → walk m c' (S L).

(** [cwalk m c w]: a walk from the start to [c] whose cost [w] is the
    sum of the costs of the cells it enters ([tileCost]: 1 for Empty, 2
    for Slow; walls and [undefined] cannot be entered). *)
Inductive cwalk (m : Maze.maze) : Z * Z → nat → Prop :=
| cwalk_start : cwalk m (0, 0) 0
| cwalk_move c c' w k : cwalk m c w → c' ∈ neighbours c.1 c.2 → in_range (size m) c'.1 c'.2 →
    tileCost ((map m) @[c'.1, c'.2]) = Some k → cwalk m c' (w + k).

(** Two mazes with the same board: walks and tile kinds only read the
    size and the tiles, not the distances or the explored marks. *)
Definition same_board (m m' : Maze.maze) : Prop := size m = size m' ∧ map m = map m'.

(** No Slow tile on the board (the page never paints one). *)
Definition no_slow (m : Maze.maze) : Prop :=
  ∀ x y, in_range (size m) x y → (map m) @[x, y] ≠ Some Slow.

(** The explored region is closed: the start is explored, and every free
    neighbour of a finalized cell is explored. *)
Record reach_inv (s : solver) : Prop := {
  ri_origin : (explored (maze s)) @[0, 0] = Some true;
  ri_closed : ∀ x y c, in_range (size (maze s)) x y → finalized (maze s) x y →
    c ∈ neighbours x y → free (maze s) c → (explored (maze s)) @[c.1, c.2] = Some true
}.

(** The distance recorded for a cell: committed in [distances], or
    carried by its node in the queue. *)
Definition recorded (s : solver) (c : Z * Z) (k : nat) : Prop :=
  (in_range (size (maze s)) c.1 c.2 ∧ dist_at (maze s) c.1 c.2 = Fin k) ∨
  ∃ nd, nd ∈ elements (queue s) ∧ pos nd = c ∧ ndistance nd = Fin k.

(** The distances of the queue, front to back, do not decrease and stay
    within one of each other. *)
Definition layered (q : list node) : Prop :=
  ∀ i j nd nd', (i ≤ j)%nat → q !! i = Some nd → q !! j = Some nd' →
    ∃ k k', ndistance nd = Fin k ∧ ndistance nd' = Fin k' ∧ (k ≤ k' ≤ k + 1)%nat.

(** The order of a breadth-first search: a layered queue, committed
    distances no larger than queued ones, and no walk shorter than a
    recorded distance. *)
Record order_inv (s : solver) : Prop := {
  oi_layered : layered (elements (queue s));
  oi_below : ∀ x y k nd k', in_range (size (maze s)) x y → dist_at (maze s) x y = Fin k →
    nd ∈ elements (queue s) → ndistance nd = Fin k' → (k ≤ k')%nat;
  oi_optimal : ∀ c k L, recorded s c k → walk (maze s) c L → (k ≤ L)%nat
}.

(** ** Walks *)

Lemma walk_same m m' c L : size m' = size m → map m' = map m → walk m c L → walk m' c L.
Proof.
  intros Hs Hm. induction 1; econstructor; eauto. unfold free in *. by rewrite Hs, Hm.
Qed.

#[export] Instance same_board_equiv : Equivalence same_board.
Proof.
  split; [done|by intros m m' [??]|]. intros m1 m2 m3 [??] [??]. split; congruence.
Qed.

#[export] Instance walk_proper : Proper (same_board ==> eq ==> eq ==> iff) walk.
Proof.
  intros m m' [Hs Hm] c ? <- L ? <-. split; intros Hw; (eapply walk_same; [| |exact Hw]); congruence.
Qed.

#[export] Instance no_slow_proper : Proper (same_board ==> iff) no_slow.
Proof. intros m m' [Hs Hm]. unfold no_slow. by rewrite Hs, Hm. Qed.

Lemma step_board m nd : same_board (step_maze m nd) m.
Proof. done. Qed.

Lemma walk_in_range m c L : 0 < size m → walk m c L → in_range (size m) c.1 c.2.
Proof. intros Hs. destruct 1 as [|c c' L _ _ [Hr _]]; [simpl; split; lia|done]. Qed.

(** A walk from a cell with a property to one without it leaves the
    property somewhere: [c1] has it, its free neighbour [c2] has not. *)
Lemma walk_exit m (P : Z * Z → bool) c L :
  walk m c L → P (0, 0) = true → P c = false →
  ∃ c1 L1 c2, walk m c1 L1 ∧ P c1 = true ∧ (L1 < L)%nat ∧
              c2 ∈ neighbours c1.1 c1.2 ∧ free m c2 ∧ P c2 = false.
Proof.
  induction 1 as [|c c' L Hw IH Hn Hf]; intros H0 Hc; [congruence|].
  destruct (P c) eqn:Hp.
  - exists c, L, c'. split_and!; try done; lia.
  - destruct (IH H0 eq_refl) as (c1 & L1 & c2 & ?). exists c1, L1, c2. naive_solver lia.
Qed.

(** ** Reading the arrays of a solver *)

Lemma explored_some s x y :
  bfs_inv s → in_range (size (maze s)) x y → ∃ b, (explored (maze s)) @[x, y] = Some b.
Proof. intros Hinv Hr. apply (rd2_square (size (maze s))); [apply (inv_shape s Hinv)|done]. Qed.

(** Explored and not queued means finalized. *)
Lemma explored_unqueued s x y :
  bfs_inv s → in_range (size (maze s)) x y → (explored (maze s)) @[x, y] = Some true →
  (x, y) ∉ pos <$> elements (queue s) → finalized (maze s) x y.
Proof. intros Hinv Hr He Hq. apply (inv_explored s Hinv x y Hr) in He. tauto. Qed.

Lemma queued_recorded s nd :
  bfs_inv s → nd ∈ elements (queue s) → ∃ k, ndistance nd = Fin k ∧ recorded s (pos nd) k.
Proof.
  intros Hinv Hnd. destruct (inv_queued s Hinv nd Hnd) as (_ & _ & k & Hk & _).
  exists k. split; [done|]. right. by exists nd.
Qed.

(** Both invariants read only the maze and the queue. *)
Lemma reach_inv_ext s s' : maze s' = maze s → queue s' = queue s → reach_inv s → reach_inv s'.
Proof. intros Hm Hq [Ho Hc]. constructor; rewrite Hm; [done|]. apply Hc. Qed.

Lemma order_inv_ext s s' : maze s' = maze s → queue s' = queue s → order_inv s → order_inv s'.
Proof.
  intros Hm Hq [Hl Hb Ho]. constructor; rewrite ?Hm, ?Hq; [done|done|].
  intros c k L Hr. apply Ho. unfold recorded in *. by rewrite Hm, Hq in Hr.
Qed.

(** A free cell of a board without Slow tiles is Empty. *)
Lemma free_empty s x y :
  bfs_inv s → no_slow (maze s) → in_range (size (maze s)) x y → (map (maze s)) @[x, y] ≠ Some Wall →
  (map (maze s)) @[x, y] = Some Empty.
Proof.
  intros Hinv Hns Hr Hw.
  destruct (rd2_square (size (maze s)) (map (maze s)) x y) as [[] Ht];
    [apply (inv_shape s Hinv)|done|done|congruence|by destruct (Hns x y Hr)|
     by destruct (inv_defined s Hinv x y Hr)].
Qed.

(** ** Layered queues *)

Lemma layered_head q nd D nd' k' :
  layered (nd :: q) → ndistance nd = Fin D → nd' ∈ nd :: q → ndistance nd' = Fin k' →
  (D ≤ k' ≤ D + 1)%nat.
Proof.
  intros Hl HD Hin Hk. apply list_elem_of_lookup_1 in Hin as [i Hi].
  destruct (Hl 0%nat i nd nd') as (k0 & k1 & E0 & E1 & ?); [lia|done|done|]. rewrite HD in E0. rewrite Hk in E1. simplify_eq. lia.
Qed.

(** Popping the head and appending nodes one further keeps a queue
    layered. *)
Lemma layered_pop_push nd q news D :
  layered (nd :: q) → ndistance nd = Fin D → (∀ x, x ∈ news → ndistance x = Fin (S D)) →
  layered (q ++ news).
Proof.
  intros Hl HD Hnews i j a b Hij Ha Hb.
  apply lookup_app_Some in Ha as [Ha|[Hi Ha]]; apply lookup_app_Some in Hb as [Hb|[Hj Hb]].
  - apply (Hl (S i) (S j)); [lia|done|done].
  - destruct (Hl 0%nat (S i) nd a) as (k0 & ka & E0 & Ea & ?); [lia|done|done|].
    rewrite HD in E0. injection E0 as <-. exists ka, (S D).
    rewrite (Hnews b) by (by eapply list_elem_of_lookup_2). split_and!; try done; lia.
  - pose proof (lookup_lt_Some _ _ _ Hb). lia.
  - exists (S D), (S D). rewrite !Hnews; [split_and!; try done; lia| |]; by eapply list_elem_of_lookup_2.
Qed.

(** ** [step()] keeps both invariants *)

Section Step.
Context (s : solver) (nd : node) (rest : list node).
Hypothesis Hinv : bfs_inv s.
Hypothesis Hq : elements (queue s) = nd :: rest.

Local Abbreviation m := (maze s).
Local Abbreviation ns := (getNeighbors (maze s) (nx nd) (ny nd)).
Local Abbreviation after b c := (mkSolver (step_maze (maze s) nd) (mkQueue (step_queue (maze s) nd rest)) b c).

Lemma explored_mono x y :
  (explored m) @[x, y] = Some true → (explored (step_maze m nd)) @[x, y] = Some true.
Proof. intros He. rewrite (explored_after s nd Hinv). by case_decide. Qed.

(** The free neighbours of the popped cell are explored after the step. *)
Lemma closed_head c :
  c ∈ neighbours (nx nd) (ny nd) → free m c → (explored (step_maze m nd)) @[c.1, c.2] = Some true.
Proof.
  intros Hn [Hr Hw]. rewrite (explored_after s nd Hinv). case_decide as Hin; [done|].
  destruct (explored_some s c.1 c.2 Hinv Hr) as [[] Hb]; [done|].
  exfalso. apply Hin, getNeighbors_spec. by destruct c.
Qed.

Lemma reach_after b c : reach_inv s → reach_inv (after b c).
Proof.
  intros [Ho Hc]. constructor; simpl; [by apply explored_mono|].
  intros x y c' Hr Hf Hn Hfree.
  apply (finalized_after s nd rest Hinv Hq) in Hf as [E|Hf].
  - injection E as <- <-. by apply closed_head.
  - apply explored_mono. by apply (Hc x y).
Qed.
Hypothesis Hslow : no_slow (maze s).

(** Without Slow tiles the nodes pushed by the step are one further than
    the popped node. *)
Lemma new_nodes_dist D x :
  ndistance nd = Fin D → x ∈ new_nodes m (ndistance nd) ns → ndistance x = Fin (S D).
Proof.
  intros HD Hx. unfold new_nodes in Hx. apply list_elem_of_fmap in Hx as (p & -> & Hp).
  apply getNeighbors_spec in Hp as (_ & Hr & Hw & _). simpl.
  rewrite HD, (free_empty s p.1 p.2 Hinv Hslow Hr Hw). simpl. f_equal. lia.
Qed.

Lemma after_nodes_ge D nd' k' :
  layered (nd :: rest) → ndistance nd = Fin D →
  nd' ∈ step_queue m nd rest → ndistance nd' = Fin k' → (D ≤ k')%nat.
Proof.
  intros Hl HD Hin Hk. unfold step_queue in Hin. apply elem_of_app in Hin as [Hin|Hin].
  - by destruct (layered_head rest nd D nd' k' Hl HD) as [? _]; [right|..].
  - rewrite (new_nodes_dist D nd' HD Hin) in Hk. injection Hk as <-. lia.
Qed.

(** A free cell that was not explored before the step is at least one
    move further from the start than the popped node. *)
Lemma unexplored_far D c L :
  reach_inv s → order_inv s → ndistance nd = Fin D →
  (explored m) @[c.1, c.2] = Some false → walk m c L → (S D ≤ L)%nat.
Proof.
  intros [Ho Hc] [Hl _ Hopt] HD Hc0 Hw.
  set (P := λ c : Z * Z, bool_decide ((explored m) @[c.1, c.2] = Some true)).
  destruct (walk_exit m P c L Hw) as (c1 & L1 & c2 & Hw1 & Hp1 & HL & Hn & Hf2 & Hp2);
    [by apply bool_decide_eq_true|by apply bool_decide_eq_false; rewrite Hc0|].
  apply bool_decide_eq_true in Hp1. apply bool_decide_eq_false in Hp2.
  assert (Hr1 : in_range (size m) c1.1 c1.2) by (apply (walk_in_range _ _ L1); [apply (inv_shape s Hinv)|done]).
  destruct (proj1 (inv_explored s Hinv c1.1 c1.2 Hr1) Hp1) as [Hfin|Hque].
  { exfalso. apply Hp2. by apply (Hc c1.1 c1.2). }
  apply list_elem_of_fmap in Hque as (nd1 & E1 & Hnd1).
  destruct (queued_recorded s nd1 Hinv Hnd1) as (k1 & Hk1 & Hrec).
  assert (Hw1' : walk m (pos nd1) L1) by (rewrite <- E1; by destruct c1).
  pose proof (Hopt _ _ _ Hrec Hw1'). rewrite Hq in Hl, Hnd1.
  destruct (layered_head rest nd D nd1 k1 Hl HD Hnd1 Hk1). lia.
Qed.

Lemma order_after b c : reach_inv s → order_inv s → order_inv (after b c).
Proof.
  intros Hr Ho. pose proof Ho as [Hl Hb Hopt]. rewrite Hq in Hl.
  destruct (head_facts s nd rest Hinv Hq) as (_ & _ & D & HD & _).
  assert (Hfin : ∀ x y k, in_range (size m) x y → dist_at (step_maze m nd) x y = Fin k →
                   (k ≤ D)%nat ∧ recorded s (x, y) k).
  { intros x y k Hr' Hk. rewrite (dist_after s nd rest Hinv Hq) in Hk. case_decide as E.
    - rewrite HD in Hk. injection Hk as <-. split; [lia|]. right. exists nd.
      rewrite Hq. split_and!; [by left|done|done].
    - split; [|by left]. apply (Hb x y k nd D Hr' Hk); [rewrite Hq; by left|done]. }
  constructor; simpl.
  - apply (layered_pop_push nd rest _ D Hl HD). intros x. by apply new_nodes_dist.
  - intros x y k nd' k' Hr' Hk Hin Hk'.
    destruct (Hfin x y k Hr' Hk) as [? _]. pose proof (after_nodes_ge D nd' k' Hl HD Hin Hk'). lia.
  - intros c' k L [[Hr' Hk]|(nd' & Hin & Hpos & Hk)] Hw; rewrite step_board in Hw.
    + destruct c' as [x y]. apply (Hopt (x, y) k L); [by apply Hfin|done].
    + unfold step_queue in Hin. apply elem_of_app in Hin as [Hin|Hin].
      * apply (Hopt c' k L); [|done]. right. exists nd'. rewrite Hq. split_and!; [by right|done|done].
      * rewrite (new_nodes_dist D nd' HD Hin) in Hk. injection Hk as <-.
        apply (unexplored_far D c' L Hr Ho HD); [|done].
        apply (list_elem_of_fmap_2 pos) in Hin. rewrite pos_new_nodes, Hpos in Hin.
        by apply getNeighbors_spec in Hin as (_ & _ & _ & ?).
Qed.
End Step.

Lemma step_reach s s' :
  bfs_inv s → reach_inv s → Queue.isEmpty (queue s) = false → step s = Ok s' → reach_inv s'.
Proof.
  intros Hinv Hr He Hs. unfold Queue.isEmpty in He.
  destruct (elements (queue s)) as [|nd rest] eqn:Hq; [done|].
  rewrite (step_cons s nd rest Hinv Hq) in Hs. injection Hs as <-. by apply reach_after.
Qed.

Lemma step_order s s' :
  bfs_inv s → reach_inv s → no_slow (maze s) → order_inv s →
  Queue.isEmpty (queue s) = false → step s = Ok s' → order_inv s'.
Proof.
  intros Hinv Hr Hns Ho He Hs. unfold Queue.isEmpty in He.
  destruct (elements (queue s)) as [|nd rest] eqn:Hq; [done|].
  rewrite (step_cons s nd rest Hinv Hq) in Hs. injection Hs as <-. by apply order_after.
Qed.

Lemma no_slow_same s s' : same_tiles s s' → no_slow (maze s) → no_slow (maze s').
Proof. intros [Hs Hm]. assert (E : same_board (maze s) (maze s')) by done. by rewrite E. Qed.

Lemma steps_reach_order s s' :
  steps s s' → bfs_inv s → reach_inv s →
  reach_inv s' ∧ (no_slow (maze s) → order_inv s → order_inv s').
Proof.
  induction 1 as [|s s1 s2 He Hs _ IH]; intros Hinv Hr; [done|].
  destruct (step_inv s Hinv He) as (s1' & Hs1 & Hinv1). rewrite Hs in Hs1. injection Hs1 as <-.
  destruct (IH Hinv1) as [Hr2 Ho2]; [by apply (step_reach s)|].
  split; [done|]. intros Hns Ho. apply Ho2; [|by apply (step_order s)].
  apply (no_slow_same s); [by apply (step_same_tiles s s1 He)|done].
Qed.

(** A solver as [reset()] or the constructor leaves it satisfies both:
    nothing is finalized and the queue holds the start at distance 0. *)
Lemma seeded_reach_order s :
  bfs_inv s → elements (queue s) = [mkNode 0 0 (Fin 0)] →
  reset_fields (size (maze s)) (distances (maze s)) (explored (maze s)) →
  reach_inv s ∧ order_inv s.
Proof.
  intros Hinv Hq (_ & _ & Hcells).
  assert (Hnf : ∀ x y, in_range (size (maze s)) x y → ¬ finalized (maze s) x y).
  { intros x y Hr Hf. apply Hf. unfold dist_at. by rewrite (proj1 (Hcells x y Hr)). }
  assert (Hdist : ∀ x y k, in_range (size (maze s)) x y → dist_at (maze s) x y ≠ Fin k).
  { intros x y k Hr E. apply (Hnf x y Hr). unfold finalized. by rewrite E. }
  assert (Hr0 : in_range (size (maze s)) 0 0) by (pose proof (proj1 (inv_shape s Hinv)); unfold in_range; lia).
  split; constructor.
  - by rewrite (proj2 (Hcells 0 0 Hr0)), bool_decide_eq_true_2.
  - intros x y c Hr Hf. by destruct (Hnf x y Hr).
  - rewrite Hq. intros [|] [|] nd nd' ? H1 H2; simplify_eq/=; try done; [|lia..].
    exists 0%nat, 0%nat. split_and!; try done; lia.
  - intros x y k nd k' Hr Hk. by destruct (Hdist x y k Hr).
  - intros c k L [[Hr Hk]|(nd & Hnd & Hpos & Hk)] Hw; [by destruct (Hdist c.1 c.2 k Hr)|].
    rewrite Hq in Hnd. apply list_elem_of_singleton in Hnd as ->. simplify_eq/=. lia.
Qed.

(** Before the start is finalized, new tiles keep both invariants:
    nothing is finalized and the queue holds only the start, at distance
    0 (see [unlocked_queue]). *)
Lemma retile_reach_order s tiles :
  bfs_inv s → reach_inv s → order_inv s → ¬ finalized (maze s) 0 0 →
  let s' := mkSolver (mkMaze (size (maze s)) (wallFreq (maze s)) tiles (distances (maze s)) (explored (maze s)))
              (queue s) (solving s) (canvas s) in
  reach_inv s' ∧ order_inv s'.
Proof.
  intros Hinv [Ho Hc] [Hl Hb Hopt] H0 s'.
  assert (Hnf : ∀ x y, in_range (size (maze s)) x y → ¬ finalized (maze s) x y)
    by (intros x y Hr Hf; exact (H0 (finalized_origin s x y Hinv Hr Hf))).
  split; constructor; simpl; [done| |done| |].
  - intros x y c Hr Hf. by destruct (Hnf x y Hr).
  - intros x y k nd k' Hr Hk. destruct (Hnf x y Hr). unfold finalized, dist_at in *. simpl in Hk. by rewrite Hk.
  - intros c k L [[Hr Hk]|(nd & Hnd & Hpos & Hk)] _.
    + destruct (Hnf c.1 c.2 Hr). unfold finalized, dist_at in *. simpl in Hk. by rewrite Hk.
    + assert (pos nd = (0, 0)) as E by (apply (unlocked_queue s nd Hinv H0 Hnd)).
      assert (k ≤ 0)%nat by (apply (Hopt (0, 0) k 0%nat); [right; by exists nd|constructor]). lia.
Qed.

(** ** Completeness: with the queue empty, every cell a walk reaches is
    finalized *)

Lemma empty_queue_finalized s c L :
  bfs_inv s → reach_inv s → elements (queue s) = [] → walk (maze s) c L →
  finalized (maze s) c.1 c.2.
Proof.
  intros Hinv [Ho Hc] Hq. pose proof (proj1 (inv_shape s Hinv)) as Hs.
  induction 1 as [|c c' L Hw IH Hn Hf].
  - apply explored_unqueued; [done|unfold in_range; simpl; lia|done|rewrite Hq; apply not_elem_of_nil].
  - pose proof (walk_in_range _ _ _ Hs Hw) as Hr. destruct c' as [x' y'].
    apply explored_unqueued; [done|apply Hf|by apply (Hc c.1 c.2)|rewrite Hq; apply not_elem_of_nil].
Qed.

(** ** Soundness: every committed distance is the cost of a walk, hence
    at least its number of moves *)

Lemma final_walk s x y k :
  bfs_inv s → in_range (size (maze s)) x y → dist_at (maze s) x y = Fin k →
  ∃ L, (L ≤ k)%nat ∧ walk (maze s) (x, y) L.
Proof.
  intros Hinv. revert x y. induction k as [k IH] using (well_founded_induction lt_wf).
  intros x y Hr Hk.
  destruct (inv_final s Hinv x y Hr) as (k0 & Hk0 & [[E ->]|(x' & y' & k' & c & Hn & Hr' & Hd' & Hc & ->)]);
    [unfold finalized; by rewrite Hk|..]; rewrite Hk in Hk0; injection Hk0 as ->.
  - rewrite E. exists 0%nat. split; [lia|constructor].
  - assert (Hc1 : (1 ≤ c)%nat ∧ (map (maze s)) @[x, y] ≠ Some Wall)
      by (destruct ((map (maze s)) @[x, y]) as [[]|]; simpl in Hc; simplify_eq; split; try done; lia).
    destruct (IH k' ltac:(lia) x' y' Hr' Hd') as (L' & HL' & Hw').
    exists (S L'). split; [lia|]. apply (walk_move _ (x', y')); [done|by apply neighbours_sym|].
    split; [done|apply Hc1].
Qed.

Lemma solved_finalized m :
  maze_shape m → solved m = true ↔ finalized m (size m - 1) (size m - 1).
Proof.
  intros (Hs & [Hl _] & _). unfold solved, finalized, is_inf. rewrite Hl, Z2Nat.id by lia.
  case_decide; naive_solver.
Qed.

(** Everything that holds from [reset()] on, through any run of
    [step()]s. *)
Lemma from_reset s0 s1 s :
  0 < size (maze s0) → square (size (maze s0)) (map (maze s0)) →
  (∀ x y, in_range (size (maze s0)) x y → (map (maze s0)) @[x, y] ≠ Some Undef) →
  reset s0 = Ok s1 → steps s1 s →
  bfs_inv s ∧ reach_inv s ∧ (no_slow (maze s0) → order_inv s) ∧ same_tiles s0 s.
Proof.
  intros Hs Hsq Hdef Hreset Hst.
  destruct (reset_inv s0 Hs Hsq Hdef) as (s1' & Hr & Hinv1 & Hq1 & Hsz & Hmap & Hrf).
  rewrite Hreset in Hr. injection Hr as <-.
  destruct (seeded_reach_order s1 Hinv1 Hq1) as [Hr1 Ho1]; [by rewrite Hsz|].
  destruct (steps_reach_order s1 s Hst Hinv1 Hr1) as [Hr Ho].
  destruct (steps_same_tiles s1 s Hst) as [Hsz' Hmap'].
  split_and!; [by eapply steps_preserve_inv|done| |split; congruence].
  intros Hns. apply Ho; [|done]. apply (no_slow_same s0); [split; congruence|done].
Qed.

(** Every committed distance is the cost of a walk (Slow tiles
    allowed). *)
Lemma final_cwalk s x y k :
  bfs_inv s → in_range (size (maze s)) x y → dist_at (maze s) x y = Fin k → cwalk (maze s) (x, y) k.
Proof.
  intros Hinv. revert x y. induction k as [k IH] using (well_founded_induction lt_wf).
  intros x y Hr Hk.
  destruct (inv_final s Hinv x y Hr) as (k0 & Hk0 & [[E ->]|(x' & y' & k' & c & Hn & Hr' & Hd' & Hc & ->)]);
    [unfold finalized; by rewrite Hk|..]; rewrite Hk in Hk0; injection Hk0 as ->.
  - rewrite E. constructor.
  - assert (1 ≤ c)%nat by (destruct ((map (maze s)) @[x, y]) as [[]|]; simpl in Hc; simplify_eq; lia).
    apply (cwalk_move _ (x', y')); [apply IH; [lia|done|done]|by apply neighbours_sym|done|done].
Qed.

(** ** The path of [PathViewer.draw()] *)

(** Each cell of a chain is one unit closer to the start: a chain from a
    cell at distance [k] has at most [k] moves, through in-bounds cells
    with distances. *)
Lemma chain_fin m a p k :
  chain m a p → dist_at m a.1 a.2 = Fin k →
  (length p ≤ k)%nat ∧ Forall (λ b, in_range (size m) b.1 b.2 ∧ ∃ kb, dist_at m b.1 b.2 = Fin kb) p.
Proof.
  revert a k. induction p as [|b p IH]; intros a k Hc Hk; simpl; [split; [lia|constructor]|].
  destruct Hc as (_ & Hr & Hlt & Hc). rewrite Hk in Hlt.
  destruct (dist_at m b.1 b.2) as [kb| |] eqn:Hb; simpl in Hlt; try done.
  apply Nat.ltb_lt in Hlt. destruct (IH b kb Hc Hb) as [Hl Hall].
  split; [lia|]. constructor; [|done]. split; [done|by exists kb].
Qed.

(** A cell with a distance is free, given that the start is not a
    wall. *)
Lemma finalized_free s x y k :
  bfs_inv s → (map (maze s)) @[0, 0] ≠ Some Wall → in_range (size (maze s)) x y →
  dist_at (maze s) x y = Fin k → free (maze s) (x, y).
Proof.
  intros Hinv H0 Hr Hk. split; [done|]. simpl.
  destruct (inv_final s Hinv x y Hr) as (k' & _ & [[E _]|(x' & y' & k'' & c & _ & _ & _ & Hc & _)]);
    [unfold finalized; by rewrite Hk| |].
  - by injection E as -> ->.
  - intros E. by rewrite E in Hc.
Qed.

(** Read backwards, a chain ending at the start is a walk. *)
Lemma chain_walk m a p :
  chain m a p → list.last (a :: p) = Some (0, 0) → Forall (free m) (a :: p) → walk m a (length p).
Proof.
  revert a. induction p as [|b p IH]; intros a Hc Hl Hf.
  - injection Hl as ->. constructor.
  - destruct Hc as (Hn & _ & _ & Hc). apply Forall_cons in Hf as [Hfa Hf].
    apply (walk_move _ b); [by apply IH|destruct a, b; by apply neighbours_sym|done].
Qed.

(** Once the maze is solved, [draw()] paints a shortest walk: its number
    of moves is that of a walk from the start to the finish, and no walk
    is shorter. *)
Lemma drawn_path_shortest s :
  bfs_inv s → order_inv s → (map (maze s)) @[0, 0] ≠ Some Wall → solved (maze s) = true →
  let n := size (maze s) in
  ∃ p, draw (maze s) = ((n - 1, n - 1) :: p, Returned) ∧
       walk (maze s) (n - 1, n - 1) (length p) ∧ ∀ L, walk (maze s) (n - 1, n - 1) L → (length p ≤ L)%nat.
Proof.
  intros Hinv Ho H0 Hsol n. destruct (solved_goal_finite s Hinv Hsol) as [k Hk].
  destruct (draw_returns_path (maze s) k) as (p & Hd & Hc & Hl);
    [apply (inv_shape s Hinv)|by apply inv_descending|done|].
  destruct (chain_fin _ _ p k Hc Hk) as [Hlen Hall].
  assert (Hg : in_range n (n - 1) (n - 1)) by (pose proof (proj1 (inv_shape s Hinv)); unfold in_range; lia).
  exists p. split_and!; [done| |].
  - apply chain_walk; [done|done|]. constructor; [by apply (finalized_free s _ _ k)|].
    eapply Forall_impl; [exact Hall|]. intros [x y] (Hr & kb & Hkb). by apply (finalized_free s _ _ kb).
  - intros L Hw. pose proof (oi_optimal s Ho (n - 1, n - 1) k L) as Hopt.
    assert (k ≤ L)%nat by (apply Hopt; [left; by split|done]). lia.
Qed.

(** ** The meaning of the distances *)

(** A committed distance is the cost of a walk (see [final_walk]) and no
    walk is shorter (the order invariant): it is the length of a shortest
    walk. *)
Lemma exact_distance s x y k :
  bfs_inv s → order_inv s → in_range (size (maze s)) x y → dist_at (maze s) x y = Fin k →
  walk (maze s) (x, y) k ∧ ∀ L, walk (maze s) (x, y) L → (k ≤ L)%nat.
Proof.
  intros Hinv Ho Hr Hk. pose proof (oi_optimal s Ho (x, y) k) as Hopt.
  destruct (final_walk s x y k Hinv Hr Hk) as (L & HL & Hw).
  assert (Hrec : recorded s (x, y) k) by (left; by split).
  assert (L = k) as <- by (pose proof (Hopt L Hrec Hw); lia).
  split; [done|]. intros L'. by apply Hopt.
Qed.


(** [C2] Without Slow tiles, the search computes shortest distances:
    after [reset()] and any run of [step()]s, every committed distance
    [k] is the number of moves of a walk from the start through free
    cells, and no such walk is shorter. *)
Theorem shortest_distances s0 s1 s x y k :
  0 < size (maze s0) → square (size (maze s0)) (map (maze s0)) →
  (∀ x y, in_range (size (maze s0)) x y → (map (maze s0)) @[x, y] ≠ Some Undef) →
  no_slow (maze s0) → reset s0 = Ok s1 → steps s1 s →
  in_range (size (maze s)) x y → dist_at (maze s) x y = Fin k →
  walk (maze s) (x, y) k ∧ ∀ L, walk (maze s) (x, y) L → (k ≤ L)%nat.
Proof.
  intros Hs Hsq Hdef Hns Hreset Hst.
  destruct (from_reset s0 s1 s Hs Hsq Hdef Hreset Hst) as (Hinv & _ & Ho & _).
  by apply exact_distance; [|apply Ho].
Qed.

(** [C7] "No solution" is right: once the queue is empty and the finish
    has no distance, no walk from the start reaches the finish (Slow
    tiles allowed). *)
Theorem no_solution_unreachable s0 s1 s L :
  0 < size (maze s0) → square (size (maze s0)) (map (maze s0)) →
  (∀ x y, in_range (size (maze s0)) x y → (map (maze s0)) @[x, y] ≠ Some Undef) →
  reset s0 = Ok s1 → steps s1 s → Queue.isEmpty (queue s) = true → solved (maze s) = false →
  ¬ walk (maze s) (size (maze s) - 1, size (maze s) - 1) L.
Proof.
  intros Hs Hsq Hdef Hreset Hst He Hsol Hw.
  destruct (from_reset s0 s1 s Hs Hsq Hdef Hreset Hst) as (Hinv & Hr & _).
  unfold Queue.isEmpty in He. apply Nat.eqb_eq, nil_length_inv in He.
  pose proof (empty_queue_finalized s _ L Hinv Hr He Hw) as Hf.
  apply (solved_finalized (maze s)) in Hf; [congruence|apply (inv_shape s Hinv)].
Qed.

(** [C8] [skip()] after [reset()] (and any steps) decides reachability:
    it returns normally, and it ends with the maze solved exactly when
    some walk from the start reaches the finish. *)
Theorem skip_solves_iff_reachable s0 s1 s :
  0 < size (maze s0) → square (size (maze s0)) (map (maze s0)) →
  (∀ x y, in_range (size (maze s0)) x y → (map (maze s0)) @[x, y] ≠ Some Undef) →
  reset s0 = Ok s1 → steps s1 s →
  ∃ s', skip s = Ok s' ∧
        (solved (maze s') = true ↔ ∃ L, walk (maze s') (size (maze s') - 1, size (maze s') - 1) L).
Proof.
  intros Hs Hsq Hdef Hreset Hst.
  destruct (from_reset s0 s1 s Hs Hsq Hdef Hreset Hst) as (Hinv & Hr & _).
  destruct (skip_ok s Hinv) as (s2 & s' & Hst2 & Hc & Hskip & Hm & Hq & _).
  exists s'. split; [done|]. rewrite Hm.
  pose proof (steps_preserve_inv s s2 Hst2 Hinv) as Hinv2.
  pose proof (proj1 (steps_reach_order s s2 Hst2 Hinv Hr)) as Hr2.
  pose proof (inv_shape s2 Hinv2) as Hsh. rewrite (solved_finalized _ Hsh).
  assert (Hg : in_range (size (maze s2)) (size (maze s2) - 1) (size (maze s2) - 1))
    by (destruct Hsh; unfold in_range; lia).
  split.
  - intros Hf. destruct (dist_at (maze s2) (size (maze s2) - 1) (size (maze s2) - 1)) as [k| |] eqn:Hk;
      [|done|by destruct (inv_final s2 Hinv2 _ _ Hg Hf) as (? & ? & ?); congruence].
    destruct (final_walk s2 _ _ k Hinv2 Hg Hk) as (L & _ & Hw). by exists L.
  - intros [L Hw]. unfold canStep in Hc.
    destruct (solved (maze s2)) eqn:Hsol; [by apply (solved_finalized _ Hsh)|].
    simpl in Hc. apply negb_false_iff in Hc. unfold Queue.isEmpty in Hc.
    apply Nat.eqb_eq, nil_length_inv in Hc. exact (empty_queue_finalized s2 (_, _) L Hinv2 Hr2 Hc Hw).
Qed.

(** [C9] Breadth-first layering (spec section 8, "monotonicity"):
    without Slow tiles, after [reset()] and any run of [step()]s, the node
    the next [step()] dequeues has a distance [D], and every node in the
    queue after that step has a distance between [D] and [D + 1]; so the
    distances are dequeued in non-decreasing order. *)
Theorem dequeue_monotone s0 s1 s nd rest :
  0 < size (maze s0) → square (size (maze s0)) (map (maze s0)) →
  (∀ x y, in_range (size (maze s0)) x y → (map (maze s0)) @[x, y] ≠ Some Undef) →
  no_slow (maze s0) → reset s0 = Ok s1 → steps s1 s → elements (queue s) = nd :: rest →
  ∃ D s', ndistance nd = Fin D ∧ step s = Ok s' ∧
    ∀ nd', nd' ∈ elements (queue s') → ∃ k, ndistance nd' = Fin k ∧ (D ≤ k ≤ D + 1)%nat.
Proof.
  intros Hs Hsq Hdef Hns Hreset Hst Hq.
  destruct (from_reset s0 s1 s Hs Hsq Hdef Hreset Hst) as (Hinv & _ & Ho & [Hsz Hmap]).
  assert (Hns' : no_slow (maze s)) by (intros x y; rewrite Hsz, Hmap; apply Hns).
  pose proof (oi_layered s (Ho Hns)) as Hl. rewrite Hq in Hl.
  destruct (head_facts s nd rest Hinv Hq) as (_ & _ & D & HD & _).
  eexists D, _. split_and!; [done|by apply step_cons|]. simpl.
  intros nd' Hin. unfold step_queue in Hin. apply elem_of_app in Hin as [Hin|Hin].
  - destruct (inv_queued s Hinv nd') as (_ & _ & k & Hk & _); [rewrite Hq; by right|].
    exists k. split; [done|]. apply (layered_head rest nd D nd' k Hl HD); [by right|done].
  - exists (S D). split; [by apply (new_nodes_dist s nd Hinv Hns' D)|lia].
Qed.

(** [C10] The search never underestimates (spec section 9, the open
    question on Slow tiles): after [reset()] and any run of [step()]s,
    Slow tiles allowed, every committed distance is the cost of a walk
    from the start, the sum of the costs of the cells it enters; so it is
    at least the cost of the cheapest walk. *)
Theorem distances_are_walk_costs s0 s1 s x y k :
  0 < size (maze s0) → square (size (maze s0)) (map (maze s0)) →
  (∀ x y, in_range (size (maze s0)) x y → (map (maze s0)) @[x, y] ≠ Some Undef) →
  reset s0 = Ok s1 → steps s1 s →
  in_range (size (maze s)) x y → dist_at (maze s) x y = Fin k → cwalk (maze s) (x, y) k.
Proof.
  intros Hs Hsq Hdef Hreset Hst.
  destruct (from_reset s0 s1 s Hs Hsq Hdef Hreset Hst) as (Hinv & _).
  by apply final_cwalk.
Qed.

End Shortest.
