(* ===== verification/App.v ===== *)
(** The page around the solver (src/main.js): [ControlsHandler] (lines
    416-468), [BlockPlacer] (lines 43-110), [SettingsHandler] (lines
    115-140), [BlockSelector] (lines 8-37) and [setup()] (lines 511-530),
    as one application state and one handler per DOM event.  All these
    objects share one [Maze]; here it is the maze of the solver.  The
    1 ms interval is the [Tick] event; the canvas's click, mousemove and
    mouseout listeners carry the mouse position.  The preview
    [drawBlock] and [redrawMaze] are the lists of p5.js calls of
    [Render]; what the handlers draw on the maze buffer is in [View];
    CSS classes are not modelled. *)

From S2P Require Import Prelude Grid Render Queue PathViewer Solver.
From Stdlib Require Import QArith Qround String.
Open Scope Z_scope.
Open Scope grid_scope.

Module App.
Import Maze Queue Solver.

(** What the page keeps between events: the solver (and through it the
    shared maze), the block chosen in the selector, and the position in
    the Math.random stream. *)
Record app := mkApp {
  mazeSolver : solver;
  active : string;
  draws : nat
}.

Definition set_solver (s : solver) (a : app) : app := mkApp s (active a) (draws a).

Definition with_tiles (tiles : list (list tile)) (s : solver) : solver :=
  let m := maze s in
  mkSolver (mkMaze (size m) (wallFreq m) tiles (distances m) (explored m)) (queue s) (solving s) (canvas s).

(** [BlockSelector.activate(event)]: [this.active = event.target.id]. *)
Definition activate (id : string) (a : app) : app := mkApp (mazeSolver a) id (draws a).

(** [BlockPlacer.blockToTile(block)]: no branch for other ids, which
    yield [undefined]. *)
Definition blockToTile (block : string) : tile :=
  if String.eqb block "erase" then Empty
  else if String.eqb block "wall" then Wall
  else Undef.

(** [BlockPlacer.getInfo()]: the tile under the mouse and the tile of
    the active block.  [maze.width] is [Render.width], the value
    [setUpMaze] sets together with [size]; the divisions are exact
    rationals where JS rounds to doubles. *)
Definition getInfo (m : Maze.maze) (mouseX mouseY : Q) (a : app) : Q * Z * Z * tile :=
  let width := Render.width m in
  (width, Qfloor (mouseX / width)%Q, Qfloor (mouseY / width)%Q, blockToTile (active a)).

(** [BlockPlacer.setBlock()]: only while [distances[0][0] === Infinity];
    writes the tile under the mouse, then [clearEnds()]. *)
Definition setBlock (mouseX mouseY : Q) (a : app) : outcome app :=
  let s := mazeSolver a in
  if is_inf (dist_at (maze s) 0 0) then
    let '(_, xPos, yPos, tile) := getInfo (maze s) mouseX mouseY a in
    match clearEnds (wr2 (map (maze s)) xPos yPos tile) with
    | Some tiles => Ok (set_solver (with_tiles tiles s) a)
    | None => Throw a
    end
  else Ok a.

(** [BlockPlacer.handleBlockDrawing(event)]: a move with the button
    pressed paints; otherwise [drawBlock()] only draws the preview (see
    [drawBlock]) and the state is unchanged. *)
Definition handleBlockDrawing (mouseIsPressed : bool) (mouseX mouseY : Q) (a : app) : outcome app :=
  if mouseIsPressed then setBlock mouseX mouseY a else Ok a.

(** [BlockPlacer.drawBlock()]: while painting is allowed, the maze and
    a preview of the active block on the tile under the mouse, drawn on
    the canvas. *)
Definition drawBlock (mouseX mouseY : Q) (a : app) : list Render.cmd :=
  let m := maze (mazeSolver a) in
  if is_inf (dist_at m 0 0) then
    let '(width, xPos, yPos, tile) := getInfo m mouseX mouseY a in
    Render.draw m ++ Render.setFill (Some tile) ++
    [Render.StrokeWeight 3; Render.Rect (inject_Z xPos * width) (inject_Z yPos * width) width width]
  else [].

(** [BlockPlacer.redrawMaze()]: when the mouse leaves the canvas. *)
Definition redrawMaze (a : app) : list Render.cmd :=
  if is_inf (dist_at (maze (mazeSolver a)) 0 0) then Render.draw (maze (mazeSolver a)) else [].

(** [ControlsHandler.play()]. *)
Definition ch_play (a : app) : outcome app :=
  if canStep (mazeSolver a) then Ok (set_solver (Solver.play (mazeSolver a)) a) else Ok a.

(** [ControlsHandler.pause()]. *)
Definition ch_pause (a : app) : app := set_solver (Solver.pause (mazeSolver a)) a.

(** [ControlsHandler.step()]: pause, then one step if [canStep()]. *)
Definition ch_step (a : app) : outcome app :=
  let a1 := ch_pause a in
  if canStep (mazeSolver a1)
  then and_then (Solver.step (mazeSolver a1)) (λ s, Ok (set_solver s a1)) (λ s, set_solver s a1)
  else Ok a1.

(** [ControlsHandler.skip()]: pause, then [mazeSolver.skip()]. *)
Definition ch_skip (a : app) : outcome app :=
  let a1 := ch_pause a in
  and_then (Solver.skip (mazeSolver a1)) (λ s, Ok (set_solver s a1)) (λ s, set_solver s a1).

(** [ControlsHandler.restart()]: pause (twice), then [mazeSolver.reset()]. *)
Definition ch_restart (a : app) : outcome app :=
  let a1 := set_solver (Solver.pause (Solver.pause (mazeSolver a))) a in
  and_then (Solver.reset (mazeSolver a1)) (λ s, Ok (set_solver s a1)) (λ s, set_solver s a1).

(** [SettingsHandler.resetMaze()] with the numbers read from the form:
    [setUpMaze], then [controlsHandler.restart()]. *)
Definition resetMaze (random : nat → Q) (size : Z) (wallFreq : Q) (a : app) : outcome app :=
  let s := mazeSolver a in
  and_then (setUpMaze random size wallFreq (maze s) (draws a))
    (λ '(m, k), ch_restart (mkApp (set_maze m s) (active a) k))
    (λ '(m, k), mkApp (set_maze m s) (active a) k).

(** The events of the page. *)
Inductive ui_event :=
| Tick
| ClickPlay | ClickPause | ClickStep | ClickSkip | ClickRestart
| MouseMove (mouseIsPressed : bool) (mouseX mouseY : Q) | CanvasClick (mouseX mouseY : Q) | MouseOut
| Activate (id : string)
| ResetMaze (size : Z) (wallFreq : Q).

Definition handle (random : nat → Q) (e : ui_event) (a : app) : outcome app :=
  match e with
  | Tick => and_then (solveLoop (mazeSolver a)) (λ s, Ok (set_solver s a)) (λ s, set_solver s a)
  | ClickPlay => ch_play a
  | ClickPause => Ok (ch_pause a)
  | ClickStep => ch_step a
  | ClickSkip => ch_skip a
  | ClickRestart => ch_restart a
  | MouseMove p mx my => handleBlockDrawing p mx my a
  | CanvasClick mx my => setBlock mx my a
  | MouseOut => Ok a
  | Activate id => Ok (activate id a)
  | ResetMaze size w => resetMaze random size w a
  end.

(** [setup()]: [new Maze(DEFAULTSIZE = 20, DEFAULTWALLFREQ = 0)], the
    solver, and the selector with ['wall'] active. *)
Definition DEFAULTSIZE : Z := 20.
Definition DEFAULTWALLFREQ : Q := 0.

Definition setup (random : nat → Q) : outcome app :=
  and_then (newMaze random DEFAULTSIZE DEFAULTWALLFREQ 0)
    (λ '(m, k), Ok (mkApp (newSolver m) "wall" k))
    (λ '(m, k), mkApp (newSolver m) "wall" k).

(** The mouse is on the canvas. *)
Definition on_canvas (mouseX mouseY : Q) : bool :=
  Qle_bool 0 mouseX && negb (Qle_bool Render.CANVASSIZE mouseX) &&
  Qle_bool 0 mouseY && negb (Qle_bool Render.CANVASSIZE mouseY).

(** The events the page can deliver: the canvas's mouse events come with
    the mouse on the canvas, the selector offers the blocks ['wall'] and
    ['erase'], and the settings form gives a positive size. *)
Definition page_event (a : app) (e : ui_event) : Prop :=
  match e with
  | MouseMove _ mx my | CanvasClick mx my => on_canvas mx my = true
  | Activate id => id = "wall"%string ∨ id = "erase"%string
  | ResetMaze size _ => 0 < size
  | _ => True
  end.

#[export] Instance page_event_dec a e : Decision (page_event a e).
Proof.
  destruct e; simpl; try apply _.
  destruct (String.string_dec id "wall"), (String.string_dec id "erase");
    [left; by left|left; by left|left; by right|right; intros [?|?]; contradiction].
Defined.

Inductive reachable (random : nat → Q) : app → Prop :=
| reach_setup a : setup random = Ok a → reachable random a
| reach_event a e a' : reachable random a → page_event a e → handle random e a = Ok a' → reachable random a'.

(** ** The tile under the mouse *)

(** With the mouse on the canvas, [getInfo()] names a tile of the
    board. *)
Lemma getInfo_in_range m mx my a :
  0 < size m → on_canvas mx my = true →
  let '(_, x, y, _) := getInfo m mx my a in in_range (size m) x y.
Proof.
  intros Hs Hc. unfold on_canvas in Hc. rewrite !andb_true_iff, !negb_true_iff in Hc.
  destruct Hc as [[[H1 H2] H3] H4]. apply Qle_bool_iff in H1, H3.
  assert (Hlt : ∀ q, Qle_bool Render.CANVASSIZE q = false → (q < Render.CANVASSIZE)%Q).
  { intros q Hq. apply Qnot_le_lt. intros Hle. apply Qle_bool_iff in Hle. congruence. }
  split; apply Render.floor_on_board; auto.
Qed.

Lemma getInfo_tile m mx my a x y :
  0 < size m →
  (let '(_, xP, yP, _) := getInfo m mx my a in xP = x ∧ yP = y) ↔ Render.inside (Render.tile_rect m x y) mx my.
Proof. intros Hs. apply Render.floor_inside, Hs. Qed.

(** ** The preview of [drawBlock] *)

Lemma rects_drawBlock mx my a :
  let m := maze (mazeSolver a) in
  is_inf (dist_at m 0 0) = true →
  Render.rects (drawBlock mx my a) =
    [Render.tile_rect m (Qfloor (mx / Render.width m)%Q) (Qfloor (my / Render.width m)%Q)].
Proof.
  intros m Hinf. unfold drawBlock. fold m. rewrite Hinf. simpl.
  by destruct (blockToTile (active a)).
Qed.

Lemma drawBlock_solving mx my a :
  is_inf (dist_at (maze (mazeSolver a)) 0 0) = false → drawBlock mx my a = [] ∧ redrawMaze a = [].
Proof. intros H. unfold drawBlock, redrawMaze. by rewrite H. Qed.

(** [C25] Pixel and tile round trip: [getInfo()] maps the mouse to the
    tile (x, y) exactly when the mouse lies in the square
    [drawTile(x, y, tile)] draws for that tile, whatever the tile. *)
Theorem getInfo_drawTile_roundtrip m mx my a x y t :
  0 < size m →
  (let '(_, xP, yP, _) := getInfo m mx my a in xP = x ∧ yP = y) ↔
  ∀ r, r ∈ Render.rects (Render.drawTile m x y t) → Render.inside r mx my.
Proof.
  intros Hs. rewrite getInfo_tile, Render.rects_drawTile by done. set_solver.
Qed.

(** [C29] The preview [drawBlock()] draws while painting is allowed, with
    the mouse on the canvas, is one rectangle: a square [resetBuffer()]
    draws for a tile of the board, and the one under the mouse. *)
Theorem drawBlock_preview_under_mouse mx my a :
  let m := maze (mazeSolver a) in
  0 < size m → on_canvas mx my = true → is_inf (dist_at m 0 0) = true →
  ∃ r, Render.rects (drawBlock mx my a) = [r] ∧ r ∈ Render.rects (Render.resetBuffer m) ∧ Render.inside r mx my.
Proof.
  intros m Hs Hc Hinf. rewrite rects_drawBlock by done. eexists. split; [done|]. split.
  - apply Render.elem_rects_resetBuffer. eexists _, _. split; [|done].
    apply (getInfo_in_range m mx my a Hs Hc).
  - by apply Render.floor_inside.
Qed.

End App.
