(* ===== verification/AppInv.v ===== *)
(** The invariant of the whole page (src/main.js): in every state reached
    from [setup()] through events the page can deliver, the solver
    satisfies [bfs_inv] and the two invariants of [Shortest], the board
    has no Slow tile, the selected block is one [blockToTile] knows, and
    both ends of the maze are empty.  Consequences: no handler throws or
    hangs, painting is ignored once the search has finalized a cell, a
    tick on a solved page paints a correct path, every distance shown is
    a shortest one, and the "no solution" error is right. *)

From S2P Require Import Prelude Grid Queue PathViewer Solver SolverInv Shortest App.
From Stdlib Require Import QArith String.
Open Scope Z_scope.
Open Scope grid_scope.

Module AppInv.
Import Maze Queue PathViewer Solver SolverInv Shortest App.

Definition known_block (id : string) : Prop := id = "wall"%string ∨ id = "erase"%string.

(** The start (0, 0) and the finish (size-1, size-1) are empty tiles. *)
Definition ends_empty (m : Maze.maze) : Prop :=
  (map m) @[0, 0] = Some Empty ∧ (map m) @[size m - 1, size m - 1] = Some Empty.

(** What the page keeps of its solver: the search invariant, the closure
    of the explored region, the breadth-first order, and a board without
    Slow tiles. *)
Record solver_inv (s : solver) : Prop := {
  si_bfs : bfs_inv s;
  si_reach : reach_inv s;
  si_order : order_inv s;
  si_noslow : no_slow (maze s)
}.

Record app_inv (a : app) : Prop := {
  ai_solver : solver_inv (mazeSolver a);
  ai_block : known_block (active a);
  ai_ends : ends_empty (maze (mazeSolver a))
}.

(** [n] ticks of the 1 ms interval. *)
Fixpoint ticks (random : nat → Q) (n : nat) (a : app) : outcome app :=
  match n with
  | O => Ok a
  | S n' => and_then (handle random Tick a) (ticks random n') id
  end.

Lemma ai_bfs a : app_inv a → bfs_inv (mazeSolver a).
Proof. intros Ha. apply (si_bfs _ (ai_solver a Ha)). Qed.

(** ** The solver's operations *)

Lemma solver_inv_ext s s' : maze s' = maze s → queue s' = queue s → solver_inv s → solver_inv s'.
Proof.
  intros Hm Hq [Hinv Hr Ho Hns]. constructor.
  - destruct s' as [m' q' b c]. simpl in *. subst. by apply bfs_inv_canvas.
  - by apply (reach_inv_ext s).
  - by apply (order_inv_ext s).
  - by rewrite Hm.
Qed.

Lemma step_ok s :
  solver_inv s → Queue.isEmpty (queue s) = false →
  ∃ s', step s = Ok s' ∧ solver_inv s' ∧ same_tiles s s'.
Proof.
  intros [Hinv Hr Ho Hns] He. destruct (step_inv s Hinv He) as (s' & Hs & Hinv').
  pose proof (step_same_tiles s s' He Hs) as Hsame.
  exists s'. split_and!; [done| |done].
  constructor; [done|by apply (step_reach s)|by apply (step_order s)|by apply (no_slow_same s)].
Qed.

Lemma solveLoop_ok s :
  solver_inv s → ∃ s', solveLoop s = Ok s' ∧ solver_inv s' ∧ same_tiles s s'.
Proof.
  intros Hs. pose proof (si_bfs s Hs) as Hinv. unfold solveLoop.
  destruct (solving s); [|by exists s].
  destruct (solved (maze s)) eqn:Hsol.
  - destruct (drawPath_solved s Hinv Hsol) as (p & -> & _). simpl.
    eexists; split_and!; [done|by apply (solver_inv_ext s)|done].
  - destruct (Queue.isEmpty (queue s)) eqn:He; [|by apply step_ok].
    eexists; split_and!; [done|by apply (solver_inv_ext s)|done].
Qed.

Lemma skip_keeps s : solver_inv s → ∃ s', skip s = Ok s' ∧ solver_inv s' ∧ same_tiles s s'.
Proof.
  intros [Hinv Hr Ho Hns].
  destruct (skip_ok s Hinv) as (s1 & s' & Hst & _ & -> & Hm & Hq & Hinv').
  destruct (steps_reach_order s s1 Hst Hinv Hr) as [Hr1 Ho1].
  pose proof (steps_same_tiles s s1 Hst) as Hsame.
  eexists; split_and!; [done| |destruct Hsame; split; by rewrite Hm].
  constructor; [done|by apply (reach_inv_ext s1)|apply (order_inv_ext s1); auto|].
  rewrite Hm. by apply (no_slow_same s).
Qed.

(** [reset()] needs only a well-formed tile array. *)
Lemma restart_ok a :
  0 < size (maze (mazeSolver a)) → square (size (maze (mazeSolver a))) (map (maze (mazeSolver a))) →
  (∀ x y, in_range (size (maze (mazeSolver a))) x y → (map (maze (mazeSolver a))) @[x, y] ≠ Some Undef) →
  no_slow (maze (mazeSolver a)) →
  ∃ a', ch_restart a = Ok a' ∧ solver_inv (mazeSolver a') ∧ active a' = active a ∧
        same_tiles (mazeSolver a) (mazeSolver a').
Proof.
  intros Hs Hsq Hdef Hns. unfold ch_restart. cbn [mazeSolver set_solver].
  destruct (reset_inv (Solver.pause (Solver.pause (mazeSolver a)))) as (s' & -> & Hinv & Hq & Hsz & Hmap & Hrf);
    [done..|].
  destruct (seeded_reach_order s' Hinv Hq) as [Hr Ho]; [by rewrite Hsz|].
  simpl. eexists; split_and!; [done| |done|done].
  constructor; [done|done|done|]. apply (no_slow_same (mazeSolver a)); [split; [exact Hsz|exact Hmap]|exact Hns].
Qed.

Lemma blockToTile_known id : known_block id → blockToTile id ≠ Undef ∧ blockToTile id ≠ Slow.
Proof. by intros [-> | ->]. Qed.

Lemma inv_restart_pre s :
  bfs_inv s →
  0 < size (maze s) ∧ square (size (maze s)) (map (maze s)) ∧
  (∀ x y, in_range (size (maze s)) x y → (map (maze s)) @[x, y] ≠ Some Undef).
Proof.
  intros Hinv. destruct (inv_shape s Hinv) as (Hs & Hsq & _).
  split_and!; [done|done|apply (inv_defined s Hinv)].
Qed.

Lemma ends_same_tiles s s' : same_tiles s s' → ends_empty (maze s) → ends_empty (maze s').
Proof. intros [Hs Hm]. unfold ends_empty. by rewrite Hs, Hm. Qed.

(** ** Painting *)

Lemma setBlock_ok a mx my :
  app_inv a → on_canvas mx my = true → ∃ a', setBlock mx my a = Ok a' ∧ app_inv a'.
Proof.
  intros [[Hinv Hr Ho Hns] Hblk Hends] Hcv. unfold setBlock.
  destruct (is_inf (dist_at (maze (mazeSolver a)) 0 0)) eqn:Hlock; [|by exists a].
  assert (H0 : ¬ finalized (maze (mazeSolver a)) 0 0)
    by (unfold finalized, is_inf in *; case_decide; [tauto|done]).
  destruct (inv_restart_pre _ Hinv) as (Hs & Hsq & Hdef).
  pose proof (getInfo_in_range (maze (mazeSolver a)) mx my a Hs Hcv) as Hxy.
  destruct (getInfo _ _ _ _) as [[[w x] y] t] eqn:Hgi.
  assert (t = blockToTile (active a)) as -> by (unfold getInfo in Hgi; congruence).
  destruct (blockToTile_known _ Hblk) as [Hbu Hbs].
  destruct (clearEnds_spec (size (maze (mazeSolver a))) (wr2 (map (maze (mazeSolver a))) x y (blockToTile (active a))))
    as (g & -> & Hsqg & Hg); [auto with grid|done|].
  assert (Hcell : ∀ x' y', in_range (size (maze (mazeSolver a))) x' y' →
            g @[x', y'] ≠ Some Undef ∧ g @[x', y'] ≠ Some Slow).
  { intros x' y' Hr'. rewrite Hg. case_decide; [done|].
    rewrite (rd2_wr2 (size (maze (mazeSolver a)))) by done.
    case_decide; [split; congruence|split; [by apply Hdef|by apply Hns]]. }
  destruct (retile_reach_order (mazeSolver a) g Hinv Hr Ho H0) as [Hr' Ho'].
  eexists; split; [done|]. constructor; [constructor|done|]; simpl.
  - apply retile_inv; [done|done|done|]. intros x' y' Hr''. by apply Hcell.
  - exact Hr'.
  - exact Ho'.
  - intros x' y' Hr''. by apply Hcell.
  - unfold ends_empty. simpl. rewrite !Hg.
    rewrite !decide_True; [done| |]; unfold is_end; [by right|by left].
Qed.

(** ** A new maze from the settings form *)

Lemma fresh_tiles random size w k m :
  fresh_maze random size w k m →
  ∀ x y, in_range (Maze.size m) x y → (map m) @[x, y] ≠ Some Undef ∧ (map m) @[x, y] ≠ Some Slow.
Proof.
  intros (_ & Hsz & _ & _ & Hcells) x y Hr. rewrite Hsz in Hr. rewrite (Hcells x y Hr).
  case_decide; [done|]. unfold getTile. by destruct (Qlt_le_dec _ _).
Qed.

Lemma resetMaze_ok random size w a :
  app_inv a → 0 < size → ∃ a', resetMaze random size w a = Ok a' ∧ app_inv a'.
Proof.
  intros [_ Hblk Hends] Hs. unfold resetMaze.
  destruct (setUpMaze_ok random size w (maze (mazeSolver a)) (draws a) Hs) as (m & -> & Hfresh).
  pose proof Hfresh as ((Hs' & Hsq & _) & Hsz & _ & _ & Hcells). simpl.
  destruct (restart_ok (mkApp (set_maze m (mazeSolver a)) (active a) (draws a + Z.to_nat size * Z.to_nat size)))
    as (a' & -> & Hinv' & Hact & Hsame); simpl; [done|done| | |];
    try (intros x y Hr; by apply (fresh_tiles _ _ _ _ _ Hfresh)).
  eexists; split; [done|]. constructor; [done|by rewrite Hact|].
  apply (ends_same_tiles (set_maze m (mazeSolver a))); [done|]. unfold ends_empty. simpl.
  rewrite Hsz in *. rewrite !Hcells by (split; lia).
  rewrite !decide_True; [done| |]; unfold is_end; [by right|by left].
Qed.

(** ** The page after [setup()] *)

Lemma setup_ok random : ∃ a, setup random = Ok a ∧ app_inv a.
Proof.
  unfold setup, newMaze.
  destruct (setUpMaze_ok random DEFAULTSIZE DEFAULTWALLFREQ (mkMaze 0 0 [] [] []) 0) as (m & -> & Hfresh);
    [unfold DEFAULTSIZE; lia|].
  pose proof Hfresh as ((Hs & Hsq & _) & Hsz & _ & Hrf & Hcells).
  assert (Hinv : bfs_inv (newSolver m)).
  { apply fresh_inv; [done|done| |by rewrite <- Hsz in Hrf].
    intros x y Hr. by apply (fresh_tiles _ _ _ _ _ Hfresh). }
  destruct (seeded_reach_order (newSolver m) Hinv eq_refl) as [Hr Ho]; [simpl; by rewrite Hsz|].
  eexists; split; [done|]. constructor; [constructor|by left|]; simpl; try done.
  - intros x y Hr'. by apply (fresh_tiles _ _ _ _ _ Hfresh).
  - unfold ends_empty. simpl. rewrite Hsz, !Hcells by (unfold DEFAULTSIZE; split; lia).
    rewrite !decide_True; [done| |]; unfold is_end; [by right|by left].
Qed.

(** ** Every handler keeps the invariant *)

Lemma app_inv_set a s :
  app_inv a → solver_inv s → same_tiles (mazeSolver a) s → app_inv (set_solver s a).
Proof. intros [_ Hblk Hends] Hinv Hsame. constructor; [done|done|]. by eapply ends_same_tiles. Qed.

Lemma pause_inv a : app_inv a → app_inv (ch_pause a).
Proof.
  intros Ha. apply app_inv_set; [done| |done].
  apply (solver_inv_ext (mazeSolver a)); [done|done|apply Ha].
Qed.

Lemma handle_ok random e a :
  app_inv a → page_event a e → ∃ a', handle random e a = Ok a' ∧ app_inv a'.
Proof.
  intros Ha He. pose proof (ai_solver a Ha) as Hs.
  destruct e as [| | | | | |[] mx my|mx my| |id|sz w]; simpl in He |- *.
  - destruct (solveLoop_ok _ Hs) as (s' & -> & Hs' & Hsame).
    eexists; split; [done|]. by apply app_inv_set.
  - unfold ch_play. destruct (canStep _); eexists; (split; [done|]); [|done].
    apply app_inv_set; [done|by apply (solver_inv_ext (mazeSolver a))|done].
  - eexists; split; [done|]. by apply pause_inv.
  - unfold ch_step. pose proof (pause_inv a Ha) as Hp.
    destruct (canStep (mazeSolver (ch_pause a))) eqn:Hc; [|by eexists].
    assert (Queue.isEmpty (queue (mazeSolver (ch_pause a))) = false) as Hne
      by (unfold canStep in Hc; by apply andb_prop in Hc as [_ ?%negb_true_iff]).
    destruct (step_ok _ (ai_solver _ Hp) Hne) as (s' & -> & Hs' & Hsame).
    eexists; split; [done|]. by apply app_inv_set.
  - unfold ch_skip. pose proof (pause_inv a Ha) as Hp.
    destruct (skip_keeps _ (ai_solver _ Hp)) as (s' & -> & Hs' & Hsame).
    eexists; split; [done|]. by apply app_inv_set.
  - destruct (inv_restart_pre _ (si_bfs _ Hs)) as (Hsz & Hsq & Hdef).
    destruct (restart_ok a Hsz Hsq Hdef (si_noslow _ Hs)) as (a' & -> & Hs' & Hact & Hsame).
    eexists; split; [done|]. constructor; [done|rewrite Hact; apply Ha|].
    eapply ends_same_tiles; [done|apply Ha].
  - by apply setBlock_ok.
  - by exists a.
  - by apply setBlock_ok.
  - by exists a.
  - eexists; split; [done|]. constructor; [apply Ha|done|apply Ha].
  - by apply resetMaze_ok.
Qed.

Lemma reachable_inv random a : reachable random a → app_inv a.
Proof.
  induction 1 as [a Hs|a e a' _ IH He Hh].
  - destruct (setup_ok random) as (a' & Hs' & Ha'). congruence.
  - destruct (handle_ok random e a IH He) as (a'' & Hh' & Ha''). congruence.
Qed.

(** [C27] The values the page keeps in its three arrays have the types
    the code expects: on every page the events reach, every cell of the
    board holds the tile code 0 or 1, a distance that is a whole number
    or [Infinity] (never NaN or undefined), and an explored flag. *)
Theorem page_well_typed random a x y :
  reachable random a → in_range (size (maze (mazeSolver a))) x y →
  let m := maze (mazeSolver a) in
  ((map m) @[x, y] = Some Empty ∨ (map m) @[x, y] = Some Wall) ∧
  (dist_at m x y = Inf ∨ ∃ k, dist_at m x y = Fin k) ∧
  ∃ b, (explored m) @[x, y] = Some b.
Proof.
  intros Hreach Hxy m. destruct (reachable_inv random a Hreach) as [[Hinv _ _ Hns] _ _].
  destruct (inv_shape _ Hinv) as (_ & Hsqm & _ & Hsqe). split_and!.
  - destruct (rd2_square _ _ x y Hsqm Hxy) as [[] Ht]; [by left|by right| |];
      [destruct (Hns x y Hxy Ht)|destruct (inv_defined _ Hinv x y Hxy Ht)].
  - destruct (decide (dist_at m x y = Inf)) as [|Hf]; [by left|right].
    destruct (inv_final _ Hinv x y Hxy Hf) as (k & Hk & _). by exists k.
  - by apply (rd2_square _ _ x y Hsqe).
Qed.

(** ** The timer *)

Lemma set_solver_self a : set_solver (mazeSolver a) a = a.
Proof. by destruct a. Qed.

Lemma ticks_paused random n a : solving (mazeSolver a) = false → ticks random n a = Ok a.
Proof.
  intros H. induction n as [|n IH]; [done|]. simpl. unfold solveLoop. rewrite H. simpl.
  by rewrite set_solver_self.
Qed.

Lemma ticks_reachable random n a a' :
  reachable random a → ticks random n a = Ok a' → reachable random a'.
Proof.
  revert a. induction n as [|n IH]; intros a Hr Ht; cbn [ticks] in Ht; [congruence|].
  destruct (handle random Tick a) as [a1| |] eqn:Hh; [|done|done].
  apply (IH a1); [by apply (reach_event _ a Tick)|done].
Qed.

(** Every tick of a running solver either stops it or steps, and a step
    decreases [measure]. *)
Lemma ticks_stop random n a :
  app_inv a → (measure (mazeSolver a) < n)%nat →
  ∃ a', ticks random n a = Ok a' ∧ solving (mazeSolver a') = false.
Proof.
  revert a. induction n as [|n IH]; intros a Ha Hn; [lia|].
  destruct (solving (mazeSolver a)) eqn:Hsv; [|exists a; split; [by apply ticks_paused|done]].
  cbn [ticks handle]. unfold solveLoop. rewrite Hsv.
  pose proof (ai_solver a Ha) as Hs. set (s := mazeSolver a) in *.
  destruct (solved (maze s)) eqn:Hsol.
  { destruct (drawPath_solved s (si_bfs s Hs) Hsol) as (p & -> & _). simpl.
    eexists; split; [by apply ticks_paused|done]. }
  destruct (Queue.isEmpty (queue s)) eqn:He; [simpl; eexists; split; [by apply ticks_paused|done]|].
  destruct (step_ok s Hs He) as (s' & Hs' & Hsi' & Hsame). rewrite Hs'. simpl.
  unfold Queue.isEmpty in He. destruct (elements (queue s)) as [|nd rest] eqn:Hq; [done|].
  pose proof (step_measure s nd rest (si_bfs s Hs) Hq) as Hm.
  rewrite (step_cons s nd rest (si_bfs s Hs) Hq) in Hs'. injection Hs' as <-.
  apply IH; [by apply app_inv_set|simpl in *; lia].
Qed.

(** ** The page as a whole *)

(** [C11] No event the page delivers makes a handler throw or hang: from
    every state reachable from [setup()], each click, tick, paint,
    selection and settings submission returns normally, to a reachable
    state. *)
Theorem app_never_throws random a e :
  reachable random a → page_event a e →
  ∃ a', handle random e a = Ok a' ∧ reachable random a'.
Proof.
  intros Hr He. destruct (handle_ok random e a (reachable_inv random a Hr) He) as (a' & Hh & _).
  exists a'. split; [done|]. by eapply reach_event.
Qed.

(** [C14] In every reachable state the solver satisfies the search
    invariant, the selected block is 'wall' or 'erase', and the start and
    the finish are empty tiles ([clearEnds()] after every paint,
    [setUpMaze()] on every new maze). *)
Theorem reachable_app_inv random a : reachable random a → app_inv a.
Proof. apply reachable_inv. Qed.

(** [C19] Painting is locked during a search: once any cell of the
    board has a committed distance, a click on the canvas and a move
    with the button pressed ([setBlock()]) leave the page as it is,
    wherever the mouse is. *)
Theorem paint_ignored_while_solving random a x y mx my :
  reachable random a → in_range (size (maze (mazeSolver a))) x y →
  finalized (maze (mazeSolver a)) x y →
  handle random (CanvasClick mx my) a = Ok a ∧ handle random (MouseMove true mx my) a = Ok a.
Proof.
  intros Hr Hxy Hf. pose proof (ai_bfs _ (reachable_inv random a Hr)) as Hinv.
  pose proof (finalized_origin _ x y Hinv Hxy Hf) as H0.
  simpl. unfold handleBlockDrawing, setBlock, finalized, is_inf in *. by rewrite decide_False.
Qed.

(** [C18] On a running page whose maze is solved, the next tick paints a
    walk from the finish to the start along in-bounds neighbours with
    strictly decreasing distances, and pauses the solver. *)
Theorem tick_paints_path random a :
  reachable random a → solving (mazeSolver a) = true → solved (maze (mazeSolver a)) = true →
  let s := mazeSolver a in
  let n := size (maze s) in
  ∃ p, handle random Tick a =
         Ok (set_solver (Solver.pause (mkSolver (maze s) (queue s) true
                (canvas s ++ ((λ c, PathCell c.1 c.2) <$> ((n - 1, n - 1) :: p))))) a) ∧
       chain (maze s) (n - 1, n - 1) p ∧ list.last ((n - 1, n - 1) :: p) = Some (0, 0).
Proof.
  intros Hr Hsv Hsol. pose proof (ai_bfs _ (reachable_inv random a Hr)) as Hinv. simpl.
  destruct (drawPath_solved _ Hinv Hsol) as (p & Hd & Hc & Hl).
  exists p. unfold solveLoop. rewrite Hsv, Hsol, Hd, Hsv. by split_and!.
Qed.

(** [C3] Every distance the page shows is a shortest one: in every
    reachable state, a committed distance [k] is the number of moves of
    a walk from the start through free cells, and no such walk is
    shorter (the page never paints a Slow tile). *)
Theorem page_distances_shortest random a x y k :
  reachable random a → in_range (size (maze (mazeSolver a))) x y →
  dist_at (maze (mazeSolver a)) x y = Fin k →
  walk (maze (mazeSolver a)) (x, y) k ∧ ∀ L, walk (maze (mazeSolver a)) (x, y) L → (k ≤ L)%nat.
Proof.
  intros Hr. destruct (ai_solver a (reachable_inv random a Hr)) as [Hinv _ Ho _].
  by apply exact_distance.
Qed.

(** [C17] The "no solution" error is right: when a tick of a reachable
    page logs it, no walk from the start reaches the finish. *)
Theorem no_solution_reported_unreachable random a a' L :
  reachable random a → handle random Tick a = Ok a' →
  canvas (mazeSolver a') = canvas (mazeSolver a) ++ [NoSolution] →
  let m := maze (mazeSolver a) in ¬ walk m (size m - 1, size m - 1) L.
Proof.
  intros Hr Hh Hc m Hw. destruct (ai_solver a (reachable_inv random a Hr)) as [Hinv Hri _ _].
  simpl in Hh. unfold solveLoop in Hh. set (s := mazeSolver a) in *.
  destruct (solving s).
  2:{ injection Hh as <-. simpl in Hc. apply (f_equal (@List.length _)) in Hc. rewrite List.length_app in Hc. simpl in Hc. lia. }
  destruct (solved (maze s)) eqn:Hsol.
  { destruct (drawPath_solved s Hinv Hsol) as (p & Hd & _). rewrite Hd in Hh.
    injection Hh as <-. simpl in Hc. by apply app_inv_head in Hc. }
  destruct (Queue.isEmpty (queue s)) eqn:He.
  - unfold Queue.isEmpty in He. apply Nat.eqb_eq, nil_length_inv in He.
    pose proof (empty_queue_finalized s _ L Hinv Hri He Hw) as Hf.
    apply (solved_finalized (maze s)) in Hf; [congruence|apply (inv_shape s Hinv)].
  - unfold Queue.isEmpty in He. destruct (elements (queue s)) as [|nd rest] eqn:Hq; [done|].
    rewrite (step_cons s nd rest Hinv Hq) in Hh. injection Hh as <-. simpl in Hc. by apply app_inv_head in Hc.
Qed.

(** [C4] The page traces a shortest path: on every reachable page whose
    maze is solved, [PathViewer.draw()] returns after painting a walk
    from the finish to the start whose number of moves is minimal among
    all walks from the start to the finish. *)
Theorem page_path_shortest random a :
  reachable random a → solved (maze (mazeSolver a)) = true →
  let m := maze (mazeSolver a) in
  ∃ p, draw m = ((size m - 1, size m - 1) :: p, Returned) ∧
       walk m (size m - 1, size m - 1) (List.length p) ∧
       ∀ L, walk m (size m - 1, size m - 1) L → (List.length p ≤ L)%nat.
Proof.
  intros Hr Hsol. pose proof (reachable_inv random a Hr) as Ha.
  destruct (ai_solver a Ha) as [Hinv _ Ho _].
  apply drawn_path_shortest; [done|done| |done].
  rewrite (proj1 (ai_ends a Ha)). done.
Qed.

(** [C12] A running solver stops: from every reachable page, at most
    [measure + 1] ticks of the interval (twice the unexplored cells plus
    the queue length, plus one) return normally to a reachable page whose
    solver is paused, solved or not. *)
Theorem running_page_stops random a :
  reachable random a →
  ∃ a', ticks random (S (measure (mazeSolver a))) a = Ok a' ∧ reachable random a' ∧
        solving (mazeSolver a') = false.
Proof.
  intros Hr. destruct (ticks_stop random (S (measure (mazeSolver a))) a) as (a' & Ht & Hsv);
    [by apply (reachable_inv random)|lia|].
  exists a'. split_and!; [done|by apply (ticks_reachable random (S (measure (mazeSolver a))) a)|done].
Qed.

End AppInv.
