(* ===== verification/Lifecycle.v ===== *)
(** The life cycle of the solver as the spec describes it (section 4.3:
    Idle, Running, Paused, Solved, Unsolvable) and the refinement of that
    state machine by the page: the phase of a solver is read off its
    state, and every event a reachable page handles moves it along a
    transition the spec allows. *)

From S2P Require Import Prelude Grid Queue PathViewer Solver SolverInv Shortest App AppInv.
From Stdlib Require Import QArith String.
Open Scope Z_scope.
Open Scope grid_scope.

Module Lifecycle.
Import Maze Queue PathViewer Solver SolverInv Shortest App AppInv.

Inductive phase := Idle | Running | Paused | Solved | Unsolvable.

#[export] Instance phase_eq_dec : EqDecision phase.
Proof. solve_decision. Defined.

(** The phase of a solver: the finish has a distance (Solved), else the
    queue is empty (Unsolvable), else the timer drives it (Running), else
    no cell has a distance yet (Idle, the queue holds only the seed) or
    some has (Paused). *)
Definition phase_of (s : solver) : phase :=
  if solved (maze s) then Solved
  else if Queue.isEmpty (queue s) then Unsolvable
  else if solving s then Running
  else if is_inf (dist_at (maze s) 0 0) then Idle
  else Paused.

(** Events that do not touch the search: painting, the mouse leaving the
    canvas, choosing a block. *)
Definition neutral (e : ui_event) : bool :=
  match e with MouseMove _ _ _ | CanvasClick _ _ | MouseOut | Activate _ => true | _ => false end.

Definition after_play (p : phase) : phase := match p with Idle | Paused => Running | _ => p end.

(** The transitions of spec section 4.3, with the buttons of the page:
    Step and Skip pause first, Restart and a new maze reset. *)
Inductive spec_step : ui_event → phase → phase → Prop :=
| ss_tick_idle p : p ≠ Running → spec_step Tick p p
| ss_tick_running p' : p' = Running ∨ p' = Solved ∨ p' = Unsolvable → spec_step Tick Running p'
| ss_play p : spec_step ClickPlay p (after_play p)
| ss_pause_running p' : p' = Idle ∨ p' = Paused → spec_step ClickPause Running p'
| ss_pause_other p : p ≠ Running → spec_step ClickPause p p
| ss_step p p' : p ≠ Solved → p ≠ Unsolvable → p' = Paused ∨ p' = Solved ∨ p' = Unsolvable →
    spec_step ClickStep p p'
| ss_step_done p : p = Solved ∨ p = Unsolvable → spec_step ClickStep p p
| ss_skip p p' : p' = Solved ∨ p' = Unsolvable → spec_step ClickSkip p p'
| ss_restart p : spec_step ClickRestart p Idle
| ss_reset p size w : spec_step (ResetMaze size w) p Idle
| ss_neutral e p : neutral e = true → spec_step e p p.

(** ** Reading the phase *)

Lemma phase_ext s s' :
  maze s' = maze s → queue s' = queue s → solving s' = solving s → phase_of s' = phase_of s.
Proof. intros Hm Hq Hs. unfold phase_of. by rewrite Hm, Hq, Hs. Qed.

Lemma phase_paused s : solving s = false → phase_of s ≠ Running.
Proof. intros Hs. unfold phase_of. rewrite Hs. by repeat case_match. Qed.

Lemma phase_solving s : solving s = true → phase_of s = Running ∨ phase_of s = Solved ∨ phase_of s = Unsolvable.
Proof. intros Hs. unfold phase_of. rewrite Hs. repeat case_match; auto. Qed.

(** [canStep()] is false exactly in the two final phases. *)
Lemma phase_canStep s : canStep s = false ↔ phase_of s = Solved ∨ phase_of s = Unsolvable.
Proof.
  unfold canStep, phase_of.
  destruct (solved (maze s)), (Queue.isEmpty (queue s)), (solving s), (is_inf (dist_at (maze s) 0 0)); simpl; naive_solver.
Qed.

(** After a step the origin has a distance, so a paused solver is no
    longer Idle. *)
Lemma phase_after_step s s' :
  bfs_inv s → Queue.isEmpty (queue s) = false → step s = Ok s' → solving s' = false →
  phase_of s' = Paused ∨ phase_of s' = Solved ∨ phase_of s' = Unsolvable.
Proof.
  intros Hinv He Hs Hsv. unfold Queue.isEmpty in He.
  destruct (elements (queue s)) as [|nd rest] eqn:Hq; [done|].
  destruct (head_facts s nd rest Hinv Hq) as (Hr & _ & k & Hk & _).
  pose proof (step_cons s nd rest Hinv Hq) as Hs'. rewrite Hs in Hs'. injection Hs' as ->.
  assert (Hf : finalized (step_maze (maze s) nd) (nx nd) (ny nd))
    by (apply (finalized_after s nd rest Hinv Hq); by left).
  destruct (step_inv s Hinv) as (s2 & Hs2 & Hinv2); [by unfold Queue.isEmpty; rewrite Hq|].
  rewrite (step_cons s nd rest Hinv Hq) in Hs2. injection Hs2 as <-.
  pose proof (finalized_origin _ _ _ Hinv2 Hr Hf) as H0.
  unfold phase_of. simpl in Hsv |- *. rewrite Hsv.
  unfold finalized, is_inf in *. rewrite decide_False by done.
  repeat case_match; auto.
Qed.

(** [reset()] leaves an Idle solver. *)
Lemma phase_seeded s :
  bfs_inv s → elements (queue s) = [mkNode 0 0 (Fin 0)] →
  reset_fields (size (maze s)) (distances (maze s)) (explored (maze s)) → solving s = false →
  phase_of s = Idle.
Proof.
  intros Hinv Hq (_ & _ & Hcells) Hsv. destruct (inv_shape s Hinv) as (Hs & _).
  assert (Hinf : ∀ x y, in_range (size (maze s)) x y → dist_at (maze s) x y = Inf)
    by (intros x y Hr; unfold dist_at; by rewrite (proj1 (Hcells x y Hr))).
  unfold phase_of.
  destruct (solved (maze s)) eqn:Hsol.
  - apply (solved_finalized _ (inv_shape s Hinv)) in Hsol.
    by destruct Hsol; apply Hinf; unfold in_range; lia.
  - unfold Queue.isEmpty. rewrite Hq, Hsv. simpl. unfold is_inf.
    rewrite Hinf by (unfold in_range; lia). by rewrite decide_True.
Qed.

Lemma restart_idle a a' :
  0 < size (maze (mazeSolver a)) → square (size (maze (mazeSolver a))) (map (maze (mazeSolver a))) →
  (∀ x y, in_range (size (maze (mazeSolver a))) x y → (map (maze (mazeSolver a))) @[x, y] ≠ Some Undef) →
  ch_restart a = Ok a' → phase_of (mazeSolver a') = Idle.
Proof.
  intros Hs Hsq Hdef Hr. unfold ch_restart in Hr. cbn [mazeSolver set_solver] in Hr.
  destruct (reset_inv (Solver.pause (Solver.pause (mazeSolver a)))) as (s' & Hres & Hinv & Hq & Hsz & _ & Hrf);
    [done..|].
  rewrite Hres in Hr. injection Hr as <-. simpl.
  apply phase_seeded; [done|done|by rewrite Hsz|].
  unfold reset in Hres. destruct (resetDistances _); simplify_eq/=; done.
Qed.

Lemma step_solving s s' : step s = Ok s' → solving s' = solving s.
Proof.
  unfold step. destruct (Queue.pop (queue s)) as [[nd|] q]; [|done].
  cbv zeta. destruct (foldl _ _ _) as [[m2 q2] c]. by injection 1 as <-.
Qed.

Lemma phase_pause s :
  (phase_of s = Running → phase_of (Solver.pause s) = Idle ∨ phase_of (Solver.pause s) = Paused) ∧
  (phase_of s ≠ Running → phase_of (Solver.pause s) = phase_of s).
Proof.
  unfold phase_of, Solver.pause. simpl.
  destruct (solved (maze s)), (Queue.isEmpty (queue s)), (solving s), (is_inf (dist_at (maze s) 0 0));
    naive_solver.
Qed.

(** New tiles of the same number of rows do not change the phase. *)
Lemma phase_retile s g : List.length g = List.length (map (maze s)) → phase_of (with_tiles g s) = phase_of s.
Proof. intros Hl. unfold phase_of, with_tiles, solved. simpl. by rewrite Hl. Qed.

Lemma canStep_pause s : canStep (Solver.pause s) = canStep s.
Proof. done. Qed.

(** ** Each event *)

Section Events.
Context (random : nat → Q) (a a' : app).
Hypothesis Ha : app_inv a.

Local Abbreviation s := (mazeSolver a).

Lemma tick_phase :
  handle random Tick a = Ok a' → spec_step Tick (phase_of s) (phase_of (mazeSolver a')).
Proof.
  intros Hh. pose proof (ai_bfs a Ha) as Hinv. simpl in Hh. unfold solveLoop in Hh.
  destruct (solving s) eqn:Hsv.
  2:{ injection Hh as <-. apply ss_tick_idle, phase_paused, Hsv. }
  destruct (solved (maze s)) eqn:Hsol.
  { destruct (drawPath_solved s Hinv Hsol) as (p & Hd & _). rewrite Hd in Hh. injection Hh as <-.
    unfold phase_of. simpl. rewrite Hsol. by apply ss_tick_idle. }
  destruct (Queue.isEmpty (queue s)) eqn:He.
  { injection Hh as <-. unfold phase_of. simpl. rewrite Hsol, He. by apply ss_tick_idle. }
  destruct (step s) as [s'| |] eqn:Hs; simpl in Hh; [injection Hh as <-|done|done].
  replace (phase_of s) with Running by (unfold phase_of; by rewrite Hsol, He, Hsv).
  apply ss_tick_running, phase_solving. simpl. by rewrite (step_solving s s' Hs).
Qed.

Lemma play_phase :
  handle random ClickPlay a = Ok a' → spec_step ClickPlay (phase_of s) (phase_of (mazeSolver a')).
Proof.
  simpl. unfold ch_play. destruct (canStep s) eqn:Hc; intros Hh; injection Hh as <-.
  - replace (phase_of (mazeSolver (set_solver (Solver.play s) a))) with (after_play (phase_of s));
      [constructor|].
    unfold canStep in Hc. apply andb_true_iff in Hc as [Hc1 Hc2]. apply negb_true_iff in Hc1, Hc2.
    unfold phase_of. simpl. rewrite Hc1, Hc2. by destruct (solving s), (is_inf (dist_at (maze s) 0 0)).
  - apply phase_canStep in Hc. replace (phase_of s) with (after_play (phase_of s)) at 2;
      [constructor|]. by destruct Hc as [-> | ->].
Qed.

Lemma pause_phase :
  handle random ClickPause a = Ok a' → spec_step ClickPause (phase_of s) (phase_of (mazeSolver a')).
Proof.
  intros Hh. injection Hh as <-. simpl. destruct (phase_pause s) as [H1 H2].
  destruct (decide (phase_of s = Running)) as [E|E].
  - rewrite E. by apply ss_pause_running, H1.
  - rewrite (H2 E). by apply ss_pause_other.
Qed.

Lemma step_phase :
  handle random ClickStep a = Ok a' → spec_step ClickStep (phase_of s) (phase_of (mazeSolver a')).
Proof.
  intros Hh. simpl in Hh. unfold ch_step in Hh. cbn [mazeSolver ch_pause set_solver] in Hh.
  rewrite canStep_pause in Hh. destruct (canStep s) eqn:Hc.
  - destruct (step (Solver.pause s)) as [s'| |] eqn:Hs; simpl in Hh; [injection Hh as <-|done|done].
    assert (He : Queue.isEmpty (queue (Solver.pause s)) = false)
      by (unfold canStep in Hc; by apply andb_prop in Hc as [_ ?%negb_true_iff]).
    apply ss_step; [intros E; assert (canStep s = false) by (apply phase_canStep; auto); congruence..|].
    apply (phase_after_step (Solver.pause s)); [apply (bfs_inv_canvas s), (ai_bfs a Ha)|done|done|].
    simpl. by rewrite (step_solving _ _ Hs).
  - injection Hh as <-. simpl. apply phase_canStep in Hc.
    destruct (phase_pause s) as [_ H2]. rewrite H2 by (destruct Hc as [-> | ->]; done).
    by apply ss_step_done.
Qed.

Lemma skip_phase :
  handle random ClickSkip a = Ok a' → spec_step ClickSkip (phase_of s) (phase_of (mazeSolver a')).
Proof.
  intros Hh. simpl in Hh. unfold ch_skip in Hh. cbn [mazeSolver ch_pause set_solver] in Hh.
  destruct (skip_ok (Solver.pause s)) as (s1 & s' & _ & Hc & Hs & Hm & Hq & _);
    [apply (bfs_inv_canvas s), (ai_bfs a Ha)|].
  rewrite Hs in Hh. injection Hh as <-. apply ss_skip, phase_canStep. simpl.
  unfold canStep in *. by rewrite Hm, Hq.
Qed.

Lemma restart_phase :
  handle random ClickRestart a = Ok a' → spec_step ClickRestart (phase_of s) (phase_of (mazeSolver a')).
Proof.
  intros Hh. destruct (inv_restart_pre _ (ai_bfs a Ha)) as (Hs & Hsq & Hdef).
  rewrite (restart_idle a a' Hs Hsq Hdef Hh). constructor.
Qed.

Lemma resetMaze_phase size w :
  handle random (ResetMaze size w) a = Ok a' → 0 < size →
  spec_step (ResetMaze size w) (phase_of s) (phase_of (mazeSolver a')).
Proof.
  intros Hh Hs. simpl in Hh. unfold resetMaze in Hh.
  destruct (setUpMaze_ok random size w (maze s) (draws a) Hs) as (m & Hm & Hfresh). rewrite Hm in Hh.
  pose proof Hfresh as ((Hs' & Hsq & _) & _). simpl in Hh.
  rewrite (restart_idle (mkApp (set_maze m s) (active a) (draws a + Z.to_nat size * Z.to_nat size)%nat) a' Hs' Hsq); [constructor| |done].
  intros x y Hr. by apply (fresh_tiles _ _ _ _ _ Hfresh).
Qed.

Lemma setBlock_phase mx my :
  setBlock mx my a = Ok a' → phase_of (mazeSolver a') = phase_of s.
Proof.
  unfold setBlock. destruct (is_inf _); [|by injection 1 as <-].
  destruct (getInfo _ _ _ _) as [[[w x] y] t].
  destruct (clearEnds _) as [g|] eqn:Hg; [|done]. injection 1 as <-. simpl.
  destruct (inv_shape s (ai_bfs a Ha)) as (Hs & Hsq & _).
  destruct (clearEnds_spec (size (maze s)) (wr2 (map (maze s)) x y t)) as (g' & Hg' & Hsq' & _);
    [auto with grid|done|].
  rewrite Hg in Hg'. injection Hg' as <-. apply phase_retile.
  by rewrite (proj1 Hsq'), (proj1 Hsq).
Qed.
End Events.

(** [C13] The page refines the spec's life cycle of the solver: on every
    reachable page, each event the page delivers and handles moves the
    phase of the solver (Idle, Running, Paused, Solved, Unsolvable) along
    a transition of spec section 4.3; painting, the mouse leaving the
    canvas and choosing a block leave it unchanged. *)
Theorem page_refines_lifecycle random a e a' :
  reachable random a → page_event a e → handle random e a = Ok a' →
  spec_step e (phase_of (mazeSolver a)) (phase_of (mazeSolver a')).
Proof.
  intros Hr He Hh. pose proof (reachable_inv random a Hr) as Ha.
  destruct e as [| | | | | |p mx my|mx my| |id|sz w]; simpl in He.
  - by apply (tick_phase random).
  - by apply (play_phase random).
  - by apply (pause_phase random).
  - by apply (step_phase random).
  - by apply (skip_phase random).
  - by apply (restart_phase random).
  - simpl in Hh. unfold handleBlockDrawing in Hh.
    destruct p; [rewrite (setBlock_phase a a' Ha mx my Hh)|injection Hh as <-]; by apply ss_neutral.
  - rewrite (setBlock_phase a a' Ha mx my Hh). by apply ss_neutral.
  - injection Hh as <-. by apply ss_neutral.
  - injection Hh as <-. by apply ss_neutral.
  - by apply (resetMaze_phase random).
Qed.

End Lifecycle.
