(* ===== verification/View.v ===== *)
(** The maze buffer (src/main.js): the p5.js graphics [mazeBuffer] that
    [setup()] creates and hands to [Maze], and which [resetBuffer]
    (lines 212-229) and [drawTile] (lines 231-236) paint; [Maze.draw()]
    copies it onto the canvas.  The buffer is state shared by the whole
    page: [setup()] and [SettingsHandler.resetMaze()] repaint it from the
    map, [BlockPlacer.setBlock()] paints the one tile it writes.  Here a
    buffer is its current fill colour and the rectangles drawn on it, the
    latest first, each with the fill it was drawn in; the colour of a
    pixel is the colour of the latest rectangle over it.  The theorems:
    after [resetBuffer] every pixel of a tile has the colour of the tile,
    and on every page the events reach the buffer shows the map, except
    on the start and finish tiles, where [setBlock] paints the block the
    user chose although [clearEnds()] has just reset the tile. *)

From S2P Require Import Prelude Grid Render Queue PathViewer Solver SolverInv Shortest App AppInv.
From stdpp Require Import list_numbers.
From Stdlib Require Import QArith Qround String.
Open Scope Z_scope.
Open Scope grid_scope.

#[export] Instance Q_le_dec (a b : Q) : Decision (a <= b)%Q.
Proof. destruct (Qlt_le_dec b a); [right; by apply Qlt_not_le|by left]. Defined.

#[export] Instance Q_lt_dec (a b : Q) : Decision (a < b)%Q.
Proof. destruct (Qlt_le_dec a b); [by left|right; by apply Qle_not_lt]. Defined.

#[export] Instance inside_dec r px py : Decision (Render.inside r px py).
Proof. destruct r as [[[x y] w] h]. unfold Render.inside. apply _. Defined.

Module View.
Import Maze Solver App AppInv.

(** An RGB colour, as [fill(r, g, b)] takes it. *)
Definition colour : Type := Z * Z * Z.

(** A graphics buffer: its fill, and the rectangles drawn, latest first. *)
Record pen := mkPen {
  fillc : colour;
  marks : list (Q * Q * Q * Q * colour)
}.

(** [createGraphics(CANVASSIZE, CANVASSIZE)]: nothing drawn, p5's
    default white fill. *)
Definition blank : pen := mkPen (255, 255, 255) [].

(** One p5.js call on the buffer. *)
Definition exec1 (p : pen) (c : Render.cmd) : pen :=
  match c with
  | Render.Fill r g b => mkPen (r, g, b) (marks p)
  | Render.FillGray v => mkPen (v, v, v) (marks p)
  | Render.Rect x y w h => mkPen (fillc p) (((x, y, w, h), fillc p) :: marks p)
  | _ => p
  end.

Definition exec (cs : list Render.cmd) (p : pen) : pen := foldl exec1 p cs.

(** The colour of the latest rectangle drawn over a pixel. *)
Fixpoint cover (ms : list (Q * Q * Q * Q * colour)) (px py : Q) : option colour :=
  match ms with
  | [] => None
  | (r, c) :: ms' => if decide (Render.inside r px py) then Some c else cover ms' px py
  end.

Definition colour_at (p : pen) (px py : Q) : option colour := cover (marks p) px py.

(** The colour [setFill] sets for a tile, if it sets one. *)
Definition tile_colour (t : option tile) : option colour :=
  match Render.setFill t with [Render.Fill r g b] => Some (r, g, b) | _ => None end.

(** [BlockPlacer.setBlock()] on the buffer: [drawTile(xPos, yPos, tile)]
    after the map is written, under the same lock. *)
Definition setBlock_view (mouseX mouseY : Q) (a : app) (p : pen) : pen :=
  let m := maze (mazeSolver a) in
  if is_inf (dist_at m 0 0) then
    let '(_, xPos, yPos, tile) := getInfo m mouseX mouseY a in
    exec (Render.drawTile m xPos yPos (Some tile)) p
  else p.

(** [SettingsHandler.resetMaze()] on the buffer: [resetBuffer()] of the
    maze [setUpMaze] has just built. *)
Definition resetMaze_view (random : nat → Q) (size : Z) (wallFreq : Q) (a : app) (p : pen) : pen :=
  match setUpMaze random size wallFreq (maze (mazeSolver a)) (draws a) with
  | Ok (m, _) => exec (Render.resetBuffer m) p
  | _ => p
  end.

(** What each event does to the buffer; the other handlers draw on the
    canvas only. *)
Definition view_handle (random : nat → Q) (e : ui_event) (a : app) (p : pen) : pen :=
  match e with
  | MouseMove true mx my | CanvasClick mx my => setBlock_view mx my a p
  | ResetMaze size w => resetMaze_view random size w a p
  | _ => p
  end.

(** [setup()]: [maze.resetBuffer()] on the fresh buffer. *)
Definition setup_view (random : nat → Q) : pen :=
  match newMaze random DEFAULTSIZE DEFAULTWALLFREQ 0 with
  | Ok (m, _) => exec (Render.resetBuffer m) blank
  | _ => blank
  end.

(** The page with its buffer. *)
Inductive vreachable (random : nat → Q) : app → pen → Prop :=
| vreach_setup a : setup random = Ok a → vreachable random a (setup_view random)
| vreach_event a p e a' :
    vreachable random a p → page_event a e → handle random e a = Ok a' →
    vreachable random a' (view_handle random e a p).

(** The buffer shows the map on the tiles that satisfy [sel]: every pixel
    of such a tile has the tile's colour. *)
Definition shows_on (sel : Z → Z → Prop) (m : Maze.maze) (p : pen) : Prop :=
  ∀ x y px py, in_range (size m) x y → sel x y → Render.inside (Render.tile_rect m x y) px py →
    colour_at p px py = tile_colour ((map m) @[x, y]).

Definition shows (m : Maze.maze) (p : pen) : Prop := shows_on (λ _ _, True) m p.

Definition shows_off_ends (m : Maze.maze) (p : pen) : Prop :=
  shows_on (λ x y, ¬ is_end (size m) x y) m p.

(** The events that write the map. *)
Definition paints (e : ui_event) : Prop :=
  match e with MouseMove true _ _ | CanvasClick _ _ | ResetMaze _ _ => True | _ => False end.

#[export] Instance paints_dec e : Decision (paints e).
Proof. destruct e as [| | | | | |[] ? ?|? ?| |?|? ?]; simpl; apply _. Defined.

(** ** Drawing on the buffer *)

Lemma exec_app l1 l2 p : exec (l1 ++ l2) p = exec l2 (exec l1 p).
Proof. apply foldl_app. Qed.

Lemma exec_setFill t p : exec (Render.setFill t) p = mkPen (default (fillc p) (tile_colour t)) (marks p).
Proof. by destruct t as [[]|]; destruct p. Qed.

Lemma tile_colour_defined t : t ≠ Undef → is_Some (tile_colour (Some t)).
Proof. by destruct t. Qed.

(** [drawTile] paints its square in the colour of the tile, or in the
    current fill when [setFill] sets none. *)
Lemma colour_drawTile m x y t p px py :
  colour_at (exec (Render.drawTile m x y t) p) px py =
  if decide (Render.inside (Render.tile_rect m x y) px py)
  then Some (default (fillc p) (tile_colour t)) else colour_at p px py.
Proof. unfold Render.drawTile. rewrite exec_app, exec_setFill. reflexivity. Qed.

(** The tiles do not overlap. *)
Lemma tile_unique m x y x' y' px py :
  0 < size m → Render.inside (Render.tile_rect m x y) px py → Render.inside (Render.tile_rect m x' y') px py →
  (x, y) = (x', y').
Proof.
  intros Hs H H'. apply Render.floor_inside in H as [<- <-], H' as [<- <-]; done.
Qed.

(** Drawing the tiles of [L] in order: a pixel of the tile (x, y) has the
    tile's colour when (x, y) is one of them, and keeps its colour
    otherwise. *)
Lemma colour_tiles m (tl : Z * Z → option tile) L x y px py c p :
  0 < size m → Render.inside (Render.tile_rect m x y) px py → tile_colour (tl (x, y)) = Some c →
  colour_at (exec (mjoin ((λ c, Render.drawTile m c.1 c.2 (tl c)) <$> L)) p) px py =
  if decide ((x, y) ∈ L) then Some c else colour_at p px py.
Proof.
  intros Hs Hin Hc. induction L as [|[x' y'] L IH] using rev_ind.
  - rewrite decide_False by set_solver. done.
  - rewrite fmap_app, join_app, exec_app. simpl. rewrite app_nil_r, colour_drawTile.
    destruct (decide (Render.inside (Render.tile_rect m x' y') px py)) as [H'|H'].
    + pose proof (tile_unique m x y x' y' px py Hs Hin H') as E. simplify_eq.
      rewrite decide_True by set_solver. by rewrite Hc.
    + assert ((x', y') ≠ (x, y)) by (intros E; simplify_eq; contradiction).
      rewrite IH. destruct (decide ((x, y) ∈ L));
        [rewrite decide_True by set_solver|rewrite decide_False by set_solver]; done.
Qed.

Lemma marks_labels m p : marks (exec (Render.labels m) p) = marks p.
Proof. unfold Render.labels. by destruct (size m <=? 30). Qed.

(** After [resetBuffer()] the buffer shows a map whose tiles all have a
    colour. *)
Lemma resetBuffer_shows m p :
  (∀ x y, in_range (size m) x y → is_Some (tile_colour ((map m) @[x, y]))) →
  shows m (exec (Render.resetBuffer m) p).
Proof.
  intros Hdef x y px py Hr _ Hin. destruct (Hdef x y Hr) as [c Hc].
  rewrite Render.resetBuffer_cells, !exec_app. unfold colour_at at 1. rewrite marks_labels.
  change (cover (marks ?q) px py) with (colour_at q px py).
  rewrite (colour_tiles m (λ c, (map m) @[c.1, c.2]) _ x y px py c); [|unfold in_range in Hr; lia|done|done].
  rewrite decide_True by (by apply elem_cells). by rewrite Hc.
Qed.

Lemma shows_off m p : shows m p → shows_off_ends m p.
Proof. intros H x y px py Hr _. by apply H. Qed.

(** ** The map and the buffer under the events *)

(** What [setBlock()] leaves in the map when it paints. *)
Lemma setBlock_tiles a mx my a' :
  app_inv a → on_canvas mx my = true → is_inf (dist_at (maze (mazeSolver a)) 0 0) = true →
  setBlock mx my a = Ok a' →
  let '(_, xP, yP, t) := getInfo (maze (mazeSolver a)) mx my a in
  size (maze (mazeSolver a')) = size (maze (mazeSolver a)) ∧
  ∀ x y, (map (maze (mazeSolver a'))) @[x, y] =
         if decide (is_end (size (maze (mazeSolver a))) x y) then Some Empty
         else if decide ((xP, yP) = (x, y)) then Some t else (map (maze (mazeSolver a))) @[x, y].
Proof.
  intros [[Hinv _ _ _] _ _] Hc Hlock Hset. destruct (inv_restart_pre _ Hinv) as (Hs & Hsq & _).
  pose proof (getInfo_in_range _ mx my a Hs Hc) as Hxy.
  unfold setBlock in Hset. rewrite Hlock in Hset.
  destruct (getInfo _ mx my a) as [[[w xP] yP] t].
  destruct (clearEnds_spec (size (maze (mazeSolver a))) (wr2 (map (maze (mazeSolver a))) xP yP t))
    as (g & Hg & _ & Hgv); [auto with grid|done|].
  rewrite Hg in Hset. injection Hset as <-. split; [done|]. intros x y. simpl.
  rewrite Hgv. case_decide; [done|]. by rewrite (rd2_wr2 (size (maze (mazeSolver a)))).
Qed.

Lemma same_tiles_refl s s' : maze s' = maze s → SolverInv.same_tiles s s'.
Proof. intros E. split; by rewrite E. Qed.

(** The events that do not write the map leave it as it is. *)
Lemma handle_keeps_tiles random e a a' :
  app_inv a → ¬ paints e → handle random e a = Ok a' → SolverInv.same_tiles (mazeSolver a) (mazeSolver a').
Proof.
  intros Ha Hp Hh. pose proof (ai_solver a Ha) as Hs.
  destruct e as [| | | | | |[] mx my|mx my| |id|sz w]; simpl in Hp, Hh; try contradiction.
  - destruct (solveLoop_ok _ Hs) as (s' & Heq & _ & Hsame). rewrite Heq in Hh. by injection Hh as <-.
  - unfold ch_play in Hh. destruct (canStep _); injection Hh as <-; by apply same_tiles_refl.
  - injection Hh as <-. by apply same_tiles_refl.
  - unfold ch_step in Hh. pose proof (pause_inv a Ha) as Hpa.
    destruct (canStep (mazeSolver (ch_pause a))) eqn:Hc; [|injection Hh as <-; by apply same_tiles_refl].
    assert (Queue.isEmpty (queue (mazeSolver (ch_pause a))) = false) as Hne
      by (unfold canStep in Hc; by apply andb_prop in Hc as [_ ?%negb_true_iff]).
    destruct (step_ok _ (ai_solver _ Hpa) Hne) as (s' & Heq & _ & Hsame).
    rewrite Heq in Hh. by injection Hh as <-.
  - unfold ch_skip in Hh. destruct (skip_keeps _ (ai_solver _ (pause_inv a Ha))) as (s' & Heq & _ & Hsame).
    rewrite Heq in Hh. by injection Hh as <-.
  - destruct (inv_restart_pre _ (si_bfs _ Hs)) as (Hsz & Hsq & Hdef).
    destruct (restart_ok a Hsz Hsq Hdef (si_noslow _ Hs)) as (a'' & Heq & _ & _ & Hsame). congruence.
  - injection Hh as <-. by apply same_tiles_refl.
  - injection Hh as <-. by apply same_tiles_refl.
  - injection Hh as <-. by apply same_tiles_refl.
Qed.

Lemma colour_defined n g x y :
  square n g → in_range n x y → g @[x, y] ≠ Some Undef → is_Some (tile_colour (g @[x, y])).
Proof.
  intros Hsq Hr Hu. destruct (rd2_square n g x y Hsq Hr) as [t Ht]. rewrite Ht in *.
  apply tile_colour_defined. congruence.
Qed.

Lemma shows_same_tiles s s' p :
  SolverInv.same_tiles s s' → shows_off_ends (maze s) p → shows_off_ends (maze s') p.
Proof.
  intros [Hsz Hm] H x y px py. rewrite Hsz, Hm, (Render.tile_rect_size (maze s) (maze s') Hsz). apply H.
Qed.

(** A fresh maze from [setUpMaze], drawn by [resetBuffer()]. *)
Lemma fresh_shows random size w k m p :
  fresh_maze random size w k m → shows m (exec (Render.resetBuffer m) p).
Proof.
  intros Hf. pose proof Hf as ((_ & Hsq & _) & _). apply resetBuffer_shows. intros x y Hr.
  apply (colour_defined (Maze.size m)); [done|done|]. by apply (fresh_tiles _ _ _ _ _ Hf).
Qed.

(** [setBlock()] keeps the buffer showing the map off the two ends. *)
Lemma view_setBlock a mx my a' p :
  app_inv a → on_canvas mx my = true → shows_off_ends (maze (mazeSolver a)) p →
  setBlock mx my a = Ok a' → shows_off_ends (maze (mazeSolver a')) (setBlock_view mx my a p).
Proof.
  intros Ha Hc Hp Hset. unfold setBlock_view.
  destruct (is_inf _) eqn:Hlock; [|unfold setBlock in Hset; rewrite Hlock in Hset; by injection Hset as <-].
  pose proof (setBlock_tiles a mx my a' Ha Hc Hlock Hset) as Ht.
  pose proof (ai_block a Ha) as Hblk. pose proof (ai_solver a Ha) as [[[Hs _] _ _ _ _ _] _ _ _].
  destruct (getInfo _ mx my a) as [[[w xP] yP] t] eqn:Hgi.
  assert (t = blockToTile (active a)) as -> by (unfold getInfo in Hgi; congruence).
  destruct Ht as [Hsz Hmap]. intros x y px py Hr Hne Hin. rewrite Hsz in Hr, Hne.
  rewrite (Render.tile_rect_size _ _ Hsz) in Hin. rewrite Hmap, decide_False by done.
  rewrite colour_drawTile.
  destruct (decide (Render.inside (Render.tile_rect _ xP yP) px py)) as [H'|H'].
  - rewrite (tile_unique _ xP yP x y px py Hs H' Hin), decide_True by done.
    destruct (tile_colour_defined (blockToTile (active a))) as [c Hc']; [by apply blockToTile_known|].
    by rewrite Hc'.
  - rewrite decide_False by (intros E; simplify_eq; contradiction). by apply Hp.
Qed.

(** [resetMaze()] repaints the buffer from the maze it builds. *)
Lemma shows_same_board s s' p :
  SolverInv.same_tiles s s' → shows (maze s) p → shows (maze s') p.
Proof.
  intros [Hsz Hm] H x y px py. rewrite Hsz, Hm, (Render.tile_rect_size (maze s) (maze s') Hsz). apply H.
Qed.

Lemma view_resetMaze random sz w a a' p :
  app_inv a → 0 < sz → resetMaze random sz w a = Ok a' →
  shows (maze (mazeSolver a')) (resetMaze_view random sz w a p).
Proof.
  intros [Hsi _ _] Hs Hr. unfold resetMaze, resetMaze_view in *.
  destruct (setUpMaze_ok random sz w (maze (mazeSolver a)) (draws a) Hs) as (m & Hm & Hfresh).
  rewrite Hm in Hr |- *. simpl in Hr.
  pose proof Hfresh as ((Hs' & Hsq & _) & _).
  destruct (restart_ok (mkApp (set_maze m (mazeSolver a)) (active a) (draws a + Z.to_nat sz * Z.to_nat sz)))
    as (a'' & Heq & _ & _ & Hsame); simpl; [done|done| | |];
    try (intros x y Hr'; by apply (fresh_tiles _ _ _ _ _ Hfresh)).
  rewrite Heq in Hr. injection Hr as <-.
  apply (shows_same_board (set_maze m (mazeSolver a))); [done|]. apply (fresh_shows _ _ _ _ _ _ Hfresh).
Qed.

Lemma view_step random e a a' p :
  app_inv a → shows_off_ends (maze (mazeSolver a)) p → page_event a e → handle random e a = Ok a' →
  shows_off_ends (maze (mazeSolver a')) (view_handle random e a p).
Proof.
  intros Ha Hp He Hh.
  destruct (decide (paints e)) as [Hpt|Hpt].
  - destruct e as [| | | | | |[] mx my|mx my| |id|sz w]; simpl in Hpt, He |- *; try contradiction.
    + exact (view_setBlock a mx my a' p Ha He Hp Hh).
    + exact (view_setBlock a mx my a' p Ha He Hp Hh).
    + exact (shows_off _ _ (view_resetMaze random sz w a a' p Ha He Hh)).
  - replace (view_handle random e a p) with p
      by (destruct e as [| | | | | |[] mx my|mx my| |id|sz w]; simpl in Hpt |- *; tauto).
    eapply shows_same_tiles; [|exact Hp]. by eapply handle_keeps_tiles.
Qed.

Lemma setup_view_shows random a :
  setup random = Ok a → shows (maze (mazeSolver a)) (setup_view random).
Proof.
  unfold setup, setup_view, newMaze.
  destruct (setUpMaze_ok random DEFAULTSIZE DEFAULTWALLFREQ (mkMaze 0 0 [] [] []) 0) as (m & -> & Hfresh);
    [unfold DEFAULTSIZE; lia|].
  intros [= <-]. apply (fresh_shows _ _ _ _ _ _ Hfresh).
Qed.

Lemma vreachable_inv random a p :
  vreachable random a p → app_inv a ∧ shows_off_ends (maze (mazeSolver a)) p.
Proof.
  induction 1 as [a Hs|a p e a' _ [Ha Hp] He Hh].
  - split; [apply (reachable_inv random); by constructor|]. by apply shows_off, setup_view_shows.
  - split; [|by apply (view_step random e a a' p)].
    destruct (handle_ok random e a Ha He) as (a'' & Hh' & Ha''). congruence.
Qed.

(** [C28] [resetBuffer()] paints the map: when every tile of the board
    has a colour, every pixel of the tile (x, y) has the colour of the
    tile (x, y) once [resetBuffer()] has run, whatever the buffer held. *)
Theorem resetBuffer_paints_map m p x y px py :
  Forall (λ c, is_Some (tile_colour ((map m) @[c.1, c.2]))) (cells (size m)) →
  in_range (size m) x y → Render.inside (Render.tile_rect m x y) px py →
  colour_at (exec (Render.resetBuffer m) p) px py = tile_colour ((map m) @[x, y]).
Proof.
  intros Hdef Hr Hin. apply (resetBuffer_shows m p); [|done|done|done].
  intros x' y' Hr'. rewrite Forall_forall in Hdef. apply (Hdef (x', y')), elem_cells, Hr'.
Qed.

(** [C24] On every page the events reach, the maze buffer shows the map
    off the start and finish tiles: every pixel of a tile other than
    (0, 0) and (size-1, size-1) has the colour of the tile the map
    holds. *)
Theorem page_buffer_shows_map random a p x y px py :
  vreachable random a p → in_range (size (maze (mazeSolver a))) x y →
  ¬ is_end (size (maze (mazeSolver a))) x y →
  Render.inside (Render.tile_rect (maze (mazeSolver a)) x y) px py →
  colour_at p px py = tile_colour ((map (maze (mazeSolver a))) @[x, y]).
Proof. intros Hv. apply (vreachable_inv random a p Hv). Qed.

(** The tile under the mouse is the tile whose square holds it. *)
Lemma getInfo_on_tile m mx my a x y :
  0 < size m → Render.inside (Render.tile_rect m x y) mx my →
  getInfo m mx my a = (Render.width m, x, y, blockToTile (active a)).
Proof. intros Hs Hin. apply Render.floor_inside in Hin as [Hx Hy]; [|done]. unfold getInfo. by rewrite Hx, Hy. Qed.

(** [C34] The buffer and the map disagree after a wall is painted on the
    start or the finish: on every page whose painting is unlocked, with
    the wall block active, a click on an end tile leaves that tile empty
    in the map ([clearEnds()] runs after the write), while [drawTile]
    paints every pixel of the tile brown in the buffer, until the next
    [resetBuffer()]. *)
Theorem end_tile_painted_over random a p mx my x y px py :
  vreachable random a p → on_canvas mx my = true → is_inf (dist_at (maze (mazeSolver a)) 0 0) = true →
  active a = "wall"%string →
  Render.inside (Render.tile_rect (maze (mazeSolver a)) x y) mx my → is_end (size (maze (mazeSolver a))) x y →
  Render.inside (Render.tile_rect (maze (mazeSolver a)) x y) px py →
  ∃ a', handle random (CanvasClick mx my) a = Ok a' ∧
        vreachable random a' (view_handle random (CanvasClick mx my) a p) ∧
        (map (maze (mazeSolver a'))) @[x, y] = Some Empty ∧
        colour_at (view_handle random (CanvasClick mx my) a p) px py = tile_colour (Some Wall) ∧
        tile_colour (Some Wall) ≠ tile_colour ((map (maze (mazeSolver a'))) @[x, y]).
Proof.
  intros Hv Hc Hlock Hact Hmouse Hend Hpx.
  destruct (vreachable_inv random a p Hv) as [Ha _].
  pose proof (ai_solver a Ha) as [[[Hs _] _ _ _ _ _] _ _ _].
  destruct (setBlock_ok a mx my Ha Hc) as (a' & Hset & _).
  pose proof (setBlock_tiles a mx my a' Ha Hc Hlock Hset) as Ht.
  rewrite (getInfo_on_tile _ mx my a x y Hs Hmouse) in Ht. destruct Ht as [_ Hmap].
  assert (He : (map (maze (mazeSolver a'))) @[x, y] = Some Empty) by (by rewrite Hmap, decide_True).
  exists a'. split_and!; [done| |done| |by rewrite He].
  - by apply (vreach_event random a p (CanvasClick mx my) a').
  - simpl. unfold setBlock_view. rewrite Hlock, (getInfo_on_tile _ mx my a x y Hs Hmouse), Hact.
    rewrite colour_drawTile, decide_True by done. done.
Qed.

(** [C35] The settings form repairs the buffer: on every page the events
    reach, after [resetMaze()] the buffer shows the new map on every
    tile, the start and the finish included. *)
Theorem resetMaze_repaints_buffer random a p sz w a' x y px py :
  vreachable random a p → 0 < sz → handle random (ResetMaze sz w) a = Ok a' →
  in_range (size (maze (mazeSolver a'))) x y →
  Render.inside (Render.tile_rect (maze (mazeSolver a')) x y) px py →
  colour_at (view_handle random (ResetMaze sz w) a p) px py = tile_colour ((map (maze (mazeSolver a'))) @[x, y]).
Proof.
  intros Hv Hs Hh Hxy Hin. destruct (vreachable_inv random a p Hv) as [Ha _].
  by apply (view_resetMaze random sz w a a' p Ha Hs Hh x y px py Hxy I).
Qed.

End View.
