(* ===== verification/Reference.v ===== *)
(** A reference for the search of [MazeSolver] (src/main.js, lines
    312-350): the cells within [L] moves of the start, computed layer by
    layer over the whole board ([reach]), and the distance of a cell as
    the first layer that holds it ([ref_dist]).  The reference knows
    nothing of queues, nodes or explored marks.  The theorems: the layers
    are the cells walks of at most [L] moves reach, they stop growing
    after [size * size] layers, and the distances the solver leaves once
    its queue is empty are exactly the reference distances. *)

From S2P Require Import Prelude Grid Queue PathViewer Solver SolverInv Shortest App AppInv.
Open Scope Z_scope.
Open Scope grid_scope.

Module Reference.
Import Maze Queue PathViewer Solver SolverInv Shortest App AppInv.

(** A cell a move may enter, as a test. *)
Definition free_b (m : Maze.maze) (c : Z * Z) : bool :=
  inBounds m c.1 c.2 && bool_decide ((map m) @[c.1, c.2] ≠ Some Wall).

(** One more move: the cells of the board not yet reached that are free
    and next to a reached cell. *)
Definition expand (m : Maze.maze) (R : list (Z * Z)) : list (Z * Z) :=
  R ++ filter (λ c, c ∉ R ∧ free_b m c = true ∧ Exists (λ b, b ∈ R) (neighbours c.1 c.2)) (cells (size m)).

(** The cells within [L] moves of the start. *)
Fixpoint reach (m : Maze.maze) (L : nat) : list (Z * Z) :=
  match L with
  | O => [(0, 0)]
  | S L' => expand m (reach m L')
  end.

(** The number of layers the reference looks at: one per cell. *)
Definition layers (m : Maze.maze) : nat := (Z.to_nat (size m) * Z.to_nat (size m))%nat.

(** The reference distance: the first layer that holds the cell, or
    [Infinity]. *)
Definition ref_dist (m : Maze.maze) (x y : Z) : jsnum :=
  match list_find (λ R, (x, y) ∈ R) (reach m <$> seq 0 (S (layers m))) with
  | Some (L, _) => Fin L
  | None => Inf
  end.

(** ** The layers are the cells short walks reach *)

Lemma free_b_spec m c : free_b m c = true ↔ free m c.
Proof.
  unfold free_b, free. rewrite andb_true_iff, inBounds_spec, bool_decide_eq_true. done.
Qed.

Lemma elem_expand m R c :
  c ∈ expand m R ↔ c ∈ R ∨ (free m c ∧ ∃ b, b ∈ R ∧ c ∈ neighbours b.1 b.2).
Proof.
  unfold expand. rewrite elem_of_app, list_elem_of_filter, Exists_exists, free_b_spec. split.
  - intros [H|((_ & Hf & b & Hb & HR) & _)]; [by left|right]. split; [done|].
    exists b. split; [done|]. destruct b, c. by apply neighbours_sym.
  - intros [H|(Hf & b & HR & Hb)]; [by left|]. destruct (decide (c ∈ R)); [by left|right].
    split; [split_and!; [done|done|exists b; split; [destruct b, c; by apply neighbours_sym|done]]|].
    destruct c. apply elem_cells. apply Hf.
Qed.

Lemma walk_zero m c : walk m c 0 → c = (0, 0).
Proof. by inversion 1. Qed.

Lemma reach_walk m L c : c ∈ reach m L ↔ ∃ L', (L' ≤ L)%nat ∧ walk m c L'.
Proof.
  revert c. induction L as [|L IH]; intros c; simpl.
  - split; [intros ->%list_elem_of_singleton; exists 0%nat; split; [done|constructor]|].
    intros (L' & HL & Hw). assert (L' = 0%nat) as -> by lia. apply walk_zero in Hw as ->. by left.
  - rewrite elem_expand, IH. split.
    + intros [(L' & HL & Hw)|(Hf & b & (L' & HL & Hw)%IH & Hn)]; [exists L'; split; [lia|done]|].
      exists (S L'). split; [lia|]. by apply (walk_move m b).
    + intros (L' & HL & Hw). destruct (decide (L' ≤ L)%nat); [left; by exists L'|right].
      inversion Hw as [|b c' L'' Hb Hn Hf]; subst; [lia|].
      split; [done|]. exists b. split; [|done]. apply IH. exists L''. split; [lia|done].
Qed.

Lemma reach_mono m j L c : (j ≤ L)%nat → c ∈ reach m j → c ∈ reach m L.
Proof. rewrite !reach_walk. intros HjL (L' & HL' & Hw). exists L'. split; [lia|done]. Qed.

(** ** The layers stop growing after [layers] steps *)

Lemma reach_range m L c : 0 < size m → c ∈ reach m L → in_range (size m) c.1 c.2.
Proof. intros Hs (L' & _ & Hw)%reach_walk. by apply (walk_in_range m c L'). Qed.

Lemma reach_nodup m L : NoDup (reach m L).
Proof.
  induction L as [|L IH]; simpl; [apply NoDup_singleton|].
  unfold expand. apply NoDup_app. split_and!; [done| |apply NoDup_filter, NoDup_cells].
  intros c Hc (Hn & _)%list_elem_of_filter. tauto.
Qed.

Lemma reach_stable m j d : reach m (S j) = reach m j → reach m (d + j) = reach m j.
Proof. intros E. induction d as [|d IH]; [done|]. change (expand m (reach m (d + j)) = reach m j). by rewrite IH. Qed.

(** While the layers grow, each adds a cell. *)
Lemma reach_grows m L :
  (∀ j, (j < L)%nat → reach m (S j) ≠ reach m j) → (S L ≤ length (reach m L))%nat.
Proof.
  induction L as [|L IH]; intros Hg; [done|].
  assert (S L ≤ length (reach m L))%nat by (apply IH; intros j Hj; apply Hg; lia).
  assert (Hne : reach m (S L) ≠ reach m L) by (apply Hg; lia).
  change (expand m (reach m L)) with (reach m (S L)). simpl reach in Hne |- *. unfold expand in *.
  rewrite length_app. destruct (filter _ _); [by rewrite app_nil_r in Hne|simpl; lia].
Qed.

(** On a non-empty board the layers are the same from [layers] on. *)
Lemma reach_fix m : 0 < size m → reach m (S (layers m)) = reach m (layers m).
Proof.
  intros Hs. destruct (decide (reach m (S (layers m)) = reach m (layers m))) as [|Hne]; [done|exfalso].
  assert (Hg : ∀ j, (j < S (layers m))%nat → reach m (S j) ≠ reach m j).
  { intros j Hj E. apply Hne.
    rewrite <- (Nat.sub_add j (S (layers m))), <- (Nat.sub_add j (layers m)) by lia.
    by rewrite !(reach_stable m j). }
  pose proof (reach_grows m (S (layers m)) Hg) as Hlen.
  assert (Hall : Forall (λ c, in_range (size m) c.1 c.2) (reach m (S (layers m))))
    by (apply Forall_forall; intros c; by apply reach_range).
  pose proof (nodup_cells_length (size m) _ (reach_nodup m _) Hall) as Hle.
  unfold layers in *. lia.
Qed.

(** Every cell a walk reaches is reached within [layers] moves. *)
Lemma reach_bound m L c : 0 < size m → c ∈ reach m L → c ∈ reach m (layers m).
Proof.
  intros Hs Hc. destruct (decide (L ≤ layers m)%nat); [by apply (reach_mono m L)|].
  rewrite <- (Nat.sub_add (layers m) L) in Hc by lia.
  rewrite (reach_stable m (layers m)) in Hc; [done|]. by apply reach_fix.
Qed.

(** A shortest walk visits each layer once: it is shorter than the
    number of cells. *)
Lemma shortest_walk_bound m c k :
  0 < size m → walk m c k → (∀ L, walk m c L → (k ≤ L)%nat) → (k < layers m)%nat.
Proof.
  intros Hs Hw Hmin.
  assert (Hg : ∀ j, (j < k)%nat → reach m (S j) ≠ reach m j).
  { intros j Hj E. assert (Hc : c ∈ reach m k) by (apply reach_walk; by exists k).
    rewrite <- (Nat.sub_add j k), (reach_stable m j) in Hc by (done || lia).
    apply reach_walk in Hc as (L & HL & Hw'). specialize (Hmin L Hw'). lia. }
  assert (Hall : Forall (λ c, in_range (size m) c.1 c.2) (reach m k))
    by (apply Forall_forall; intros c'; by apply reach_range).
  pose proof (reach_grows m k Hg). pose proof (nodup_cells_length (size m) _ (reach_nodup m k) Hall).
  unfold layers. lia.
Qed.

(** ** The reference distance *)

Lemma lookup_layers m i R :
  (reach m <$> seq 0 (S (layers m))) !! i = Some R ↔ (i ≤ layers m)%nat ∧ R = reach m i.
Proof.
  rewrite list_lookup_fmap, fmap_Some. split.
  - intros (i' & Hi & ->). apply lookup_seq in Hi as [-> Hi]. split; [lia|done].
  - intros [Hi ->]. exists i. split; [apply lookup_seq; split; lia|done].
Qed.

(** [ref_dist] is the first layer that holds the cell. *)
Lemma ref_dist_first m x y L :
  0 < size m → ref_dist m x y = Fin L ↔ (x, y) ∈ reach m L ∧ ∀ j, (j < L)%nat → (x, y) ∉ reach m j.
Proof.
  intros Hs. unfold ref_dist. destruct (list_find _ _) as [[L' R]|] eqn:Hf.
  - apply list_find_Some in Hf as (Hl & HR & Hmin). apply lookup_layers in Hl as [HL' ->]. split.
    + intros [= <-]. split; [done|]. intros j Hj Hin.
      apply (Hmin j (reach m j)); [apply lookup_layers; split; [lia|done]|done|done].
    + intros [Hin Hlt]. f_equal. destruct (lt_eq_lt_dec L' L) as [[H|H]|H]; [exfalso; by apply (Hlt L' H)|done|].
      exfalso. apply (Hmin L (reach m L)); [apply lookup_layers; split; [lia|done]|lia|done].
  - split; [done|]. intros [Hin _]. apply list_find_None in Hf. rewrite Forall_forall in Hf.
    exfalso. apply (Hf (reach m (layers m))); [|by apply (reach_bound m L)].
    apply (list_elem_of_lookup_2 _ (layers m)). apply lookup_layers. split; [lia|done].
Qed.

(** [ref_dist] is [Infinity] exactly for the cells no layer holds. *)
Lemma ref_dist_none m x y : 0 < size m → ref_dist m x y = Inf ↔ ∀ L, (x, y) ∉ reach m L.
Proof.
  intros Hs. unfold ref_dist. destruct (list_find _ _) as [[L' R]|] eqn:Hf.
  - split; [done|]. apply list_find_Some in Hf as (Hl & HR & _). apply lookup_layers in Hl as [_ ->].
    intros H. destruct (H L' HR).
  - split; [|done]. intros _ L Hin. apply list_find_None in Hf. rewrite Forall_forall in Hf.
    destruct (decide (L ≤ layers m)%nat) as [HL|HL].
    + apply (Hf (reach m L)); [|done]. apply (list_elem_of_lookup_2 _ L). apply lookup_layers. split; [lia|done].
    + apply (Hf (reach m (layers m))); [apply (list_elem_of_lookup_2 _ (layers m)), lookup_layers; split; [lia|done]|].
      by apply (reach_bound m L).
Qed.

(** In terms of walks: the length of a shortest walk, or [Infinity]
    when no walk reaches the cell. *)
Lemma ref_dist_walk m x y k :
  0 < size m → ref_dist m x y = Fin k ↔ walk m (x, y) k ∧ ∀ L, walk m (x, y) L → (k ≤ L)%nat.
Proof.
  intros Hs. rewrite ref_dist_first by done. setoid_rewrite reach_walk. split.
  - intros [(L' & HL' & Hw) Hlt]. assert (L' = k) as <-.
    { destruct (decide (L' < k)%nat) as [H|H]; [|lia]. exfalso. apply (Hlt L' H). by exists L'. }
    split; [done|]. intros L Hw'. destruct (decide (L < L')%nat) as [H|H]; [|lia].
    exfalso. apply (Hlt L H). by exists L.
  - intros [Hw Hmin]. split; [by exists k|]. intros j Hj (L & HL & Hw'). specialize (Hmin L Hw'). lia.
Qed.

Lemma ref_dist_unreachable m x y : 0 < size m → ref_dist m x y = Inf ↔ ∀ L, ¬ walk m (x, y) L.
Proof.
  intros Hs. rewrite ref_dist_none by done. setoid_rewrite reach_walk. split.
  - intros H L Hw. apply (H L). by exists L.
  - intros H L (L' & _ & Hw). by apply (H L').
Qed.

(** ** The solver computes the reference distances *)

(** A drained breadth-first search has the reference distances. *)
Lemma drained_dist s x y :
  bfs_inv s → reach_inv s → order_inv s → elements (queue s) = [] → in_range (size (maze s)) x y →
  dist_at (maze s) x y = ref_dist (maze s) x y.
Proof.
  intros Hinv Hr Ho He Hxy. pose proof (proj1 (inv_shape s Hinv)) as Hs.
  destruct (decide (dist_at (maze s) x y = Inf)) as [Hi|Hf].
  - rewrite Hi. symmetry. apply ref_dist_unreachable; [done|]. intros L Hw.
    by apply (empty_queue_finalized s (x, y) L Hinv Hr He Hw).
  - destruct (inv_final s Hinv x y Hxy Hf) as (k & Hk & _). rewrite Hk. symmetry.
    apply ref_dist_walk; [done|]. by apply exact_distance.
Qed.

(** [C23] The search agrees with the reference: after [reset()] on a
    board without Slow tiles and steps until the queue is empty, the
    distance [MazeSolver] leaves in every cell is the reference distance,
    the first layer of cells within [L] moves that holds the cell, and
    [Infinity] exactly for the cells no layer holds. *)
Theorem bfs_matches_reference s0 s1 s x y :
  0 < size (maze s0) → square (size (maze s0)) (map (maze s0)) →
  (∀ x y, in_range (size (maze s0)) x y → (map (maze s0)) @[x, y] ≠ Some Undef) →
  no_slow (maze s0) → reset s0 = Ok s1 → steps s1 s → Queue.isEmpty (queue s) = true →
  in_range (size (maze s)) x y → dist_at (maze s) x y = ref_dist (maze s) x y.
Proof.
  intros Hs Hsq Hdef Hns Hreset Hst He Hxy.
  destruct (from_reset s0 s1 s Hs Hsq Hdef Hreset Hst) as (Hinv & Hr & Ho & _).
  unfold Queue.isEmpty in He. apply Nat.eqb_eq, nil_length_inv in He.
  apply drained_dist; [done|done|by apply Ho|done|done].
Qed.

(** [C26] The distances fit: on every page the events reach, a distance
    the page holds is a whole number below [size * size], the number of
    cells, so a JS double represents it exactly for every board that fits
    in memory. *)
Theorem page_distance_bound random a x y k :
  reachable random a → in_range (size (maze (mazeSolver a))) x y →
  dist_at (maze (mazeSolver a)) x y = Fin k →
  (k < Z.to_nat (size (maze (mazeSolver a))) * Z.to_nat (size (maze (mazeSolver a))))%nat.
Proof.
  intros Hr Hxy Hk. destruct (ai_solver a (reachable_inv random a Hr)) as [Hinv _ Ho _].
  destruct (exact_distance _ x y k Hinv Ho Hxy Hk) as [Hw Hmin].
  apply (shortest_walk_bound _ (x, y)); [apply (inv_shape _ Hinv)|done|done].
Qed.

End Reference.
