(* ===== verification/Scenarios.v ===== *)
(** Concrete mazes built by [newMaze] with a chosen Math.random stream,
    pages reached by sessions of events, and the general theorems
    applied at them: each witness discharges a theorem's hypotheses by
    evaluation. *)

From S2P Require Import Prelude Grid Render Queue PathViewer Solver SolverInv Shortest App AppInv Lifecycle View Reference.
From Stdlib Require Import QArith String.
From stdpp Require Import list_numbers.
Open Scope Z_scope.
Open Scope grid_scope.

Module Scenarios.
Import Maze Queue PathViewer Solver SolverInv Shortest App AppInv Lifecycle.

Definition maze_of (o : outcome (Maze.maze * nat)) : Maze.maze :=
  match o with Ok (m, _) => m | _ => mkMaze 0 0 [] [] [] end.

Definition solver_of (o : outcome solver) (d : solver) : solver :=
  match o with Ok s => s | _ => d end.

(** [n] presses of the Step button: [step()] while the queue is not
    empty. *)
Fixpoint run (n : nat) (s : solver) : solver :=
  match n with
  | O => s
  | S n' => if Queue.isEmpty (queue s) then s
            else match step s with Ok s' => run n' s' | _ => s end
  end.

(** A 3 x 3 maze without walls (every draw is 1, [wallFreq] is 0), the
    solver the page builds for it, and the solver after [skip()]. *)
Definition open3 : Maze.maze := maze_of (newMaze (λ _, 1%Q) 3 0 0).
Definition start3 : solver := newSolver open3.
Definition done3 : solver := solver_of (skip start3) start3.

(** The 2 x 2 maze of the spec with walls at (0, 1) and (1, 0): draws 1
    and 2 (row-major) are below [wallFreq]. *)
Definition walled2 : Maze.maze :=
  maze_of (newMaze (λ k, if (k =? 1)%nat || (k =? 2)%nat then 0%Q else 1%Q) 2 (1 # 2) 0).

(** A 3 x 3 maze with a Slow tile at (1, 0) (the data model allows it;
    no button of the page paints it). *)
Definition slow3 : Maze.maze :=
  mkMaze 3 0 [[Empty; Empty; Empty]; [Slow; Empty; Empty]; [Empty; Empty; Empty]]
    [[Inf; Inf; Inf]; [Inf; Inf; Inf]; [Inf; Inf; Inf]]
    [[true; false; false]; [false; false; false]; [false; false; false]].

(** A session of the page: the events in order, each one the page can
    deliver in the state it reaches. *)
Fixpoint run_ui (random : nat → Q) (es : list ui_event) (a : app) : option app :=
  match es with
  | [] => Some a
  | e :: es' =>
      if decide (page_event a e) then
        match handle random e a with Ok a' => run_ui random es' a' | _ => None end
      else None
  end.

Definition app_of (o : option app) : app :=
  match o with Some a => a | None => mkApp (newSolver (mkMaze 0 0 [] [] [])) "wall" 0 end.

(** The page after [setup()] with Math.random always 1 (no walls). *)
Definition page0 : app :=
  match setup (λ _, 1%Q) with Ok a => a | _ => mkApp (newSolver (mkMaze 0 0 [] [] [])) "wall" 0 end.

(** A 2 x 2 maze from the settings form, Play, and four ticks: the
    running solver has just finalized the finish. *)
Definition session2 : list ui_event := [ResetMaze 2 0; ClickPlay; Tick; Tick; Tick; Tick].
Definition page2 : app := app_of (run_ui (λ _, 1%Q) session2 page0).

(** A 2 x 2 maze from the form with every draw below [wallFreq] (both
    neighbours of the start are walls), Play, and one tick: the next tick
    finds the queue empty. *)
Definition session_walled : list ui_event := [ResetMaze 2 2; ClickPlay; Tick].
Definition page_walled : app := app_of (run_ui (λ _, 1%Q) session_walled page0).
Definition page_walled' : app :=
  match handle (λ _, 1%Q) Tick page_walled with Ok a => a | _ => page_walled end.

(** The page with an open 2 x 2 maze from the settings form. *)
Definition page_open2 : app := app_of (run_ui (λ _, 1%Q) [ResetMaze 2 0] page0).

(** A running page: an open 2 x 2 maze from the form, then Play. *)
Definition page_play2 : app := app_of (run_ui (λ _, 1%Q) [ResetMaze 2 0; ClickPlay] page0).

(** The default page after one press of Step. *)
Definition page_step : app := app_of (run_ui (λ _, 1%Q) [ClickStep] page0).

(** ** Helpers: the invariant on the concrete solvers *)

Lemma run_steps n s : steps s (run n s).
Proof.
  revert s. induction n as [|n IH]; intros s; simpl; [constructor|].
  destruct (Queue.isEmpty (queue s)) eqn:He; [constructor|].
  destruct (step s) as [s'| |] eqn:Hs; [|constructor|constructor].
  econstructor; eauto.
Qed.

Lemma start3_inv : bfs_inv start3.
Proof.
  destruct (reset_inv start3) as (s' & Hr & Hinv & _).
  - vm_compute. reflexivity.
  - split; vm_compute; [reflexivity|repeat constructor].
  - apply forall_cells. vm_compute. repeat constructor; discriminate.
  - vm_compute in Hr. injection Hr as <-. exact Hinv.
Qed.

Lemma done3_inv : bfs_inv done3.
Proof.
  destruct (skip_ok start3 start3_inv) as (s1 & s' & _ & _ & Hs & _ & _ & Hinv).
  unfold done3. rewrite Hs. exact Hinv.
Qed.

Lemma run_ui_reachable random es a a' :
  reachable random a → run_ui random es a = Some a' → reachable random a'.
Proof.
  revert a. induction es as [|e es IH]; intros a Hr Hrun; simpl in Hrun; [congruence|].
  case_decide as He; [|done].
  destruct (handle random e a) as [a1| |] eqn:Hh; [|done|done].
  apply (IH a1); [by eapply reach_event|done].
Qed.

Lemma page0_reachable : reachable (λ _, 1%Q) page0.
Proof. apply reach_setup. vm_compute. reflexivity. Qed.

Lemma page_reachable es a : run_ui (λ _, 1%Q) es page0 = Some a → reachable (λ _, 1%Q) a.
Proof. apply run_ui_reachable, page0_reachable. Qed.

(** ** The general theorems at concrete inputs *)

Lemma step_preserves_inv_witness : ∃ s', step start3 = Ok s' ∧ bfs_inv s'.
Proof. apply step_preserves_inv; [exact start3_inv|vm_compute; reflexivity]. Defined.

Lemma draw_correct_witness :
  ∃ p, draw (maze done3) = ((size (maze done3) - 1, size (maze done3) - 1) :: p, Returned) ∧
       chain (maze done3) (size (maze done3) - 1, size (maze done3) - 1) p ∧
       list.last ((size (maze done3) - 1, size (maze done3) - 1) :: p) = Some (0, 0).
Proof.
  apply (draw_correct (maze done3) 4);
    [vm_compute; reflexivity|apply inv_descending, done3_inv|vm_compute; reflexivity].
Defined.

Lemma setUpMaze_spec_witness :
  ∃ m', setUpMaze (λ _, 1%Q) 3 0 (mkMaze 0 0 [] [] []) 0 = Ok (m', (0 + Z.to_nat 3 * Z.to_nat 3)%nat) ∧
        fresh_maze (λ _, 1%Q) 3 0 0 m'.
Proof. apply setUpMaze_spec. lia. Defined.

Lemma setUpMaze_error_witness :
  setUpMaze (λ _, 1%Q) 0 0 (mkMaze 0 0 [] [] []) 0 = Throw (mkMaze 0 0 [] [] [], 0%nat).
Proof. apply setUpMaze_error. lia. Defined.

Lemma reset_establishes_inv_witness :
  ∃ s', reset start3 = Ok s' ∧ bfs_inv s' ∧ elements (queue s') = [mkNode 0 0 (Fin 0)] ∧
        size (maze s') = size (maze start3) ∧ map (maze s') = map (maze start3) ∧
        reset_fields (size (maze start3)) (distances (maze s')) (explored (maze s')).
Proof.
  apply reset_establishes_inv.
  - vm_compute. reflexivity.
  - split; vm_compute; [reflexivity|repeat constructor].
  - apply forall_cells. vm_compute. repeat constructor; discriminate.
Defined.

Lemma solved_path_correct_witness :
  ∃ p, draw (maze (run 9 start3)) =
         ((size (maze (run 9 start3)) - 1, size (maze (run 9 start3)) - 1) :: p, Returned) ∧
       chain (maze (run 9 start3)) (size (maze (run 9 start3)) - 1, size (maze (run 9 start3)) - 1) p ∧
       list.last ((size (maze (run 9 start3)) - 1, size (maze (run 9 start3)) - 1) :: p) = Some (0, 0).
Proof.
  apply (solved_path_correct start3 start3).
  - vm_compute. reflexivity.
  - split; vm_compute; [reflexivity|repeat constructor].
  - apply forall_cells. vm_compute. repeat constructor; discriminate.
  - vm_compute. reflexivity.
  - apply run_steps.
  - vm_compute. reflexivity.
Defined.

Lemma skip_terminates_witness :
  ∃ s1 s', steps start3 s1 ∧ canStep s1 = false ∧ skip start3 = Ok s' ∧
           maze s' = maze s1 ∧ queue s' = queue s1 ∧ bfs_inv s'.
Proof. apply skip_terminates. exact start3_inv. Defined.

Lemma skip_when_solved_repaints_witness :
  ∃ p, skip done3 = Ok (mkSolver (maze done3) (queue done3) (solving done3)
                      (canvas done3 ++ ((λ c, PathCell c.1 c.2) <$>
                                      ((size (maze done3) - 1, size (maze done3) - 1) :: p)))).
Proof. apply skip_when_solved_repaints; [exact done3_inv|vm_compute; reflexivity]. Defined.

Lemma app_never_throws_witness : ∃ a', handle (λ _, 1%Q) ClickSkip page2 = Ok a' ∧ reachable (λ _, 1%Q) a'.
Proof. apply app_never_throws; [apply (page_reachable session2); vm_compute; reflexivity|exact I]. Defined.

Lemma reachable_app_inv_witness : app_inv page2.
Proof. apply (reachable_app_inv (λ _, 1%Q)). apply (page_reachable session2). vm_compute. reflexivity. Defined.

Lemma paint_ignored_while_solving_witness :
  handle (λ _, 1%Q) (CanvasClick 70 90) page_step = Ok page_step ∧
  handle (λ _, 1%Q) (MouseMove true 70 90) page_step = Ok page_step.
Proof.
  apply (paint_ignored_while_solving (λ _, 1%Q) page_step 0 0 70 90).
  - apply (page_reachable [ClickStep]). vm_compute. reflexivity.
  - apply (bool_decide_unpack _). vm_compute. reflexivity.
  - vm_compute. discriminate.
Defined.

Lemma tick_paints_path_witness :
  let s := mazeSolver page2 in
  let n := size (maze s) in
  ∃ p, handle (λ _, 1%Q) Tick page2 =
         Ok (set_solver (Solver.pause (mkSolver (maze s) (queue s) true
                (canvas s ++ ((λ c, PathCell c.1 c.2) <$> ((n - 1, n - 1) :: p))))) page2) ∧
       chain (maze s) (n - 1, n - 1) p ∧ list.last ((n - 1, n - 1) :: p) = Some (0, 0).
Proof.
  apply tick_paints_path.
  - apply (page_reachable session2). vm_compute. reflexivity.
  - vm_compute. reflexivity.
  - vm_compute. reflexivity.
Defined.

Lemma shortest_distances_witness :
  walk (maze (run 9 start3)) (2, 2) 4 ∧ ∀ L, walk (maze (run 9 start3)) (2, 2) L → (4 ≤ L)%nat.
Proof.
  apply (shortest_distances start3 start3 (run 9 start3) 2 2 4).
  - vm_compute. reflexivity.
  - split; vm_compute; [reflexivity|repeat constructor].
  - apply forall_cells. vm_compute. repeat constructor; discriminate.
  - unfold no_slow. apply forall_cells. vm_compute. repeat constructor; discriminate.
  - vm_compute. reflexivity.
  - apply run_steps.
  - apply (bool_decide_unpack _). vm_compute. reflexivity.
  - vm_compute. reflexivity.
Defined.

Lemma no_solution_unreachable_witness :
  ¬ walk (maze (run 2 (newSolver walled2)))
      (size (maze (run 2 (newSolver walled2))) - 1, size (maze (run 2 (newSolver walled2))) - 1) 2.
Proof.
  apply (no_solution_unreachable (newSolver walled2) (newSolver walled2)).
  - vm_compute. reflexivity.
  - split; vm_compute; [reflexivity|repeat constructor].
  - apply forall_cells. vm_compute. repeat constructor; discriminate.
  - vm_compute. reflexivity.
  - apply run_steps.
  - vm_compute. reflexivity.
  - vm_compute. reflexivity.
Defined.

Lemma skip_solves_iff_reachable_witness :
  ∃ s', skip start3 = Ok s' ∧
        (solved (maze s') = true ↔ ∃ L, walk (maze s') (size (maze s') - 1, size (maze s') - 1) L).
Proof.
  apply (skip_solves_iff_reachable start3 start3 start3).
  - vm_compute. reflexivity.
  - split; vm_compute; [reflexivity|repeat constructor].
  - apply forall_cells. vm_compute. repeat constructor; discriminate.
  - vm_compute. reflexivity.
  - constructor.
Defined.

Lemma page_distances_shortest_witness :
  walk (maze (mazeSolver page2)) (1, 1) 2 ∧ ∀ L, walk (maze (mazeSolver page2)) (1, 1) L → (2 ≤ L)%nat.
Proof.
  apply (page_distances_shortest (λ _, 1%Q)).
  - apply (page_reachable session2). vm_compute. reflexivity.
  - apply (bool_decide_unpack _). vm_compute. reflexivity.
  - vm_compute. reflexivity.
Defined.

Lemma no_solution_reported_unreachable_witness :
  let m := maze (mazeSolver page_walled) in ¬ walk m (size m - 1, size m - 1) 2.
Proof.
  apply (no_solution_reported_unreachable (λ _, 1%Q) page_walled page_walled').
  - apply (page_reachable session_walled). vm_compute. reflexivity.
  - vm_compute. reflexivity.
  - vm_compute. reflexivity.
Defined.

Lemma page_path_shortest_witness :
  let m := maze (mazeSolver page2) in
  ∃ p, draw m = ((size m - 1, size m - 1) :: p, Returned) ∧
       walk m (size m - 1, size m - 1) (List.length p) ∧
       ∀ L, walk m (size m - 1, size m - 1) L → (List.length p ≤ L)%nat.
Proof.
  apply (page_path_shortest (λ _, 1%Q)).
  - apply (page_reachable session2). vm_compute. reflexivity.
  - vm_compute. reflexivity.
Defined.

Lemma dequeue_monotone_witness :
  ∃ D s', ndistance (default (mkNode 0 0 NaN) (head (elements (queue (run 2 start3))))) = Fin D ∧
          step (run 2 start3) = Ok s' ∧
          ∀ nd', nd' ∈ elements (queue s') → ∃ k, ndistance nd' = Fin k ∧ (D ≤ k ≤ D + 1)%nat.
Proof.
  apply (dequeue_monotone start3 start3 (run 2 start3) _ (tail (elements (queue (run 2 start3))))).
  - vm_compute. reflexivity.
  - split; vm_compute; [reflexivity|repeat constructor].
  - apply forall_cells. vm_compute. repeat constructor; discriminate.
  - unfold no_slow. apply forall_cells. vm_compute. repeat constructor; discriminate.
  - vm_compute. reflexivity.
  - apply run_steps.
  - vm_compute. reflexivity.
Defined.

Lemma running_page_stops_witness :
  ∃ a', ticks (λ _, 1%Q) (S (measure (mazeSolver page_play2))) page_play2 = Ok a' ∧
        reachable (λ _, 1%Q) a' ∧ solving (mazeSolver a') = false.
Proof.
  apply running_page_stops. apply (page_reachable [ResetMaze 2 0; ClickPlay]). vm_compute. reflexivity.
Defined.

Lemma distances_are_walk_costs_witness : cwalk (maze (run 9 (newSolver slow3))) (2, 2) 5.
Proof.
  apply (distances_are_walk_costs (newSolver slow3) (newSolver slow3) (run 9 (newSolver slow3))).
  - vm_compute. reflexivity.
  - split; vm_compute; [reflexivity|repeat constructor].
  - apply forall_cells. vm_compute. repeat constructor; discriminate.
  - vm_compute. reflexivity.
  - apply run_steps.
  - apply (bool_decide_unpack _). vm_compute. reflexivity.
  - vm_compute. reflexivity.
Defined.

Lemma page_refines_lifecycle_witness :
  spec_step Tick (phase_of (mazeSolver page_play2))
    (phase_of (mazeSolver (match handle (λ _, 1%Q) Tick page_play2 with Ok a => a | _ => page_play2 end))).
Proof.
  apply (page_refines_lifecycle (λ _, 1%Q) page_play2 Tick).
  - apply (page_reachable [ResetMaze 2 0; ClickPlay]). vm_compute. reflexivity.
  - exact I.
  - vm_compute. reflexivity.
Defined.

Lemma resetBuffer_in_canvas_witness :
  ((0 <= 400#3) ∧ (400#3) + (400#3) <= Render.CANVASSIZE ∧
   (0 <= 800#3) ∧ (800#3) + (400#3) <= Render.CANVASSIZE)%Q.
Proof.
  apply (Render.resetBuffer_in_canvas open3).
  - vm_compute. reflexivity.
  - apply list_elem_of_In. vm_compute. repeat (first [left; reflexivity | right]).
Defined.

Lemma getInfo_drawTile_roundtrip_witness :
  ∃ r, r ∈ Render.rects (Render.drawTile open3 1 2 (Some Wall)) ∧ Render.inside r 150 300.
Proof.
  exists (Render.tile_rect open3 1 2).
  assert (Hr : Render.tile_rect open3 1 2 ∈ Render.rects (Render.drawTile open3 1 2 (Some Wall)))
    by apply list_elem_of_here.
  split; [exact Hr|].
  apply (getInfo_drawTile_roundtrip open3 150 300 page0 1 2 (Some Wall)); [vm_compute; reflexivity| |exact Hr].
  vm_compute. split; reflexivity.
Defined.

Lemma drawBlock_preview_under_mouse_witness :
  ∃ r, Render.rects (drawBlock 150 300 page0) = [r] ∧
       r ∈ Render.rects (Render.resetBuffer (maze (mazeSolver page0))) ∧ Render.inside r 150 300.
Proof.
  apply (drawBlock_preview_under_mouse 150 300 page0); vm_compute; reflexivity.
Defined.

Lemma resetBuffer_paints_map_witness :
  View.colour_at (View.exec (Render.resetBuffer open3) View.blank) 150 300 =
  View.tile_colour ((map open3) @[1, 2]).
Proof.
  apply (View.resetBuffer_paints_map open3 View.blank 1 2 150 300).
  - apply (bool_decide_unpack _). vm_compute. reflexivity.
  - vm_compute. repeat split; (discriminate || reflexivity).
  - vm_compute. repeat split; (discriminate || reflexivity).
Defined.

Lemma page_buffer_shows_map_witness :
  View.colour_at (View.setup_view (λ _, 1%Q)) 70 90 = View.tile_colour ((map (maze (mazeSolver page0))) @[3, 4]).
Proof.
  apply (View.page_buffer_shows_map (λ _, 1%Q) page0 _ 3 4 70 90).
  - apply View.vreach_setup. vm_compute. reflexivity.
  - vm_compute. repeat split; (discriminate || reflexivity).
  - vm_compute. intros [H|H]; discriminate.
  - vm_compute. repeat split; (discriminate || reflexivity).
Defined.

Lemma bfs_matches_reference_witness :
  dist_at (maze (run 9 start3)) 2 2 = Reference.ref_dist (maze (run 9 start3)) 2 2.
Proof.
  apply (Reference.bfs_matches_reference start3 start3 (run 9 start3) 2 2).
  - vm_compute. reflexivity.
  - split; vm_compute; [reflexivity|repeat constructor].
  - apply forall_cells. vm_compute. repeat constructor; discriminate.
  - unfold no_slow. apply forall_cells. vm_compute. repeat constructor; discriminate.
  - vm_compute. reflexivity.
  - apply run_steps.
  - vm_compute. reflexivity.
  - apply (bool_decide_unpack _). vm_compute. reflexivity.
Defined.

Lemma page_well_typed_witness :
  ((map (maze (mazeSolver page_open2))) @[1, 1] = Some Empty ∨
   (map (maze (mazeSolver page_open2))) @[1, 1] = Some Wall) ∧
  (dist_at (maze (mazeSolver page_open2)) 1 1 = Inf ∨ ∃ k, dist_at (maze (mazeSolver page_open2)) 1 1 = Fin k) ∧
  ∃ b, (explored (maze (mazeSolver page_open2))) @[1, 1] = Some b.
Proof.
  apply (page_well_typed (λ _, 1%Q) page_open2 1 1).
  - apply (page_reachable [ResetMaze 2 0]). vm_compute. reflexivity.
  - apply (bool_decide_unpack _). vm_compute. reflexivity.
Defined.

Lemma page_distance_bound_witness :
  (2 < Z.to_nat (size (maze (mazeSolver page2))) * Z.to_nat (size (maze (mazeSolver page2))))%nat.
Proof.
  apply (Reference.page_distance_bound (λ _, 1%Q) page2 1 1 2).
  - apply (page_reachable session2). vm_compute. reflexivity.
  - apply (bool_decide_unpack _). vm_compute. reflexivity.
  - vm_compute. reflexivity.
Defined.

Lemma end_tile_painted_over_witness :
  ∃ a', handle (λ _, 1%Q) (CanvasClick 5 5) page0 = Ok a' ∧
        View.vreachable (λ _, 1%Q) a' (View.view_handle (λ _, 1%Q) (CanvasClick 5 5) page0 (View.setup_view (λ _, 1%Q))) ∧
        (map (maze (mazeSolver a'))) @[0, 0] = Some Empty ∧
        View.colour_at (View.view_handle (λ _, 1%Q) (CanvasClick 5 5) page0 (View.setup_view (λ _, 1%Q))) 7 3 =
          View.tile_colour (Some Wall) ∧
        View.tile_colour (Some Wall) ≠ View.tile_colour ((map (maze (mazeSolver a'))) @[0, 0]).
Proof.
  apply (View.end_tile_painted_over (λ _, 1%Q) page0 _ 5 5 0 0 7 3).
  - apply View.vreach_setup. vm_compute. reflexivity.
  - vm_compute. reflexivity.
  - vm_compute. reflexivity.
  - vm_compute. reflexivity.
  - vm_compute. repeat split; (discriminate || reflexivity).
  - left. reflexivity.
  - vm_compute. repeat split; (discriminate || reflexivity).
Defined.

Lemma draw_throws_only_at_goal_witness :
  [(1, 1)] = [(size walled2 - 1, size walled2 - 1)] ∧
  Forall (λ c, inBounds walled2 c.1 c.2 = false ∨ (dist_at walled2 c.1 c.2 <js Inf) = false)
    (neighbours (size walled2 - 1) (size walled2 - 1)).
Proof. apply draw_throws_only_at_goal. vm_compute. reflexivity. Defined.

Lemma steps_visit_each_cell_once_witness :
  ∃ L, canvas (run 9 start3) = canvas start3 ++ ((λ c, Visited c.1 c.2) <$> L) ∧ NoDup L ∧
       (∀ x y, in_range (size (maze (run 9 start3))) x y → ((x, y) ∈ L ↔ dist_at (maze (run 9 start3)) x y ≠ Inf)) ∧
       (length L ≤ Z.to_nat (size (maze (run 9 start3))) * Z.to_nat (size (maze (run 9 start3))))%nat.
Proof.
  apply (steps_visit_each_cell_once start3 start3 (run 9 start3)).
  - vm_compute. reflexivity.
  - split; vm_compute; [reflexivity|repeat constructor].
  - apply forall_cells. vm_compute. repeat constructor; discriminate.
  - vm_compute. reflexivity.
  - apply run_steps.
Defined.

Lemma resetMaze_repaints_buffer_witness :
  View.colour_at (View.view_handle (λ _, 1%Q) (ResetMaze 2 0) page0 (View.setup_view (λ _, 1%Q))) 250 50 =
  View.tile_colour ((map (maze (mazeSolver page_open2))) @[1, 0]).
Proof.
  apply (View.resetMaze_repaints_buffer (λ _, 1%Q) page0 _ 2 0 page_open2 1 0 250 50).
  - apply View.vreach_setup. vm_compute. reflexivity.
  - lia.
  - vm_compute. reflexivity.
  - vm_compute. repeat split; (discriminate || reflexivity).
  - vm_compute. repeat split; (discriminate || reflexivity).
Defined.

End Scenarios.
